(** * Tile-based DNA assembly on trees: the orienter (LSO) and the two labelers

    A shallow embedding of [algorithm_trees.py].  The program works on
    networkx graphs; the parts of networkx it calls are modelled here as
    library code, in the order the program needs them:

    - [Graph]   : [nx.Graph], an insertion-ordered adjacency dictionary;
    - [DiGraph] : [nx.DiGraph], successor and predecessor dictionaries;
    - [LSO], [alg2], [alg3] : the three functions of the program.

    Python exceptions are values of [exn]; a computation that may raise
    returns a [result].  The drawing calls ([graphviz_layout], [nx.draw],
    [plt.savefig], [plt.show]) have no effect on the values computed and are
    left out. *)

From Stdlib Require Import String.
From Stdlib Require Import ZArith List Bool Arith Lia.
From Stdlib Require Import Permutation Sorting.Sorted Sorting.Mergesort.
Import ListNotations.

Local Open Scope Z_scope.
Local Open Scope nat_scope.

(** ** Exceptions and results *)

Inductive exn : Type :=
| KeyError
| IndexError
| NetworkXError
| NetworkXUnfeasible.

Inductive result (A : Type) : Type :=
| Ok (a : A)
| Raise (e : exn).

Arguments Ok {A} a.
Arguments Raise {A} e.

Definition bind {A B : Type} (m : result A) (k : A -> result B) : result B :=
  match m with
  | Ok a => k a
  | Raise e => Raise e
  end.

Notation "x <- m ;; k" := (bind m (fun x => k))
  (at level 61, m at next level, right associativity).
Notation "' p <- m ;; k" := (bind m (fun p => k))
  (at level 61, p pattern, m at next level, right associativity).

(** A [for] loop whose body may raise: the state is threaded from left to
    right and the first exception ends the loop. *)
Fixpoint foldM {A S : Type} (body : S -> A -> result S) (l : list A) (s : S)
  : result S :=
  match l with
  | [] => Ok s
  | a :: l' => s' <- body s a ;; foldM body l' s'
  end.

(** The states in which the iterations of such a loop start, as far as the
    loop runs. *)
Fixpoint foldM_states {A S : Type} (body : S -> A -> result S) (l : list A)
  (s : S) : list S :=
  match l with
  | [] => []
  | a :: l' =>
      s :: match body s a with
           | Ok s' => foldM_states body l' s'
           | Raise _ => []
           end
  end.

(** ** Nodes and node lists used as sets *)

Definition node := Z.

Definition mem (x : node) (l : list node) : bool := existsb (Z.eqb x) l.

(** Number of nodes of [univ] that are not in [seen]. *)
Definition unseen (univ seen : list node) : nat :=
  length (filter (fun x => negb (mem x seen)) univ).

(** ** nx.Graph *)

Module Graph.

(** The attribute dictionary of an edge. *)
Definition attrs := list (string * Z).

(** [_adj[u]]: neighbour -> attributes, in insertion order. *)
Definition adjlist := list (node * attrs).

(** [_adj]: node -> adjacency, in insertion order.  [_node] has the same
    keys in the same order. *)
Definition t := list (node * adjlist).

Definition nodes (G : t) : list node := map fst G.

Fixpoint adj (G : t) (u : node) : option adjlist :=
  match G with
  | [] => None
  | (n, nb) :: G' => if Z.eqb n u then Some nb else adj G' u
  end.

Fixpoint get (nb : adjlist) (v : node) : option attrs :=
  match nb with
  | [] => None
  | (w, d) :: r => if Z.eqb w v then Some d else get r v
  end.

(** [del nb[v]] *)
Fixpoint del (nb : adjlist) (v : node) : adjlist :=
  match nb with
  | [] => []
  | (w, d) :: r => if Z.eqb w v then r else (w, d) :: del r v
  end.

(** [nb[v] = d]: an existing key keeps its place, a new one goes last. *)
Fixpoint set (nb : adjlist) (v : node) (d : attrs) : adjlist :=
  match nb with
  | [] => [(v, d)]
  | (w, d') :: r => if Z.eqb w v then (w, d) :: r else (w, d') :: set r v d
  end.

(** [_adj[u] = f(_adj[u])] for an existing key [u]. *)
Fixpoint upd (G : t) (u : node) (f : adjlist -> adjlist) : t :=
  match G with
  | [] => []
  | (n, nb) :: G' =>
      if Z.eqb n u then (n, f nb) :: G' else (n, nb) :: upd G' u f
  end.

Definition neighbors (G : t) (u : node) : list node :=
  match adj G u with
  | Some nb => map fst nb
  | None => []
  end.

Definition has_edge (G : t) (u v : node) : bool := mem v (neighbors G u).

Definition add_node (G : t) (u : node) : t :=
  if mem u (nodes G) then G else G ++ [(u, [])].

(** [G.add_edge(u, v)] without attributes. *)
Definition add_edge (G : t) (u v : node) : t :=
  let G2 := add_node (add_node G u) v in
  let datadict :=
    match adj G2 u with
    | Some nb => match get nb v with Some d => d | None => [] end
    | None => []
    end in
  upd (upd G2 u (fun nb => set nb v datadict)) v (fun nb => set nb u datadict).

(** [G.remove_edge(u, v)]: the [KeyError] of either [del] is turned into
    [NetworkXError]. *)
Definition remove_edge (G : t) (u v : node) : result t :=
  match adj G u with
  | None => Raise NetworkXError
  | Some nb =>
      match get nb v with
      | None => Raise NetworkXError
      | Some _ =>
          let G1 := upd G u (fun nb => del nb v) in
          if Z.eqb u v then Ok G1
          else
            match adj G1 v with
            | None => Raise NetworkXError
            | Some nb' =>
                match get nb' u with
                | None => Raise NetworkXError
                | Some _ => Ok (upd G1 v (fun nb => del nb u))
                end
            end
      end
  end.

(** [G.edges(data=True)]: every node in node order, every neighbour in
    adjacency order, skipping the neighbours whose own turn has passed. *)
Fixpoint edges_from (seen : list node) (G : t)
  : list (node * node * attrs) :=
  match G with
  | [] => []
  | (n, nb) :: G' =>
      map (fun p => (n, fst p, snd p))
          (filter (fun p => negb (mem (fst p) seen)) nb)
        ++ edges_from (n :: seen) G'
  end.

Definition edges (G : t) : list (node * node * attrs) := edges_from [] G.

(** One round of [_plain_bfs]: every node of the level that is not yet
    seen is added to [seen] and its neighbours go to the next level. *)
Definition bfs_visit (G : t) (st : list node * list node) (v : node)
  : list node * list node :=
  if mem v (fst st) then st
  else (v :: fst st,
        fold_left (fun nx w => if mem w nx then nx else nx ++ [w])
                  (neighbors G v) (snd st)).

(** [_plain_bfs]: the [while nextlevel] loop, with the number of rounds
    bounded by [fuel]. *)
Fixpoint plain_bfs (fuel : nat) (G : t) (seen thislevel : list node)
  : list node :=
  match fuel with
  | O => seen
  | S fuel' =>
      match thislevel with
      | [] => seen
      | _ =>
          let st := fold_left (bfs_visit G) thislevel (seen, []) in
          plain_bfs fuel' G (fst st) (snd st)
      end
  end.

(** [nx.node_connected_component(G, n)]; [G.adj[n]] raises [KeyError]
    for a node that is not in the graph. *)
Definition node_connected_component (G : t) (n : node)
  : result (list node) :=
  if mem n (nodes G)
  then Ok (plain_bfs (S (length (nodes G))) G [] [n])
  else Raise KeyError.

End Graph.

(** ** nx.DiGraph *)

Module DiGraph.

(** [_succ[u]]: successor -> the value of the edge attribute ["labels"],
    [None] for an edge whose attribute dictionary is empty. *)
Definition succlist := list (node * option nat).

Record t : Type := mk {
  succ : list (node * succlist);
  pred : list (node * list node)
}.

Definition empty : t := mk [] [].

Definition nodes (T : t) : list node := map fst (succ T).

Fixpoint lookup {A : Type} (m : list (node * A)) (u : node) : option A :=
  match m with
  | [] => None
  | (n, a) :: m' => if Z.eqb n u then Some a else lookup m' u
  end.

Fixpoint update {A : Type} (m : list (node * A)) (u : node) (f : A -> A)
  : list (node * A) :=
  match m with
  | [] => []
  | (n, a) :: m' =>
      if Z.eqb n u then (n, f a) :: m' else (n, a) :: update m' u f
  end.

Definition add_node (T : t) (u : node) : t :=
  if mem u (nodes T) then T
  else mk (succ T ++ [(u, [])]) (pred T ++ [(u, [])]).

Definition add_nodes_from (T : t) (ns : list node) : t :=
  fold_left add_node ns T.

(** Insertion of a successor: an existing edge keeps its place and its
    attributes. *)
Fixpoint set_succ (sl : succlist) (v : node) : succlist :=
  match sl with
  | [] => [(v, None)]
  | (w, d) :: r => if Z.eqb w v then (w, d) :: r else (w, d) :: set_succ r v
  end.

Definition set_pred (pl : list node) (u : node) : list node :=
  if mem u pl then pl else pl ++ [u].

(** [T.add_edge(u, v)] without attributes. *)
Definition add_edge (T : t) (u v : node) : t :=
  let T2 := add_node (add_node T u) v in
  mk (update (succ T2) u (fun sl => set_succ sl v))
     (update (pred T2) v (fun pl => set_pred pl u)).

(** [T[u]], the successors of a node of the graph, in insertion order. *)
Definition adj (T : t) (u : node) : list node :=
  match lookup (succ T) u with
  | Some sl => map fst sl
  | None => []
  end.

(** [T.pred[u]], the predecessors of a node of the graph. *)
Definition preds (T : t) (u : node) : list node :=
  match lookup (pred T) u with
  | Some pl => pl
  | None => []
  end.

(** [T.successors(u)] and [T.predecessors(u)] raise [NetworkXError] for a
    node that is not in the graph. *)
Definition successors (T : t) (u : node) : result (list node) :=
  match lookup (succ T) u with
  | Some sl => Ok (map fst sl)
  | None => Raise NetworkXError
  end.

Definition predecessors (T : t) (u : node) : result (list node) :=
  match lookup (pred T) u with
  | Some pl => Ok pl
  | None => Raise NetworkXError
  end.

Definition in_degree (T : t) (u : node) : nat := length (preds T u).
Definition out_degree (T : t) (u : node) : nat := length (adj T u).

(** [T.in_degree()]: the pairs (node, in-degree) in node order. *)
Definition in_degree_view (T : t) : list (node * nat) :=
  map (fun n => (n, in_degree T n)) (nodes T).

(** [T.edges[u, v]], the attribute dictionary of an edge. *)
Definition edge_data (T : t) (u v : node) : result (option nat) :=
  match lookup (succ T) u with
  | None => Raise KeyError
  | Some sl =>
      match lookup sl v with
      | None => Raise KeyError
      | Some d => Ok d
      end
  end.

(** [T.edges[u, v]["labels"] = k] *)
Definition set_label (T : t) (u v : node) (k : nat) : result t :=
  d <- edge_data T u v ;;
  Ok (mk (update (succ T) u (fun sl => update sl v (fun _ => Some k)))
         (pred T)).

(** *** Depth-first search *)

(** The state of [dfs_labeled_edges]: the visited nodes, last visited
    first; the nodes whose visit is finished, in the order of their
    "reverse" events; the "forward" edges in the order of their events. *)
Record dfs_state : Type := mk_dfs {
  visited : list node;
  finished : list node;
  tree_edges : list (node * node)
}.

(** The visit of the successors of [u], a node that is already marked as
    visited, followed by the "reverse" event of [u].  [depth] is the
    [depth_now] of the library: a node reached with no depth left is
    marked as visited and reported but neither expanded nor finished. *)
Fixpoint dfs_visit (depth : nat) (T : t) (s : dfs_state) (u : node)
  : dfs_state :=
  match depth with
  | O => s
  | S depth' =>
      let s' :=
        fold_left
          (fun s c =>
             if mem c (visited s) then s
             else dfs_visit depth' T
                    (mk_dfs (c :: visited s) (finished s)
                            (tree_edges s ++ [(u, c)])) c)
          (adj T u) s in
      mk_dfs (visited s') (finished s' ++ [u]) (tree_edges s')
  end.

(** The search from [source] with the default [depth_limit = len(T)];
    [T[source]] raises [KeyError] for a node that is not in the graph. *)
Definition dfs (T : t) (source : node) : result dfs_state :=
  if mem source (nodes T)
  then Ok (dfs_visit (length (nodes T)) T (mk_dfs [source] [] []) source)
  else Raise KeyError.

Definition dfs_preorder_nodes (T : t) (source : node) : result (list node) :=
  s <- dfs T source ;; Ok (rev (visited s)).

Definition dfs_postorder_nodes (T : t) (source : node) : result (list node) :=
  s <- dfs T source ;; Ok (finished s).

(** [nx.dfs_tree(T, source)]: a new directed graph with the node [source]
    and the tree edges of the search. *)
Definition dfs_tree (T : t) (source : node) : result t :=
  s <- dfs T source ;;
  Ok (fold_left (fun T' e => add_edge T' (fst e) (snd e)) (tree_edges s)
                (add_node empty source)).

(** *** Longest path of a directed acyclic graph *)

(** [nx.topological_sort]: generation after generation, a node is ready
    once all its predecessors are done; nodes that never get ready lie on
    or behind a cycle, and the sort raises [NetworkXUnfeasible]. *)
Fixpoint topological_sort_from (fuel : nat) (T : t) (todo done : list node)
  : result (list node) :=
  match todo with
  | [] => Ok done
  | _ =>
      match fuel with
      | O => Raise NetworkXUnfeasible
      | S fuel' =>
          let ready x := forallb (fun p => mem p done) (preds T x) in
          match filter ready todo with
          | [] => Raise NetworkXUnfeasible
          | gen =>
              topological_sort_from fuel' T
                (filter (fun x => negb (ready x)) todo) (done ++ gen)
          end
      end
  end.

Definition topological_sort (T : t) : result (list node) :=
  topological_sort_from (length (nodes T)) T (nodes T) [].

(** [dist[v]], the number of edges of the longest path that ends in [v],
    for the nodes in topological order. *)
Definition longest_dist (T : t) (dist : list (node * nat)) (v : node)
  : list (node * nat) :=
  let ds := map (fun u => match lookup dist u with
                          | Some d => S d
                          | None => 0
                          end) (preds T v) in
  dist ++ [(v, fold_left Nat.max ds 0)].

(** [nx.dag_longest_path_length(T)] with the default weight 1 for every
    edge. *)
Definition dag_longest_path_length (T : t) : result nat :=
  order <- topological_sort T ;;
  Ok (fold_left Nat.max (map snd (fold_left (longest_dist T) order [])) 0).

(** *** Nodes at a given distance *)

(** One round of the search of [descendants_at_distance]: the unvisited
    successors of the nodes of the queue. *)
Definition next_vertices (T : t) (queue visited : list node)
  : list node * list node :=
  fold_left
    (fun st vertex =>
       fold_left
         (fun st child =>
            if mem child (snd st) then st
            else (fst st ++ [child], child :: snd st))
         (adj T vertex) st)
    queue ([], visited).

Fixpoint layer_at (distance : nat) (T : t) (queue visited : list node)
  : list node :=
  match queue with
  | [] => []
  | _ =>
      match distance with
      | O => queue
      | S distance' =>
          let st := next_vertices T queue visited in
          layer_at distance' T (fst st) (snd st)
      end
  end.

(** [nx.descendants_at_distance(T, source, distance)], a set: the order
    in which Python enumerates it is not the order of this list. *)
Definition descendants_at_distance (T : t) (source : node) (distance : nat)
  : result (list node) :=
  if mem source (nodes T)
  then Ok (layer_at distance T [source] [source])
  else Raise NetworkXError.

End DiGraph.

(** ** The orienter *)

(** The body of the loop of [LSO] for the edge [(u, v)]. *)
Definition LSO_step (st : Graph.t * DiGraph.t) (e : node * node * Graph.attrs)
  : result (Graph.t * DiGraph.t) :=
  let '(G, T) := st in
  let '(u, v, a) := e in
  G1 <- Graph.remove_edge G u v ;;
  c1 <- Graph.node_connected_component G1 u ;;
  c2 <- Graph.node_connected_component G1 v ;;
  let l1 := length c1 in
  let l2 := length c2 in
  let T' := if l1 <? l2 then DiGraph.add_edge T v u
            else DiGraph.add_edge T u v in
  Ok (Graph.add_edge G1 u v, T').

(** [LSO(G)].  The graph [G] is mutated by the loop, so the final state of
    [G] is returned next to the directed graph [T]. *)
Definition LSO_init (G : Graph.t) : DiGraph.t :=
  DiGraph.add_nodes_from DiGraph.empty (Graph.nodes G).

Definition LSO_run (G : Graph.t) : result (Graph.t * DiGraph.t) :=
  foldM LSO_step (Graph.edges G) (G, LSO_init G).

(** The state of [G] and [T] at the start of each iteration of the loop. *)
Definition LSO_states (G : Graph.t) : list (Graph.t * DiGraph.t) :=
  foldM_states LSO_step (Graph.edges G) (G, LSO_init G).

Definition LSO (G : Graph.t) : result DiGraph.t :=
  '(_, T) <- LSO_run G ;; Ok T.

(** ** Scenario 2 *)

(** The search for the root: [root = 0], overwritten by every node of
    in-degree 0 in node order. *)
Definition find_root (T : DiGraph.t) : node :=
  fold_left (fun root nd => if snd nd =? 0 then fst nd else root)
            (DiGraph.in_degree_view T) 0%Z.

(** [list(...)[0]] *)
Definition first {A : Type} (l : list A) : result A :=
  match l with
  | x :: _ => Ok x
  | [] => Raise IndexError
  end.

(** [len(list(nx.dfs_tree(T, x)))] *)
Definition subtree_size (T : DiGraph.t) (x : node) : result nat :=
  t <- DiGraph.dfs_tree T x ;; Ok (length (DiGraph.nodes t)).

Fixpoint mapM {A B : Type} (f : A -> result B) (l : list A)
  : result (list B) :=
  match l with
  | [] => Ok []
  | a :: l' => b <- f a ;; bs <- mapM f l' ;; Ok (b :: bs)
  end.

(** [k in labels] and [tile in tiles] *)
Definition mem_nat (k : nat) (l : list nat) : bool := existsb (Nat.eqb k) l.

Definition tile_eqb (a b : list nat) : bool :=
  if list_eq_dec Nat.eq_dec a b then true else false.

Definition mem_tile (tile : list nat) (tiles : list (list nat)) : bool :=
  existsb (tile_eqb tile) tiles.

(** The variables of the loop of [alg2]. *)
Record alg2_state : Type := mk_alg2 {
  tree2 : DiGraph.t;
  labels : list nat;
  tiles : list (list nat)
}.

(** The tile of the node [x]: empty for a node without successors, and
    otherwise the sorted sizes of the subtrees of the nodes in preorder
    from [x]. *)
Definition tile_of (T : DiGraph.t) (x : node) : result (list nat) :=
  succs <- DiGraph.successors T x ;;
  match succs with
  | [] => Ok []
  | _ =>
      pre <- DiGraph.dfs_preorder_nodes T x ;;
      sizes <- mapM (subtree_size T) pre ;;
      Ok (NatSort.sort sizes)
  end.

(** The body of the loop of [alg2] for the node [x]. *)
Definition alg2_body (root : node) (st : alg2_state) (x : node)
  : result alg2_state :=
  st1 <- (if Z.eqb x root then Ok st
          else
            k <- subtree_size (tree2 st) x ;;
            ps <- DiGraph.predecessors (tree2 st) x ;;
            p <- first ps ;;
            T' <- DiGraph.set_label (tree2 st) p x k ;;
            Ok (mk_alg2 T'
                  (if mem_nat k (labels st) then labels st
                   else labels st ++ [k])
                  (tiles st))) ;;
  tile <- tile_of (tree2 st1) x ;;
  Ok (mk_alg2 (tree2 st1) (labels st1)
        (if mem_tile tile (tiles st1) then tiles st1
         else tiles st1 ++ [tile])).

(** [alg2(G)] up to the end of the loop. *)
Definition alg2_run (G : Graph.t) : result alg2_state :=
  T <- LSO G ;;
  let root := find_root T in
  T_list <- DiGraph.dfs_postorder_nodes T root ;;
  foldM (alg2_body root) T_list (mk_alg2 T [] []).

Definition alg2 (G : Graph.t) : result (nat * nat) :=
  st <- alg2_run G ;; Ok (length (labels st), length (tiles st)).

(** ** Scenario 3 *)

Section Scenario3.

(** [nx.is_isomorphic] on two directed graphs. *)
Variable is_isomorphic : DiGraph.t -> DiGraph.t -> bool.

(** The order in which [list(...)] enumerates a Python set. *)
Variable set_list : list node -> list node.

(** The variables of the loop of [alg3]. *)
Record alg3_state : Type := mk_alg3 {
  tree3 : DiGraph.t;
  j : nat;
  subgraphs : list DiGraph.t
}.

(** The first loop: the edge into every node without successors and with
    one predecessor is labelled 1. *)
Definition label_leaf (T : DiGraph.t) (x : node) : result DiGraph.t :=
  if (DiGraph.out_degree T x =? 0) && (DiGraph.in_degree T x =? 1)
  then
    ps <- DiGraph.predecessors T x ;;
    p <- first ps ;;
    DiGraph.set_label T p x 1
  else Ok T.

(** [T.edges[list(T.predecessors(l))[0], l] == {}] *)
Definition unlabelled (T : DiGraph.t) (l : node) : result bool :=
  ps <- DiGraph.predecessors T l ;;
  p <- first ps ;;
  d <- DiGraph.edge_data T p l ;;
  Ok (match d with None => true | Some _ => false end).

(** [j = j + 1] and the labelling of the edge into [l]. *)
Definition new_label (st : alg3_state) (l : node) : result alg3_state :=
  ps <- DiGraph.predecessors (tree3 st) l ;;
  p <- first ps ;;
  T' <- DiGraph.set_label (tree3 st) p l (j st + 1) ;;
  Ok (mk_alg3 T' (j st + 1) (subgraphs st)).

(** The body of the inner loop of [alg3] for the node [l]. *)
Definition alg3_body (st : alg3_state) (l : node) : result alg3_state :=
  st1 <- match subgraphs st with
         | [] =>
             b <- unlabelled (tree3 st) l ;;
             if b then new_label st l else Ok st
         | _ =>
             sub <- DiGraph.dfs_tree (tree3 st) l ;;
             if existsb (is_isomorphic sub) (subgraphs st) then Ok st
             else
               b <- unlabelled (tree3 st) l ;;
               if b then new_label st l else Ok st
         end ;;
  sub <- DiGraph.dfs_tree (tree3 st1) l ;;
  Ok (mk_alg3 (tree3 st1) (j st1) (subgraphs st1 ++ [sub])).

(** The body of the outer loop for the level [i]. *)
Definition alg3_level (root : node) (st : alg3_state) (i : nat)
  : result alg3_state :=
  level <- DiGraph.descendants_at_distance (tree3 st) root i ;;
  foldM alg3_body (set_list level) st.

(** [range(h-1, 0, -1)] *)
Definition levels (h : nat) : list nat := rev (seq 1 (h - 1)).

(** [alg3(G)] up to the end of the loops. *)
Definition alg3_run (G : Graph.t) : result alg3_state :=
  T <- LSO G ;;
  h <- DiGraph.dag_longest_path_length T ;;
  let root := find_root T in
  T1 <- foldM label_leaf (DiGraph.nodes T) T ;;
  foldM (alg3_level root) (levels h) (mk_alg3 T1 1 []).

Definition alg3 (G : Graph.t) : result (nat * nat) :=
  st <- alg3_run G ;; Ok (j st, j st + 1).

End Scenario3.

(** *** An isomorphism test for the examples *)

(** The trees that [dfs_tree] builds are compared by their canonical
    codes: the code of a node is an opening mark, the codes of its
    children in ascending order, and a closing mark.  The root of such a
    tree is its first node. *)
Fixpoint code_leb (a b : list bool) : bool :=
  match a, b with
  | [], _ => true
  | _ :: _, [] => false
  | x :: a', y :: b' => if Bool.eqb x y then code_leb a' b' else negb x
  end.

Fixpoint insert_code (c : list bool) (l : list (list bool))
  : list (list bool) :=
  match l with
  | [] => [c]
  | d :: r => if code_leb c d then c :: l else d :: insert_code c r
  end.

Definition sort_codes (l : list (list bool)) : list (list bool) :=
  fold_right insert_code [] l.

Fixpoint tree_code (fuel : nat) (T : DiGraph.t) (x : node) : list bool :=
  match fuel with
  | O => []
  | S fuel' =>
      true :: concat (sort_codes (map (tree_code fuel' T) (DiGraph.adj T x)))
        ++ [false]
  end.

Definition code_eqb (a b : list bool) : bool :=
  if list_eq_dec Bool.bool_dec a b then true else false.

Definition is_isomorphic_tree (A B : DiGraph.t) : bool :=
  match DiGraph.nodes A, DiGraph.nodes B with
  | [], [] => true
  | a :: _, b :: _ =>
      code_eqb (tree_code (length (DiGraph.nodes A)) A a)
               (tree_code (length (DiGraph.nodes B)) B b)
  | _, _ => false
  end.

(** One way to enumerate a set of nodes: as the search found them. *)
Definition in_order (l : list node) : list node := l.

(** The same, each node once. *)
Definition in_order_once (l : list node) : list node := nodup Z.eq_dec l.

(** The example graphs of the program. *)
Definition add_edges_from (G : Graph.t) (es : list (node * node)) : Graph.t :=
  fold_left (fun G e => Graph.add_edge G (fst e) (snd e)) es G.

Definition add_nodes_from (G : Graph.t) (ns : list node) : Graph.t :=
  fold_left Graph.add_node ns G.

Definition G_main : Graph.t :=
  add_edges_from (add_nodes_from [] [1;2;3;4;5;6;7;8;9]%Z)
    [(1,3);(2,3);(3,4);(4,5);(5,6);(6,7);(7,8);(6,9)]%Z.

(** Two edges that do not touch: a graph that is not connected. *)
Definition G_two_edges : Graph.t :=
  add_edges_from (add_nodes_from [] [1;2;3;4]%Z) [(1,2);(3,4)]%Z.

(** A triangle: a connected simple graph with a cycle. *)
Definition G_triangle : Graph.t :=
  add_edges_from (add_nodes_from [] [1;2;3]%Z) [(1,2);(1,3);(2,3)]%Z.

(** The path graphs on 2 and on 4 nodes. *)
Definition G_path2 : Graph.t :=
  add_edges_from (add_nodes_from [] [1;2]%Z) [(1,2)]%Z.

Definition G_path4 : Graph.t :=
  add_edges_from (add_nodes_from [] [1;2;3;4]%Z) [(1,2);(2,3);(3,4)]%Z.

(** Two nodes and no edge. *)
Definition G_two_nodes : Graph.t := add_nodes_from [] [1;2]%Z.

(** One node with an edge to itself. *)
Definition G_loop : Graph.t :=
  add_edges_from (add_nodes_from [] [1]%Z) [(1,1)]%Z.

(** Two triangles joined by an edge: a connected simple graph that is
    not a tree. *)
Definition G_mixed : Graph.t :=
  add_edges_from (add_nodes_from [] [1;2;3;4;5;6]%Z)
    [(1,2);(1,3);(2,3);(4,5);(4,6);(5,6);(3,5)]%Z.

(** The example graph of the program with its edges added in the opposite
    order. *)
Definition G_main_rev : Graph.t :=
  add_edges_from (add_nodes_from [] [1;2;3;4;5;6;7;8;9]%Z)
    [(6,9);(7,8);(6,7);(5,6);(4,5);(3,4);(2,3);(1,3)]%Z.

(** ** Well-formed graphs and reachability *)

Module GraphSpec.
Import Graph.

(** Every adjacency dictionary has each neighbour once. *)
Definition keys_ok (G : t) : Prop :=
  forall u nb, adj G u = Some nb -> NoDup (map fst nb).

(** The invariant of the [nx.Graph] class: node keys are unique, and [v]
    is in [_adj[u]] exactly when [u] is in [_adj[v]]. *)

Record wf (G : t) : Prop := mk_wf {
  wf_nodes : NoDup (nodes G);
  wf_keys : keys_ok G;
  wf_sym : forall u v, In v (neighbors G u) -> In u (neighbors G v)
}.

(** Same nodes in the same order, and the same edges. *)
Definition same_graph (G G' : t) : Prop :=
  nodes G' = nodes G /\
  forall a b, In b (neighbors G' a) <-> In b (neighbors G a).

(** [reach G a b]: there is a walk from [a] to [b]. *)
Inductive reach (G : t) (a : node) : node -> Prop :=
| reach_refl : reach G a a
| reach_step (b c : node) :
    reach G a b -> In c (neighbors G b) -> reach G a c.

(** No self-loops. *)
Definition simple (G : t) : Prop := forall u, ~ In u (neighbors G u).

(** [reach_without G u v a b]: there is a walk from [a] to [b] that does
    not use the edge between [u] and [v]. *)
Inductive reach_without (G : t) (u v a : node) : node -> Prop :=
| rw_refl : reach_without G u v a a
| rw_step (b c : node) :
    reach_without G u v a b -> In c (neighbors G b) ->
    ~ (b = u /\ c = v) -> ~ (b = v /\ c = u) ->
    reach_without G u v a c.

(** [c] lists, each once, the nodes of the connected component of [a]. *)
Definition is_component (G : t) (a : node) (c : list node) : Prop :=
  NoDup c /\ forall x, In x c <-> reach G a x.

Definition connected (G : t) : Prop :=
  forall a b, In a (nodes G) -> In b (nodes G) -> reach G a b.

(** A tree: a connected simple graph with at least one node in which no
    edge lies on a cycle, that is, the ends of an edge are not joined by a
    walk that avoids the edge. *)
Record tree (G : t) : Prop := mk_tree {
  tree_wf : wf G;
  tree_simple : simple G;
  tree_nonempty : nodes G <> [];
  tree_connected : connected G;
  tree_acyclic :
    forall u v, In v (neighbors G u) -> ~ reach_without G u v u v
}.

(** A path graph: a tree in which no node has more than two neighbours. *)
Definition path_graph (G : t) : Prop :=
  tree G /\ forall x, length (neighbors G x) <= 2.

(** [G1] is [G] with exactly the edge between [u] and [v] removed. *)
Definition minus_edge (G G1 : t) (u v : node) : Prop :=
  nodes G1 = nodes G /\
  forall a b, In b (neighbors G1 a)
              <-> In b (neighbors G a)
                  /\ ~ (a = u /\ b = v) /\ ~ (a = v /\ b = u).

(** The rule of the orienter for the edge [(u, v)] of [G]: with [l1] and
    [l2] the sizes of the components of [u] and of [v] once the edge is
    removed, the directed edge is [(v, u)] if [l2 > l1] and [(u, v)]
    otherwise. *)
Definition oriented (G : t) (e : node * node * attrs) (d : node * node)
  : Prop :=
  let '(u, v, _) := e in
  exists G1 c1 c2,
    minus_edge G G1 u v /\ is_component G1 u c1 /\ is_component G1 v c2 /\
    d = if length c1 <? length c2 then (v, u) else (u, v).

End GraphSpec.

(** ** Well-formed directed graphs and rooted trees *)

Module DiGraphSpec.
Import DiGraph.

(** The invariant of the [nx.DiGraph] class: [_succ] and [_pred] have the
    nodes as keys, each once, and [v] is a successor of [u] exactly when [u]
    is a predecessor of [v]. *)
Record wf (T : t) : Prop := mk_wf {
  wf_nodes : NoDup (nodes T);
  wf_keys : map fst (pred T) = nodes T;
  wf_adj : forall u, NoDup (adj T u);
  wf_preds : forall u, NoDup (preds T u);
  wf_sym : forall u v, In v (adj T u) <-> In u (preds T v);
  wf_closed : forall u v, In v (adj T u) -> In u (nodes T) /\ In v (nodes T)
}.

(** [reach T a b]: there is a directed walk from [a] to [b]. *)
Inductive reach (T : t) (a : node) : node -> Prop :=
| reach_refl : reach T a a
| reach_step (b c : node) : reach T a b -> In c (adj T b) -> reach T a c.

(** A rooted tree with root [r], oriented away from the root: the root has
    in-degree 0, every other node has in-degree 1, and the root reaches
    every node. *)
Record rooted_tree (T : t) (r : node) : Prop := mk_rooted_tree {
  rt_wf : wf T;
  rt_root : In r (nodes T);
  rt_root_degree : in_degree T r = 0;
  rt_degree : forall x, In x (nodes T) -> x <> r -> in_degree T x = 1;
  rt_reach : forall x, In x (nodes T) -> reach T r x
}.

(** [at_depth T r d x]: a directed walk of [d] edges leads from [r] to
    [x]. *)
Inductive at_depth (T : t) (r : node) : nat -> node -> Prop :=
| depth_O : at_depth T r 0 r
| depth_S (d : nat) (b c : node) :
    at_depth T r d b -> In c (adj T b) -> at_depth T r (S d) c.

(** [c] lists, each once, the node [x] and its descendants. *)
Definition is_subtree (T : t) (x : node) (c : list node) : Prop :=
  NoDup c /\ forall y, In y c <-> reach T x y.

(** The size of the subtree of [x], the node itself included. *)
Definition has_size (T : t) (x : node) (k : nat) : Prop :=
  exists c, is_subtree T x c /\ length c = k.

(** The tile signature of [x]: empty for a node without children, and
    otherwise the sizes of the subtrees of [x] and of all its descendants,
    in ascending order. *)
Definition has_signature (T : t) (x : node) (tile : list nat) : Prop :=
  (adj T x = [] /\ tile = []) \/
  (adj T x <> [] /\
   exists c ks, is_subtree T x c /\ Forall2 (has_size T) c ks /\
                Sorted le tile /\ Permutation tile ks).

(** Same nodes, same successors, same predecessors: only the labels of
    the edges may differ. *)
Definition same_shape (T T' : t) : Prop :=
  nodes T' = nodes T /\ (forall u, adj T' u = adj T u) /\ pred T' = pred T.

End DiGraphSpec.

(** ** Executable checks *)

Fixpoint nodupb (l : list node) : bool :=
  match l with
  | [] => true
  | x :: r => negb (mem x r) && nodupb r
  end.

(** The check of [GraphSpec.wf]. *)
Definition wfb (G : Graph.t) : bool :=
  nodupb (Graph.nodes G) &&
  forallb (fun e =>
             nodupb (map fst (snd e)) &&
             forallb (fun w => mem (fst e) (Graph.neighbors G w))
                     (map fst (snd e)))
          G.

(** The check of [GraphSpec.simple]. *)
Definition simpleb (G : Graph.t) : bool :=
  forallb (fun e => negb (mem (fst e) (map fst (snd e)))) G.

(** The component of the first node has all the nodes. *)
Definition connectedb (G : Graph.t) : bool :=
  match Graph.nodes G with
  | [] => false
  | n :: _ =>
      match Graph.node_connected_component G n with
      | Ok c => length c =? length (Graph.nodes G)
      | Raise _ => false
      end
  end.

(** Without the edge, one end is not in the component of the other. *)
Definition bridgeb (G : Graph.t) (e : node * node * Graph.attrs) : bool :=
  match Graph.remove_edge G (fst (fst e)) (snd (fst e)) with
  | Ok G1 =>
      match Graph.node_connected_component G1 (fst (fst e)) with
      | Ok c => negb (mem (snd (fst e)) c)
      | Raise _ => false
      end
  | Raise _ => false
  end.

(** The check of [GraphSpec.tree]. *)
Definition treeb (G : Graph.t) : bool :=
  wfb G && simpleb G && connectedb G && forallb (bridgeb G) (Graph.edges G).

(** The check of [GraphSpec.path_graph]. *)
Definition pathb (G : Graph.t) : bool :=
  treeb G && forallb (fun e => length (snd e) <=? 2) G.

(** The check of [GraphSpec.same_graph]. *)
Definition same_graphb (G G' : Graph.t) : bool :=
  (if list_eq_dec Z.eq_dec (Graph.nodes G') (Graph.nodes G)
   then true else false) &&
  forallb (fun n =>
             forallb (fun w => mem w (Graph.neighbors G n))
                     (Graph.neighbors G' n) &&
             forallb (fun w => mem w (Graph.neighbors G' n))
                     (Graph.neighbors G n))
          (Graph.nodes G).

(** The directed graph that results from emitting the edges [ds] in order. *)
Definition emit (T : DiGraph.t) (ds : list (node * node)) : DiGraph.t :=
  fold_left (fun T d => DiGraph.add_edge T (fst d) (snd d)) ds T.

(** The orientation of the example graph of the program. *)
Definition T_main : DiGraph.t :=
  Eval vm_compute in
    match LSO G_main with
    | Ok T => T
    | Raise _ => DiGraph.empty
    end.

(** An edge that carries an attribute. *)
Definition G_weighted : Graph.t :=
  [(1%Z, [(2%Z, [("weight"%string, 7%Z)])]);
   (2%Z, [(1%Z, [("weight"%string, 7%Z)])])].

(** The path graphs on 3, 5 and 6 nodes. *)
Definition G_path3 : Graph.t :=
  add_edges_from (add_nodes_from [] [1;2;3]%Z) [(1,2);(2,3)]%Z.

Definition G_path5 : Graph.t :=
  add_edges_from (add_nodes_from [] [1;2;3;4;5]%Z)
    [(1,2);(2,3);(3,4);(4,5)]%Z.

Definition G_path6 : Graph.t :=
  add_edges_from (add_nodes_from [] [1;2;3;4;5;6]%Z)
    [(1,2);(2,3);(3,4);(4,5);(5,6)]%Z.

(** ** Invariants and auxiliary notions of the proofs *)

Module Invariants.

(** The invariant of the search [_plain_bfs] from [n] in [G]: [seen] has
    no duplicates, every node at hand is a node of the graph that [n]
    reaches, and a neighbour of a seen node is seen or waits in the rest of
    this level or in the next. *)
Definition bfs_inv (G : Graph.t) (n : node) (seen rest next : list node)
  : Prop :=
  NoDup seen /\
  (forall x, In x seen \/ In x rest \/ In x next ->
             In x (Graph.nodes G) /\ GraphSpec.reach G n x) /\
  (forall x y, In x seen -> In y (Graph.neighbors G x) ->
               In y seen \/ In y rest \/ In y next).

(** The unordered pair of the ends of an edge. *)
Definition upair (e : node * node) : node * node :=
  (Z.min (fst e) (snd e), Z.max (fst e) (snd e)).

(** [c] lists, each once, the nodes on the side of [x] of the edge between
    [u] and [v]. *)
Definition side (G : Graph.t) (u v x : node) (c : list node) : Prop :=
  NoDup c /\ forall w, In w c <-> GraphSpec.reach_without G u v x w.

(** What holds of a state of the depth-first search of [T] from [source]:
    the visited nodes are nodes of the graph, each once, and they are the
    nodes of the tree built from the tree edges, in the order of their
    discovery. *)
Definition dfs_inv (T : DiGraph.t) (source : node) (s : DiGraph.dfs_state)
  : Prop :=
  NoDup (DiGraph.visited s) /\
  incl (DiGraph.visited s) (DiGraph.nodes T) /\
  DiGraph.nodes (emit (DiGraph.add_node DiGraph.empty source)
                      (DiGraph.tree_edges s))
  = rev (DiGraph.visited s).

(** What a part of the search that starts in [s] and ends in [s'] has
    done: it has visited the nodes [new], all of them descendants of [u],
    and every successor of a node of [new] is visited at the end. *)
Definition dfs_done (T : DiGraph.t) (source u : node)
  (s s' : DiGraph.dfs_state) (new : list node) : Prop :=
  DiGraph.visited s' = new ++ DiGraph.visited s /\
  dfs_inv T source s' /\
  (forall x, In x new -> DiGraphSpec.reach T u x) /\
  (forall x y, In x new -> In y (DiGraph.adj T x) ->
               In y (DiGraph.visited s')).

(** The step of the loop over the successors of [u] in [dfs_visit]. *)
Definition visit_child (T : DiGraph.t) (depth : nat) (u : node)
  (s : DiGraph.dfs_state) (c : node) : DiGraph.dfs_state :=
  if mem c (DiGraph.visited s) then s
  else DiGraph.dfs_visit depth T
         (DiGraph.mk_dfs (c :: DiGraph.visited s) (DiGraph.finished s)
                         (DiGraph.tree_edges s ++ [(u, c)])) c.

(** What [dfs_visit] achieves with a depth that exceeds the number of
    nodes not yet visited. *)
Definition visit_ok (T : DiGraph.t) (source : node) (depth : nat) : Prop :=
  forall s u,
    dfs_inv T source s -> In u (DiGraph.visited s) ->
    unseen (DiGraph.nodes T) (DiGraph.visited s) < depth ->
    exists new,
      dfs_done T source u s (DiGraph.dfs_visit depth T s u) new /\
      Permutation (DiGraph.finished (DiGraph.dfs_visit depth T s u))
                  (u :: new ++ DiGraph.finished s) /\
      forall y, In y (DiGraph.adj T u) ->
                In y (DiGraph.visited (DiGraph.dfs_visit depth T s u)).

(** [labels.append(k)] and [tiles.append(tile)] under their guards. *)
Definition add_nat (k : nat) (l : list nat) : list nat :=
  if mem_nat k l then l else l ++ [k].

Definition add_tile (tile : list nat) (l : list (list nat)) : list (list nat) :=
  if mem_tile tile l then l else l ++ [tile].

(** The size and the tile of a node, as values. *)
Definition size_of (T : DiGraph.t) (x : node) : nat :=
  match subtree_size T x with Ok k => k | Raise _ => 0 end.

Definition sig_of (T : DiGraph.t) (x : node) : list nat :=
  match tile_of T x with Ok tile => tile | Raise _ => [] end.

(** [y] lies on a cycle: it reaches one of its predecessors. *)
Definition on_cycle (T : DiGraph.t) (y : node) : Prop :=
  exists z, In y (DiGraph.adj T z) /\ DiGraphSpec.reach T y z.

(** A leaf for the first loop of [alg3]: no successor and one
    predecessor. *)
Definition leafb (T : DiGraph.t) (x : node) : bool :=
  (DiGraph.out_degree T x =? 0) && (DiGraph.in_degree T x =? 1).

(** [y] is the head of an edge. *)
Definition has_parent (T : DiGraph.t) (y : node) : Prop :=
  exists b, In y (DiGraph.adj T b).

(** A node is ready for the topological sort once its predecessors are
    done. *)
Definition ready (T : DiGraph.t) (done : list node) (x : node) : bool :=
  forallb (fun p => mem p done) (DiGraph.preds T x).

(** Every node of the list comes after its predecessors. *)
Definition preds_first (T : DiGraph.t) (l : list node) : Prop :=
  forall l1 x l2,
    l = l1 ++ x :: l2 -> forall p, In p (DiGraph.preds T x) -> In p l1.

(** A directed graph without cycle. *)
Definition acyclic (T : DiGraph.t) : Prop := forall y, ~ on_cycle T y.

(** The position of a node in a list of nodes. *)
Fixpoint rank (l : list node) (x : node) : nat :=
  match l with
  | [] => 0
  | y :: r => if Z.eqb y x then 0 else S (rank r x)
  end.

(** [chain T x l]: the list [l] is a directed walk that ends in [x]. *)
Inductive chain (T : DiGraph.t) (x : node) : list node -> Prop :=
| chain_one : chain T x [x]
| chain_cons (p y : node) (l : list node) :
    chain T x (y :: l) -> In y (DiGraph.adj T p) -> chain T x (p :: y :: l).

(** [G.adj[a].get(b)], the attribute dictionary of the edge from [a] to
    [b], if there is one. *)
Definition edge_attr (G : Graph.t) (a b : node) : option Graph.attrs :=
  match Graph.adj G a with
  | Some nb => Graph.get nb b
  | None => None
  end.

(** The largest entry of a tile, and 1 for the empty tile. *)
Definition top (tile : list nat) : nat := fold_left Nat.max tile 1.

(** No edge of the directed graph has a label. *)
Definition no_labels (T : DiGraph.t) : Prop :=
  forall a b d, DiGraph.edge_data T a b = Ok d -> d = None.

(** What holds of the labels of the edges during the loops of [alg3]:
    every label is between 1 and the counter, and a label above 1 is on
    the edge into one node only. *)
Definition labels_ok (T : DiGraph.t) (j : nat) : Prop :=
  (forall a b k, DiGraph.edge_data T a b = Ok (Some k) -> 1 <= k <= j) /\
  (forall a b a' b' k,
      2 <= k ->
      DiGraph.edge_data T a b = Ok (Some k) ->
      DiGraph.edge_data T a' b' = Ok (Some k) -> b = b').

End Invariants.

(** * Properties *)

(** ** Lists used as sets *)

Lemma mem_In (x : node) (l : list node) : mem x l = true <-> In x l.
Proof.
  unfold mem. rewrite existsb_exists. split.
  - intros [y [Hy He]]. apply Z.eqb_eq in He. now subst.
  - intros H. exists x. split; [assumption | apply Z.eqb_refl].
Qed.

Lemma mem_false (x : node) (l : list node) : mem x l = false <-> ~ In x l.
Proof.
  rewrite <- mem_In. destruct (mem x l); split; intros; congruence.
Qed.

Lemma unseen_le (univ s1 s2 : list node) :
  incl s1 s2 -> unseen univ s2 <= unseen univ s1.
Proof.
  intros Hi. unfold unseen. induction univ as [|a univ IH]; [simpl; lia|].
  cbn [filter].
  destruct (mem a s2) eqn:E2; destruct (mem a s1) eqn:E1;
    cbn [negb length]; try lia.
  apply mem_In in E1. apply Hi in E1. apply mem_false in E2. contradiction.
Qed.

Lemma unseen_lt (univ s : list node) (x : node) :
  In x univ -> ~ In x s -> unseen univ (x :: s) < unseen univ s.
Proof.
  intros Hx Hn. unfold unseen.
  induction univ as [|a univ IH]; [contradiction|].
  assert (Hle : length (filter (fun y => negb (mem y (x :: s))) univ)
                <= length (filter (fun y => negb (mem y s)) univ)).
  { apply (unseen_le univ s (x :: s)). intros y Hy. now right. }
  cbn [filter].
  destruct (Z.eq_dec a x) as [-> |Hax].
  - replace (mem x (x :: s)) with true
      by (symmetry; apply mem_In; now left).
    replace (mem x s) with false by (symmetry; now apply mem_false).
    cbn [negb length]. lia.
  - destruct Hx as [Hx|Hx]; [congruence|]. specialize (IH Hx).
    assert (Hm : mem a (x :: s) = mem a s).
    { unfold mem. cbn [existsb].
      destruct (Z.eqb a x) eqn:E; [apply Z.eqb_eq in E; congruence|].
      reflexivity. }
    rewrite Hm. destruct (mem a s); cbn [negb length]; lia.
Qed.

(** Two duplicate-free lists with the same elements have the same length. *)
Lemma NoDup_same_length (l1 l2 : list node) :
  NoDup l1 -> NoDup l2 -> (forall x, In x l1 <-> In x l2) ->
  length l1 = length l2.
Proof.
  intros H1 H2 H. apply Permutation_length. now apply NoDup_Permutation.
Qed.

(** ** The adjacency dictionary *)

Module GraphFacts.
Import Graph GraphSpec.

Lemma adj_In_nodes G u nb : adj G u = Some nb -> In u (nodes G).
Proof.
  induction G as [|[n l] G IH]; simpl; [discriminate|].
  destruct (Z.eqb n u) eqn:E.
  - apply Z.eqb_eq in E. now left.
  - intros H. right. now apply IH.
Qed.

Lemma In_nodes_adj G u : In u (nodes G) -> exists nb, adj G u = Some nb.
Proof.
  induction G as [|[n l] G IH]; simpl; [contradiction|].
  destruct (Z.eqb n u) eqn:E; [now eexists|].
  intros [-> |H]; [rewrite Z.eqb_refl in E; discriminate | now apply IH].
Qed.

Lemma adj_In G u nb : adj G u = Some nb -> In (u, nb) G.
Proof.
  induction G as [|[n l] G IH]; simpl; [discriminate|].
  destruct (Z.eqb n u) eqn:E.
  - apply Z.eqb_eq in E. intros [= ->]. subst. now left.
  - intros H. right. now apply IH.
Qed.

Lemma In_adj G u nb : NoDup (nodes G) -> In (u, nb) G -> adj G u = Some nb.
Proof.
  induction G as [|[n l] G IH]; simpl; [contradiction|].
  intros Hnd [[= -> ->]|H].
  - now rewrite Z.eqb_refl.
  - inversion Hnd as [|? ? Hn Hnd']; subst.
    destruct (Z.eqb n u) eqn:E.
    + apply Z.eqb_eq in E. subst. exfalso. apply Hn.
      change u with (fst (u, nb)). now apply in_map.
    + now apply IH.
Qed.

Lemma nodes_upd G u f : nodes (upd G u f) = nodes G.
Proof.
  induction G as [|[n l] G IH]; simpl; [reflexivity|].
  destruct (Z.eqb n u); simpl; [reflexivity|]. now rewrite IH.
Qed.

Lemma adj_upd G u f x :
  adj (upd G u f) x
  = if Z.eqb x u then option_map f (adj G u) else adj G x.
Proof.
  induction G as [|[n l] G IH]; simpl.
  - now destruct (Z.eqb x u).
  - destruct (Z.eqb n u) eqn:Enu; simpl.
    + apply Z.eqb_eq in Enu. subst n.
      destruct (Z.eqb x u) eqn:Exu.
      * apply Z.eqb_eq in Exu. subst x. now rewrite Z.eqb_refl.
      * rewrite Z.eqb_sym, Exu. reflexivity.
    + destruct (Z.eqb n x) eqn:Enx.
      * apply Z.eqb_eq in Enx. subst n. now rewrite Enu.
      * apply IH.
Qed.

Lemma get_Some_In nb v d : get nb v = Some d -> In v (map fst nb).
Proof.
  induction nb as [|[w d'] r IH]; simpl; [discriminate|].
  destruct (Z.eqb w v) eqn:E.
  - apply Z.eqb_eq in E. now left.
  - intros H. right. now apply IH.
Qed.

Lemma In_get nb v : In v (map fst nb) -> exists d, get nb v = Some d.
Proof.
  induction nb as [|[w d'] r IH]; simpl; [contradiction|].
  destruct (Z.eqb w v) eqn:E; [now eexists|].
  intros [-> |H]; [rewrite Z.eqb_refl in E; discriminate | now apply IH].
Qed.

Lemma In_del nb v w :
  NoDup (map fst nb) ->
  (In w (map fst (del nb v)) <-> In w (map fst nb) /\ w <> v).
Proof.
  induction nb as [|[x d] r IH]; simpl; [tauto|].
  intros Hnd. inversion Hnd as [|? ? Hx Hnd']; subst.
  destruct (Z.eqb x v) eqn:E.
  - apply Z.eqb_eq in E. subst x. split.
    + intros H. split; [now right|]. intros ->. contradiction.
    + intros [[-> |H] Hne]; [congruence | assumption].
  - apply Z.eqb_neq in E. simpl. rewrite (IH Hnd'). split.
    + intros [-> |[H Hne]]; [split; [now left | assumption] | tauto].
    + intros [[-> |H] Hne]; [now left | tauto].
Qed.

Lemma NoDup_del nb v : NoDup (map fst nb) -> NoDup (map fst (del nb v)).
Proof.
  induction nb as [|[x d] r IH]; simpl; [trivial|].
  intros Hnd. inversion Hnd as [|? ? Hx Hnd']; subst.
  destruct (Z.eqb x v); [assumption|]. simpl. constructor.
  - rewrite (In_del r v x Hnd'). tauto.
  - now apply IH.
Qed.

Lemma In_set nb v d w :
  In w (map fst (set nb v d)) <-> In w (map fst nb) \/ w = v.
Proof.
  induction nb as [|[x d'] r IH]; simpl.
  - split; [intros [-> |[]]; now right | intros [[]| ->]; now left].
  - destruct (Z.eqb x v) eqn:E; simpl.
    + apply Z.eqb_eq in E. subst x. split; [tauto|].
      intros [H| ->]; [assumption | now left].
    + rewrite IH. tauto.
Qed.

Lemma NoDup_set nb v d : NoDup (map fst nb) -> NoDup (map fst (set nb v d)).
Proof.
  induction nb as [|[x d'] r IH]; simpl.
  - intros _. constructor; [intros [] | constructor].
  - intros Hnd. inversion Hnd as [|? ? Hx Hnd']; subst.
    destruct (Z.eqb x v) eqn:E; simpl; [now constructor|].
    apply Z.eqb_neq in E. constructor; [|now apply IH].
    rewrite In_set. intros [H| ->]; [contradiction | congruence].
Qed.

Lemma neighbors_In_nodes G u v : In v (neighbors G u) -> In u (nodes G).
Proof.
  unfold neighbors. destruct (adj G u) eqn:E; [|contradiction].
  intros _. eapply adj_In_nodes; eassumption.
Qed.

Lemma wf_closed G u v : wf G -> In v (neighbors G u) -> In v (nodes G).
Proof.
  intros Hwf H. apply (wf_sym G Hwf) in H.
  eapply neighbors_In_nodes; eassumption.
Qed.

Lemma neighbors_upd G u f x :
  neighbors (upd G u f) x
  = if Z.eqb x u
    then match adj G u with Some nb => map fst (f nb) | None => [] end
    else neighbors G x.
Proof.
  unfold neighbors. rewrite adj_upd.
  destruct (Z.eqb x u); [|reflexivity]. now destruct (adj G u).
Qed.

Lemma same_graph_refl G : same_graph G G.
Proof. split; [reflexivity | tauto]. Qed.

Lemma keys_ok_upd G u f :
  keys_ok G ->
  (forall nb, NoDup (map fst nb) -> NoDup (map fst (f nb))) ->
  keys_ok (upd G u f).
Proof.
  intros HG Hf x nb. rewrite adj_upd. destruct (Z.eqb x u).
  - destruct (adj G u) as [nb0|] eqn:E; simpl; [|discriminate].
    intros [= <-]. apply Hf. eapply HG; eassumption.
  - apply HG.
Qed.

Lemma neighbors_upd_del G u v a b :
  keys_ok G ->
  (In b (neighbors (upd G u (fun nb => del nb v)) a)
   <-> In b (neighbors G a) /\ ~ (a = u /\ b = v)).
Proof.
  intros HG. rewrite neighbors_upd. destruct (Z.eqb a u) eqn:E.
  - apply Z.eqb_eq in E. subst a. unfold neighbors.
    destruct (adj G u) as [nb|] eqn:Eu; [|simpl; tauto].
    rewrite (In_del nb v b (HG _ _ Eu)). tauto.
  - apply Z.eqb_neq in E. tauto.
Qed.

Lemma neighbors_upd_set G u v d a b :
  In u (nodes G) ->
  (In b (neighbors (upd G u (fun nb => set nb v d)) a)
   <-> In b (neighbors G a) \/ (a = u /\ b = v)).
Proof.
  intros Hu. rewrite neighbors_upd. destruct (Z.eqb a u) eqn:E.
  - apply Z.eqb_eq in E. subst a. unfold neighbors.
    destruct (In_nodes_adj G u Hu) as [nb Eu]. rewrite Eu.
    rewrite In_set. tauto.
  - apply Z.eqb_neq in E. tauto.
Qed.

(** *** [remove_edge] *)

Lemma remove_edge_ok G u v :
  wf G -> In v (neighbors G u) -> exists G', remove_edge G u v = Ok G'.
Proof.
  intros Hwf Huv. pose proof (wf_sym G Hwf u v Huv) as Hvu.
  unfold remove_edge. unfold neighbors in Huv.
  destruct (adj G u) as [nb|] eqn:Eu; [|contradiction].
  destruct (In_get nb v Huv) as [d ->].
  destruct (Z.eqb u v) eqn:E; [now eexists|].
  rewrite adj_upd. rewrite Z.eqb_sym, E.
  unfold neighbors in Hvu.
  destruct (adj G v) as [nb'|] eqn:Ev; [|contradiction].
  destruct (In_get nb' u Hvu) as [d' ->]. now eexists.
Qed.

Lemma remove_edge_shape G u v G' :
  remove_edge G u v = Ok G' ->
  G' = (if Z.eqb u v then upd G u (fun nb => del nb v)
        else upd (upd G u (fun nb => del nb v)) v (fun nb => del nb u))
  /\ In v (neighbors G u).
Proof.
  unfold remove_edge, neighbors.
  destruct (adj G u) as [nb|] eqn:Eu; [|discriminate].
  destruct (get nb v) as [d|] eqn:Eg; [|discriminate].
  apply get_Some_In in Eg.
  destruct (Z.eqb u v); [intros [= <-]; now split|].
  destruct (adj _ v) as [nb'|]; [|discriminate].
  destruct (get nb' u); [|discriminate].
  intros [= <-]. now split.
Qed.

Lemma remove_edge_nodes G u v G' :
  remove_edge G u v = Ok G' -> nodes G' = nodes G.
Proof.
  intros H. apply remove_edge_shape in H. destruct H as [-> _].
  destruct (Z.eqb u v); now rewrite ?nodes_upd.
Qed.

Lemma remove_edge_keys G u v G' :
  keys_ok G -> remove_edge G u v = Ok G' -> keys_ok G'.
Proof.
  intros HG H. apply remove_edge_shape in H. destruct H as [-> _].
  destruct (Z.eqb u v); repeat apply keys_ok_upd; trivial;
    intros nb; apply NoDup_del.
Qed.

(** The edges after [remove_edge(u, v)] are the edges before without
    the edge between [u] and [v]. *)
Lemma remove_edge_neighbors G u v G' a b :
  keys_ok G -> remove_edge G u v = Ok G' ->
  (In b (neighbors G' a)
   <-> In b (neighbors G a) /\ ~ (a = u /\ b = v) /\ ~ (a = v /\ b = u)).
Proof.
  intros HG H. apply remove_edge_shape in H. destruct H as [-> _].
  destruct (Z.eqb u v) eqn:E.
  - apply Z.eqb_eq in E. subst v. rewrite neighbors_upd_del by assumption.
    tauto.
  - rewrite neighbors_upd_del.
    + rewrite neighbors_upd_del by assumption. tauto.
    + apply keys_ok_upd; [assumption | intros nb; apply NoDup_del].
Qed.

Lemma remove_edge_wf G u v G' :
  wf G -> remove_edge G u v = Ok G' -> wf G'.
Proof.
  intros Hwf H. pose proof (wf_keys G Hwf) as HK. constructor.
  - rewrite (remove_edge_nodes _ _ _ _ H). apply Hwf.
  - eapply remove_edge_keys; eassumption.
  - intros a b. rewrite !(remove_edge_neighbors G u v G') by assumption.
    intros [Hab [H1 H2]]. split; [now apply (wf_sym G Hwf)|]. tauto.
Qed.

(** *** [add_edge] *)

Lemma add_node_In G u : In u (nodes G) -> add_node G u = G.
Proof. unfold add_node. intros H. apply mem_In in H. now rewrite H. Qed.

Lemma add_edge_shape G u v :
  In u (nodes G) -> In v (nodes G) ->
  exists d, add_edge G u v
            = upd (upd G u (fun nb => set nb v d)) v (fun nb => set nb u d).
Proof.
  intros Hu Hv. unfold add_edge. rewrite (add_node_In G u Hu).
  rewrite (add_node_In G v Hv). eexists. reflexivity.
Qed.

Lemma add_edge_nodes G u v :
  In u (nodes G) -> In v (nodes G) -> nodes (add_edge G u v) = nodes G.
Proof.
  intros Hu Hv. destruct (add_edge_shape G u v Hu Hv) as [d ->].
  now rewrite !nodes_upd.
Qed.

Lemma add_edge_keys G u v :
  In u (nodes G) -> In v (nodes G) -> keys_ok G -> keys_ok (add_edge G u v).
Proof.
  intros Hu Hv HG. destruct (add_edge_shape G u v Hu Hv) as [d ->].
  repeat apply keys_ok_upd; trivial; intros nb; apply NoDup_set.
Qed.

(** The edges after [add_edge(u, v)] are the edges before and the edge
    between [u] and [v]. *)
Lemma add_edge_neighbors G u v a b :
  In u (nodes G) -> In v (nodes G) ->
  (In b (neighbors (add_edge G u v) a)
   <-> In b (neighbors G a) \/ (a = u /\ b = v) \/ (a = v /\ b = u)).
Proof.
  intros Hu Hv. destruct (add_edge_shape G u v Hu Hv) as [d ->].
  rewrite neighbors_upd_set by (now rewrite nodes_upd).
  rewrite neighbors_upd_set by assumption. tauto.
Qed.

Lemma add_edge_wf G u v :
  In u (nodes G) -> In v (nodes G) -> wf G -> wf (add_edge G u v).
Proof.
  intros Hu Hv Hwf. constructor.
  - rewrite add_edge_nodes by assumption. apply Hwf.
  - apply add_edge_keys; trivial. exact (wf_keys G Hwf).
  - intros a b. rewrite !add_edge_neighbors by assumption.
    intros [H|H]; [left; now apply (wf_sym G Hwf) | tauto].
Qed.

(** Removing an edge and adding it again gives back the same nodes and
    the same edges. *)
Lemma remove_add_same G u v G1 :
  wf G -> remove_edge G u v = Ok G1 ->
  wf (add_edge G1 u v) /\ same_graph G (add_edge G1 u v).
Proof.
  intros Hwf H. pose proof (remove_edge_shape _ _ _ _ H) as [_ Huv].
  pose proof (remove_edge_nodes _ _ _ _ H) as Hn.
  pose proof (remove_edge_wf _ _ _ _ Hwf H) as Hwf1.
  assert (Hu : In u (nodes G1)).
  { rewrite Hn. eapply neighbors_In_nodes; eassumption. }
  assert (Hv : In v (nodes G1)).
  { rewrite Hn. eapply wf_closed; eassumption. }
  split; [now apply add_edge_wf|]. split.
  - now rewrite add_edge_nodes.
  - intros a b. rewrite add_edge_neighbors by assumption.
    rewrite (remove_edge_neighbors G u v G1)
      by (trivial; exact (wf_keys G Hwf)).
    pose proof (wf_sym G Hwf u v Huv) as Hvu.
    destruct (Z.eq_dec a u) as [Hau|Hau];
      destruct (Z.eq_dec b v) as [Hbv|Hbv];
      destruct (Z.eq_dec a v) as [Hav|Hav];
      destruct (Z.eq_dec b u) as [Hbu|Hbu];
      subst; tauto.
Qed.

End GraphFacts.

(** ** Connected components: [_plain_bfs] computes reachability *)

Module ComponentFacts.
Import Graph GraphSpec GraphFacts Invariants.

Lemma next_level_In (ws nx : list node) (y : node) :
  In y (fold_left (fun nx w => if mem w nx then nx else nx ++ [w]) ws nx)
  <-> In y nx \/ In y ws.
Proof.
  revert nx. induction ws as [|w ws IH]; intros nx; simpl; [tauto|].
  rewrite IH. destruct (mem w nx) eqn:E.
  - apply mem_In in E. split; [tauto|]. intros [H|[<- |H]]; tauto.
  - rewrite in_app_iff. simpl. tauto.
Qed.

Lemma unseen_bound (univ s : list node) : unseen univ s <= length univ.
Proof. unfold unseen. apply filter_length_le. Qed.

Lemma plain_bfs_nil fuel G seen : plain_bfs fuel G seen [] = seen.
Proof. now destruct fuel. Qed.

Section Search.

Variable G : t.
Variable n : node.
Hypothesis Hwf : wf G.

Lemma bfs_round (level : list node) (st : list node * list node) :
  bfs_inv G n (fst st) level (snd st) ->
  let st' := fold_left (bfs_visit G) level st in
  bfs_inv G n (fst st') [] (snd st') /\
  incl (fst st) (fst st') /\
  incl level (fst st') /\
  (st' = st \/ unseen (nodes G) (fst st') < unseen (nodes G) (fst st)).
Proof.
  cbv zeta. revert st.
  induction level as [|v level IH]; intros [seen next] Hinv.
  - cbn [fold_left fst snd] in *. split; [exact Hinv|].
    split; [apply incl_refl|]. split; [intros x [] | now left].
  - cbn [fold_left].
    replace (bfs_visit G (seen, next) v)
      with (if mem v seen then (seen, next)
            else (v :: seen,
                  fold_left (fun nx w => if mem w nx then nx else nx ++ [w])
                            (neighbors G v) next)) by reflexivity.
    cbn [fst snd] in *. destruct Hinv as [Hnd [Hin Hcl]].
    destruct (mem v seen) eqn:Ev.
    + apply mem_In in Ev.
      assert (Hinv' : bfs_inv G n (fst (seen, next)) level (snd (seen, next))).
      { cbn [fst snd]. split; [assumption|]. split.
        - intros x Hx. apply Hin. simpl. tauto.
        - intros x y Hx Hy.
          destruct (Hcl x y Hx Hy) as [H|[[<- |H]|H]]; tauto. }
      destruct (IH _ Hinv') as [H1 [H2 [H3 H4]]]. cbn [fst snd] in *.
      split; [exact H1|]. split; [exact H2|]. split; [|exact H4].
      intros x [<- |Hx]; [now apply H2 | now apply H3].
    + apply mem_false in Ev.
      set (next' := fold_left (fun nx w => if mem w nx then nx else nx ++ [w])
                              (neighbors G v) next).
      assert (Hv : In v (nodes G) /\ reach G n v).
      { apply Hin. simpl. tauto. }
      assert (Hinv' : bfs_inv G n (fst (v :: seen, next')) level
                              (snd (v :: seen, next'))).
      { cbn [fst snd]. split; [now constructor|]. split.
        - intros x [[<- |Hx]|[Hx|Hx]]; trivial; try (apply Hin; simpl; tauto).
          apply next_level_In in Hx. destruct Hx as [Hx|Hx].
          + apply Hin. tauto.
          + split; [eapply wf_closed; eassumption|].
            eapply reach_step; [apply Hv | assumption].
        - intros x y [<- |Hx] Hy.
          + right. right. apply next_level_In. now right.
          + destruct (Hcl x y Hx Hy) as [H|[[<- |H]|H]].
            * left. now right.
            * left. now left.
            * tauto.
            * right. right. apply next_level_In. now left. }
      destruct (IH _ Hinv') as [H1 [H2 [H3 H4]]]. cbn [fst snd] in *.
      split; [exact H1|]. split; [|split].
      * intros x Hx. apply H2. now right.
      * intros x [<- |Hx]; [apply H2; now left | now apply H3].
      * right. pose proof (unseen_lt (nodes G) seen v (proj1 Hv) Ev) as Hlt.
        destruct H4 as [-> |H4]; cbn [fst]; lia.
Qed.

Lemma bfs_inv_next (seen next : list node) :
  bfs_inv G n seen [] next -> bfs_inv G n seen next [].
Proof.
  intros [Hnd [Hin Hcl]]. split; [assumption|]. split.
  - intros x Hx. apply Hin. tauto.
  - intros x y Hx Hy. destruct (Hcl x y Hx Hy) as [H|[[]|H]]; tauto.
Qed.

Lemma bfs_inv_done (seen : list node) :
  bfs_inv G n seen [] [] ->
  NoDup seen /\
  (forall x, In x seen -> reach G n x) /\
  (forall x y, In x seen -> In y (neighbors G x) -> In y seen).
Proof.
  intros [Hnd [Hin Hcl]]. repeat split; trivial.
  - intros x Hx. apply Hin. now left.
  - intros x y Hx Hy. destruct (Hcl x y Hx Hy) as [H|[[]|[]]]. assumption.
Qed.

Lemma plain_bfs_spec (fuel : nat) (seen level : list node) :
  bfs_inv G n seen level [] ->
  unseen (nodes G) seen < fuel ->
  let R := plain_bfs fuel G seen level in
  (NoDup R /\
   (forall x, In x R -> reach G n x) /\
   (forall x y, In x R -> In y (neighbors G x) -> In y R)) /\
  incl seen R /\ incl level R.
Proof.
  revert seen level. induction fuel as [|fuel IH]; intros seen level Hinv Hf;
    [lia|].
  destruct level as [|v level].
  - simpl. split; [now apply bfs_inv_done|].
    split; [apply incl_refl | intros x []].
  - cbn [plain_bfs].
    assert (Hinv0 : bfs_inv G n (fst (seen, @nil node)) (v :: level)
                            (snd (seen, @nil node))) by exact Hinv.
    destruct (bfs_round (v :: level) (seen, []) Hinv0) as [H1 [H2 [H3 H4]]].
    cbn [fst snd] in H2, H4. apply bfs_inv_next in H1.
    destruct H4 as [H4|H4].
    + rewrite H4 in *. cbn [fst snd] in *. rewrite plain_bfs_nil.
      split; [now apply bfs_inv_done|]. split; [apply incl_refl | assumption].
    + match type of H4 with
      | unseen _ (fst ?s) < _ => set (st' := s) in *
      end.
      assert (Hf' : unseen (nodes G) (fst st') < fuel) by lia.
      destruct (IH _ _ H1 Hf') as [R1 [R2 R3]].
      split; [assumption|]. split.
      * intros x Hx. apply R2. now apply H2.
      * intros x Hx. apply R2. now apply H3.
Qed.

End Search.

(** [node_connected_component] returns, without duplicates, exactly the
    nodes that the given node reaches. *)
Lemma node_connected_component_spec (G : t) (n : node) :
  wf G -> In n (nodes G) ->
  exists c, node_connected_component G n = Ok c /\
            NoDup c /\ forall x, In x c <-> reach G n x.
Proof.
  intros Hwf Hn. unfold node_connected_component.
  pose proof Hn as Hm. apply mem_In in Hm. rewrite Hm.
  eexists. split; [reflexivity|].
  assert (Hinv : bfs_inv G n [] [n] []).
  { split; [constructor|]. split.
    - intros x [[]|[[<- |[]]|[]]]. split; [assumption | constructor].
    - intros x y []. }
  assert (Hf : unseen (nodes G) [] < S (length (nodes G))).
  { pose proof (unseen_bound (nodes G) []). lia. }
  destruct (plain_bfs_spec G n Hwf _ _ _ Hinv Hf) as [[R1 [R2 R3]] [_ R4]].
  split; [assumption|]. intros x. split; [apply R2|].
  induction 1 as [|b c Hb IHb Hc].
  - apply R4. now left.
  - eapply R3; eassumption.
Qed.

End ComponentFacts.

(** ** The loop of the orienter *)

Module LSOFacts.
Import Graph GraphSpec GraphFacts ComponentFacts.

Lemma same_graph_trans G1 G2 G3 :
  same_graph G1 G2 -> same_graph G2 G3 -> same_graph G1 G3.
Proof.
  intros [N1 E1] [N2 E2]. split; [congruence|].
  intros a b. rewrite E2. apply E1.
Qed.

Lemma edges_from_In G seen G' u v a :
  (forall n nb, In (n, nb) G' -> adj G n = Some nb) ->
  In (u, v, a) (edges_from seen G') -> In v (neighbors G u).
Proof.
  revert seen. induction G' as [|[n nb] G' IH]; intros seen Hadj; simpl;
    [contradiction|].
  rewrite in_app_iff. intros [H|H].
  - apply in_map_iff in H. destruct H as [[w d] [[= -> -> ->] Hw]].
    apply filter_In in Hw. destruct Hw as [Hw _].
    unfold neighbors. rewrite (Hadj u nb) by now left.
    change v with (fst (v, a)). now apply in_map.
  - apply (IH (n :: seen)); [|assumption].
    intros m l Hm. apply Hadj. now right.
Qed.

(** Every enumerated edge is an edge of the graph. *)
Lemma edges_In G u v a :
  wf G -> In (u, v, a) (edges G) -> In v (neighbors G u).
Proof.
  intros Hwf. apply edges_from_In.
  intros n nb. apply In_adj. apply Hwf.
Qed.

(** One iteration: the edge is removed, the two components are measured,
    a directed edge is emitted by the rule, and the edge is put back. *)
Lemma LSO_step_spec G0 G T u v a :
  wf G -> same_graph G0 G -> In v (neighbors G0 u) ->
  exists G' d,
    LSO_step (G, T) (u, v, a) = Ok (G', DiGraph.add_edge T (fst d) (snd d)) /\
    oriented G0 (u, v, a) d /\ wf G' /\ same_graph G0 G'.
Proof.
  intros Hwf [HN HE] Huv. apply HE in Huv.
  destruct (remove_edge_ok G u v Hwf Huv) as [G1 H1].
  pose proof (remove_edge_wf _ _ _ _ Hwf H1) as Hwf1.
  pose proof (remove_edge_nodes _ _ _ _ H1) as HN1.
  assert (Hu : In u (nodes G1)).
  { rewrite HN1. eapply neighbors_In_nodes; eassumption. }
  assert (Hv : In v (nodes G1)).
  { rewrite HN1. eapply wf_closed; eassumption. }
  destruct (node_connected_component_spec G1 u Hwf1 Hu) as [c1 [E1 C1]].
  destruct (node_connected_component_spec G1 v Hwf1 Hv) as [c2 [E2 C2]].
  destruct (remove_add_same G u v G1 Hwf H1) as [Hwf' Hsame].
  exists (add_edge G1 u v).
  exists (if length c1 <? length c2 then (v, u) else (u, v)).
  split; [|split; [|split]].
  - unfold LSO_step. rewrite H1. cbn [bind]. rewrite E1. cbn [bind].
    rewrite E2. cbn [bind]. now destruct (length c1 <? length c2).
  - exists G1, c1, c2. split; [|split; [exact C1 | split; [exact C2|reflexivity]]].
    split; [congruence|]. intros x y.
    rewrite (remove_edge_neighbors G u v G1)
      by (trivial; exact (wf_keys G Hwf)).
    now rewrite HE.
  - assumption.
  - eapply same_graph_trans; [split; eassumption | assumption].
Qed.

(** The whole loop over a list of edges of the graph. *)
Lemma LSO_loop_spec G0 es :
  (forall u v a, In (u, v, a) es -> In v (neighbors G0 u)) ->
  forall G T, wf G -> same_graph G0 G ->
  exists G' ds,
    foldM LSO_step es (G, T) = Ok (G', emit T ds) /\
    Forall2 (oriented G0) es ds /\ wf G' /\ same_graph G0 G' /\
    length (foldM_states LSO_step es (G, T)) = length es /\
    Forall (fun st => same_graph G0 (fst st))
           (foldM_states LSO_step es (G, T)).
Proof.
  induction es as [|[[u v] a] es IH]; intros Hes G T Hwf Hsame.
  - exists G, []. simpl. split; [reflexivity|]. split; [constructor|].
    split; [assumption|]. split; [assumption|]. split; [reflexivity|].
    constructor.
  - assert (Huv : In v (neighbors G0 u)) by (eapply Hes; now left).
    destruct (LSO_step_spec G0 G T u v a Hwf Hsame Huv)
      as [G1 [d [Hstep [Hd [Hwf1 Hsame1]]]]].
    destruct (IH (fun u v a H => Hes u v a (or_intror H))
                 G1 (DiGraph.add_edge T (fst d) (snd d)) Hwf1 Hsame1)
      as [G' [ds [Hrun [Hds [Hwf' [Hsame' [Hlen Hst]]]]]]].
    exists G', (d :: ds). cbn [foldM foldM_states].
    rewrite Hstep. cbn [bind]. split; [exact Hrun|].
    split; [now constructor|]. split; [assumption|]. split; [assumption|].
    split; [simpl; now rewrite Hlen|]. constructor; assumption.
Qed.

Lemma LSO_run_spec G :
  wf G ->
  exists G' ds,
    LSO_run G = Ok (G', emit (LSO_init G) ds) /\
    Forall2 (oriented G) (edges G) ds /\ wf G' /\ same_graph G G' /\
    length (LSO_states G) = length (edges G) /\
    Forall (fun st => same_graph G (fst st)) (LSO_states G).
Proof.
  intros Hwf. apply LSO_loop_spec; trivial.
  - intros u v a. now apply edges_In.
  - apply same_graph_refl.
Qed.

End LSOFacts.

(** ** Soundness of the executable checks *)

Module CheckFacts.
Import Graph GraphSpec GraphFacts.

Lemma nodupb_NoDup (l : list node) : nodupb l = true -> NoDup l.
Proof.
  induction l as [|x l IH]; simpl; [constructor|].
  intros H. apply andb_true_iff in H. destruct H as [H1 H2].
  constructor; [|now apply IH].
  apply mem_false. now destruct (mem x l).
Qed.

Lemma wfb_wf (G : t) : wfb G = true -> wf G.
Proof.
  unfold wfb. intros H. apply andb_true_iff in H. destruct H as [H1 H2].
  rewrite forallb_forall in H2. constructor.
  - now apply nodupb_NoDup.
  - intros u nb Hu. apply adj_In in Hu. apply H2 in Hu.
    apply andb_true_iff in Hu. apply nodupb_NoDup. apply Hu.
  - intros u v. unfold neighbors at 1.
    destruct (adj G u) as [nb|] eqn:Hu; [|contradiction].
    intros Hv. apply adj_In in Hu. apply H2 in Hu.
    apply andb_true_iff in Hu. destruct Hu as [_ Hu].
    rewrite forallb_forall in Hu. apply mem_In. now apply Hu.
Qed.

End CheckFacts.

(** ** Sizes of components do not depend on the adjacency order *)

Module SizeFacts.
Import Graph GraphSpec GraphFacts.

Lemma reach_same_edges G G' a b :
  (forall x y, In y (neighbors G x) -> In y (neighbors G' x)) ->
  reach G a b -> reach G' a b.
Proof.
  intros HE. induction 1 as [|b c Hb IH Hc]; [constructor|].
  eapply reach_step; [exact IH | now apply HE].
Qed.

Lemma minus_edge_reach G G1 G2 u v a b :
  minus_edge G G1 u v -> minus_edge G G2 u v ->
  reach G1 a b -> reach G2 a b.
Proof.
  intros [_ H1] [_ H2]. apply reach_same_edges.
  intros x y Hy. apply H2. now apply H1.
Qed.

Lemma component_length G G1 G2 u v a c1 c2 :
  minus_edge G G1 u v -> minus_edge G G2 u v ->
  is_component G1 a c1 -> is_component G2 a c2 -> length c1 = length c2.
Proof.
  intros M1 M2 [N1 C1] [N2 C2]. apply NoDup_same_length; trivial.
  intros x. rewrite C1, C2.
  split; eapply minus_edge_reach; eassumption.
Qed.

(** The rule gives the same directed edge whichever way the graph without
    the edge and its components are presented. *)
Lemma oriented_unique G u v a d G1 c1 c2 :
  oriented G (u, v, a) d ->
  minus_edge G G1 u v -> is_component G1 u c1 -> is_component G1 v c2 ->
  d = if length c1 <? length c2 then (v, u) else (u, v).
Proof.
  intros [G0 [k1 [k2 [M0 [K1 [K2 ->]]]]]] M1 C1 C2.
  rewrite (component_length G G0 G1 u v u k1 c1) by assumption.
  now rewrite (component_length G G0 G1 u v v k2 c2) by assumption.
Qed.

End SizeFacts.

(** ** Walks, and the enumeration of the edges *)

Module WalkFacts.
Import Graph GraphSpec GraphFacts Invariants.

Lemma reach_trans G a b c : reach G a b -> reach G b c -> reach G a c.
Proof.
  intros Hab Hbc. induction Hbc as [|c d Hc IH Hd]; [assumption|].
  eapply reach_step; eassumption.
Qed.

Lemma reach_sym G a b : wf G -> reach G a b -> reach G b a.
Proof.
  intros Hwf. induction 1 as [|b c Hb IH Hc]; [constructor|].
  apply (reach_trans G c b a); [|assumption].
  eapply reach_step; [constructor|]. now apply (wf_sym G Hwf).
Qed.

Lemma reach_In_nodes G a b :
  wf G -> In a (nodes G) -> reach G a b -> In b (nodes G).
Proof.
  intros Hwf Ha. induction 1 as [|b c Hb IH Hc]; [assumption|].
  eapply wf_closed; eassumption.
Qed.

Lemma rw_trans G u v a b c :
  reach_without G u v a b -> reach_without G u v b c ->
  reach_without G u v a c.
Proof.
  intros Hab Hbc. induction Hbc as [|c d Hc IH Hd N1 N2]; [assumption|].
  eapply rw_step; eassumption.
Qed.

Lemma rw_sym G u v a b :
  wf G -> reach_without G u v a b -> reach_without G u v b a.
Proof.
  intros Hwf. induction 1 as [|b c Hb IH Hc N1 N2]; [constructor|].
  apply (rw_trans G u v c b a); [|assumption].
  eapply rw_step; [constructor | now apply (wf_sym G Hwf) | tauto | tauto].
Qed.

Lemma rw_swap G u v a b : reach_without G u v a b -> reach_without G v u a b.
Proof.
  induction 1 as [|b c Hb IH Hc N1 N2]; [constructor|].
  eapply rw_step; eassumption.
Qed.

Lemma rw_In_nodes G u v a b :
  wf G -> In a (nodes G) -> reach_without G u v a b -> In b (nodes G).
Proof.
  intros Hwf Ha. induction 1 as [|b c Hb IH Hc]; [assumption|].
  eapply wf_closed; eassumption.
Qed.

(** Walks in the graph without the edge are the walks that avoid it. *)
Lemma minus_edge_reach_without G G1 u v a b :
  minus_edge G G1 u v -> (reach G1 a b <-> reach_without G u v a b).
Proof.
  intros [_ HE]. split.
  - induction 1 as [|b c Hb IH Hc]; [constructor|].
    apply HE in Hc. eapply rw_step; [exact IH | tauto | tauto | tauto].
  - induction 1 as [|b c Hb IH Hc N1 N2]; [constructor|].
    eapply reach_step; [exact IH|]. apply HE. tauto.
Qed.

(** *** Every edge is enumerated, in one direction and once *)

Lemma edges_from_complete G' :
  NoDup (map fst G') ->
  (forall n nb w d, In (n, nb) G' -> In (w, d) nb -> In w (map fst G') ->
                    exists nb' d', In (w, nb') G' /\ In (n, d') nb') ->
  forall seen n nb w d,
    (forall x, In x seen -> ~ In x (map fst G')) ->
    In (n, nb) G' -> In (w, d) nb -> ~ In w seen ->
    In (n, w, d) (edges_from seen G')
    \/ exists d', In (w, n, d') (edges_from seen G').
Proof.
  induction G' as [|[m l] G' IH]; intros Hnd Hsym seen n nb w d Hseen Hn Hw Hws;
    [contradiction|].
  cbn [edges_from]. inversion Hnd as [|? ? Hm Hnd']; subst.
  assert (Hkey : forall x y, In (x, y) G' -> x <> m).
  { intros x y Hxy ->. apply Hm. change m with (fst (m, y)).
    now apply in_map. }
  destruct Hn as [[= -> ->]|Hn].
  - left. apply in_or_app. left.
    apply in_map_iff. exists (w, d). split; [reflexivity|].
    apply filter_In. split; [assumption|]. cbn [fst].
    apply mem_false in Hws. now rewrite Hws.
  - destruct (Z.eq_dec w m) as [-> |Hwm].
    + right.
      destruct (Hsym n nb m d (or_intror Hn) Hw (or_introl eq_refl))
        as [nb' [d' [H1 H2]]].
      destruct H1 as [[= <-]|H1]; [|exfalso; now apply (Hkey m nb')].
      exists d'. apply in_or_app. left.
      apply in_map_iff. exists (n, d'). split; [reflexivity|].
      apply filter_In. split; [assumption|]. cbn [fst].
      assert (Hns : ~ In n seen).
      { intros Hx. apply (Hseen n Hx). right.
        change n with (fst (n, nb)). now apply in_map. }
      apply mem_false in Hns. now rewrite Hns.
    + assert (Hrec : In (n, w, d) (edges_from (m :: seen) G')
                     \/ exists d', In (w, n, d') (edges_from (m :: seen) G')).
      { apply (IH Hnd') with (nb := nb); trivial.
        - intros n0 nb0 w0 d0 H0 H1 H2.
          destruct (Hsym n0 nb0 w0 d0 (or_intror H0) H1 (or_intror H2))
            as [nb' [d' [[[= -> ->]|H3] H4]]].
          + exfalso. apply Hm. exact H2.
          + now exists nb', d'.
        - intros x [<- |Hx]; [exact Hm|].
          intros Hx'. apply (Hseen x Hx). now right.
        - intros [Heq|Hx]; [congruence | contradiction]. }
      destruct Hrec as [H|[d' H]]; [left | right; exists d'];
        apply in_or_app; now right.
Qed.

Lemma edges_complete G a b :
  wf G -> In b (neighbors G a) ->
  exists d, In (a, b, d) (edges G) \/ In (b, a, d) (edges G).
Proof.
  intros Hwf Hab. unfold neighbors in Hab.
  destruct (adj G a) as [nb|] eqn:Ea; [|contradiction].
  apply in_map_iff in Hab. destruct Hab as [[w d] [Hw Hin]].
  cbn [fst] in Hw. subst w.
  destruct (edges_from_complete G (wf_nodes G Hwf)) with
    (seen := @nil node) (n := a) (nb := nb) (w := b) (d := d)
    as [H|[d' H]]; trivial.
  - intros n nb0 w d0 Hn Hw Hk.
    apply In_adj in Hn; [|apply Hwf].
    assert (Hnw : In w (neighbors G n)).
    { unfold neighbors. rewrite Hn. change w with (fst (w, d0)).
      now apply in_map. }
    apply (wf_sym G Hwf) in Hnw. unfold neighbors in Hnw.
    destruct (adj G w) as [nb'|] eqn:Ew; [|contradiction].
    apply in_map_iff in Hnw. destruct Hnw as [[n' d'] [E Hn']].
    cbn [fst] in E. subst n'. exists nb', d'. split; [|assumption].
    now apply adj_In.
  - intros x [].
  - now apply adj_In.
  - intros [].
  - now exists d; left.
  - now exists d'; right.
Qed.

Lemma upair_eq a b c d :
  upair (a, b) = upair (c, d) -> (a = c /\ b = d) \/ (a = d /\ b = c).
Proof. unfold upair. cbn [fst snd]. intros [= H1 H2]. lia. Qed.

Lemma upair_swap a b : upair (a, b) = upair (b, a).
Proof. unfold upair. cbn [fst snd]. f_equal; lia. Qed.

Lemma edges_from_shape seen G' u v a :
  In (u, v, a) (edges_from seen G') -> In u (map fst G') /\ ~ In v seen.
Proof.
  revert seen. induction G' as [|[n nb] G' IH]; intros seen;
    [contradiction|].
  cbn [edges_from]. rewrite in_app_iff. intros [H|H].
  - apply in_map_iff in H. destruct H as [[w d] [[= -> -> ->] Hw]].
    apply filter_In in Hw. destruct Hw as [_ Hw]. cbn [fst] in Hw.
    split; [now left|]. apply mem_false. now destruct (mem v seen).
  - apply IH in H. destruct H as [H1 H2]. split; [now right|].
    intros Hv. apply H2. now right.
Qed.

Lemma edges_from_NoDup seen G' :
  NoDup (map fst G') ->
  (forall n nb, In (n, nb) G' -> NoDup (map fst nb)) ->
  NoDup (map (fun e => upair (fst e)) (edges_from seen G')).
Proof.
  revert seen. induction G' as [|[n nb] G' IH]; intros seen Hnd Hnb;
    [constructor|].
  cbn [edges_from]. rewrite map_app.
  inversion Hnd as [|? ? Hn Hnd']; subst.
  apply NoDup_app.
  - assert (Hl : NoDup (map fst nb)) by (eapply Hnb; now left).
    clear - Hl. induction nb as [|[w d] nb IHnb]; [constructor|].
    inversion Hl as [|? ? Hw Hl']; subst. cbn [filter fst].
    destruct (negb (mem w seen)); [|now apply IHnb].
    cbn [map fst snd]. constructor; [|now apply IHnb].
    intros H. apply in_map_iff in H. destruct H as [[[x y] a] [E H]].
    apply in_map_iff in H. destruct H as [[w' d'] [Heq H]].
    cbn [fst snd] in Heq. injection Heq as <- <- <-.
    apply filter_In in H. destruct H as [H _]. cbn [fst] in E.
    apply upair_eq in E. apply Hw.
    assert (Ew : w' = w) by (destruct E as [[_ E]|[E1 E2]]; congruence).
    subst w'. change w with (fst (w, d')). now apply in_map.
  - apply IH; [assumption|]. intros m l Hm. eapply Hnb. right. eassumption.
  - intros p H1 H2.
    apply in_map_iff in H1. destruct H1 as [[[x y] a] [E1 H1]].
    apply in_map_iff in H1. destruct H1 as [[w d] [Heq H1]].
    cbn [fst snd] in Heq. injection Heq as <- <- <-.
    apply in_map_iff in H2. destruct H2 as [[[x' y'] a'] [E2 H2]].
    apply edges_from_shape in H2. destruct H2 as [K1 K2].
    cbn [fst] in E1, E2. rewrite <- E1 in E2. apply upair_eq in E2.
    destruct E2 as [[E2 _]|[_ E2]].
    + subst x'. contradiction.
    + subst y'. apply K2. now left.
Qed.

Lemma edges_NoDup G :
  wf G -> NoDup (map (fun e => upair (fst e)) (edges G)).
Proof.
  intros Hwf. apply edges_from_NoDup; [apply Hwf|].
  intros n nb H. apply (wf_keys G Hwf n). apply In_adj; [apply Hwf | exact H].
Qed.

Lemma NoDup_map_inj {A B : Type} (f : A -> B) (l : list A) x y :
  NoDup (map f l) -> In x l -> In y l -> f x = f y -> x = y.
Proof.
  induction l as [|a l IH]; [contradiction|]. cbn [map].
  intros Hnd Hx Hy E. inversion Hnd as [|? ? Ha Hnd']; subst.
  destruct Hx as [-> |Hx]; destruct Hy as [-> |Hy]; trivial.
  - exfalso. apply Ha. rewrite E. now apply in_map.
  - exfalso. apply Ha. rewrite <- E. now apply in_map.
  - now apply IH.
Qed.

End WalkFacts.

(** ** Directed graphs: nodes, successors and predecessors after [add_edge] *)

Module DiGraphFacts.
Import DiGraph DiGraphSpec.

Lemma keys_update {A : Type} (m : list (node * A)) u f :
  map fst (update m u f) = map fst m.
Proof.
  induction m as [|[n a] m IH]; simpl; [reflexivity|].
  destruct (Z.eqb n u); simpl; [reflexivity|]. now rewrite IH.
Qed.

Lemma lookup_update {A : Type} (m : list (node * A)) u f x :
  lookup (update m u f) x
  = if Z.eqb x u then option_map f (lookup m u) else lookup m x.
Proof.
  induction m as [|[n a] m IH]; simpl.
  - now destruct (Z.eqb x u).
  - destruct (Z.eqb n u) eqn:Enu; simpl.
    + apply Z.eqb_eq in Enu. subst n.
      destruct (Z.eqb x u) eqn:Exu.
      * apply Z.eqb_eq in Exu. subst x. now rewrite Z.eqb_refl.
      * rewrite Z.eqb_sym, Exu. reflexivity.
    + destruct (Z.eqb n x) eqn:Enx.
      * apply Z.eqb_eq in Enx. subst n. now rewrite Enu.
      * apply IH.
Qed.

Lemma lookup_In_keys {A : Type} (m : list (node * A)) x :
  In x (map fst m) -> exists a, lookup m x = Some a.
Proof.
  induction m as [|[n a] m IH]; simpl; [contradiction|].
  destruct (Z.eqb n x) eqn:E; [now eexists|].
  intros [-> |H]; [rewrite Z.eqb_refl in E; discriminate | now apply IH].
Qed.

Lemma lookup_Some_keys {A : Type} (m : list (node * A)) x a :
  lookup m x = Some a -> In x (map fst m).
Proof.
  induction m as [|[n b] m IH]; simpl; [discriminate|].
  destruct (Z.eqb n x) eqn:E.
  - apply Z.eqb_eq in E. now left.
  - intros H. right. now apply IH.
Qed.

Lemma lookup_app_new {A : Type} (m : list (node * A)) u a x :
  lookup (m ++ [(u, a)]) x
  = match lookup m x with
    | Some b => Some b
    | None => if Z.eqb u x then Some a else None
    end.
Proof.
  induction m as [|[n b] m IH]; simpl; [reflexivity|].
  destruct (Z.eqb n x); [reflexivity | apply IH].
Qed.

(** *** [add_node] *)

Lemma nodes_add_node T u :
  nodes (add_node T u) = if mem u (nodes T) then nodes T else nodes T ++ [u].
Proof.
  unfold add_node. destruct (mem u (nodes T)); [reflexivity|].
  unfold nodes. simpl. now rewrite map_app.
Qed.

Lemma In_nodes_add_node T u : In u (nodes (add_node T u)).
Proof.
  rewrite nodes_add_node. destruct (mem u (nodes T)) eqn:E.
  - now apply mem_In.
  - apply in_or_app. right. now left.
Qed.

Lemma incl_nodes_add_node T u x :
  In x (nodes T) -> In x (nodes (add_node T u)).
Proof.
  rewrite nodes_add_node. destruct (mem u (nodes T)); [trivial|].
  intros H. apply in_or_app. now left.
Qed.

Lemma adj_add_node T u x : adj (add_node T u) x = adj T x.
Proof.
  unfold add_node. destruct (mem u (nodes T)); [reflexivity|].
  unfold adj. simpl. rewrite lookup_app_new.
  destruct (lookup (succ T) x); [reflexivity|]. now destruct (Z.eqb u x).
Qed.

Lemma preds_add_node T u x : preds (add_node T u) x = preds T x.
Proof.
  unfold add_node. destruct (mem u (nodes T)); [reflexivity|].
  unfold preds. simpl. rewrite lookup_app_new.
  destruct (lookup (pred T) x); [reflexivity|]. now destruct (Z.eqb u x).
Qed.

Lemma keys_add_node T u :
  map fst (pred T) = nodes T ->
  map fst (pred (add_node T u)) = nodes (add_node T u).
Proof.
  intros H. unfold add_node. destruct (mem u (nodes T)); [assumption|].
  unfold nodes. simpl. rewrite !map_app. now rewrite H.
Qed.

Lemma add_node_wf T u : wf T -> wf (add_node T u).
Proof.
  intros [H1 H2 H3 H4 H5 H6]. constructor.
  - rewrite nodes_add_node. destruct (mem u (nodes T)) eqn:E; [assumption|].
    apply NoDup_app; trivial.
    + constructor; [intros [] | constructor].
    + intros a Ha [<- |[]]. apply mem_false in E. contradiction.
  - now apply keys_add_node.
  - intros x. now rewrite adj_add_node.
  - intros x. now rewrite preds_add_node.
  - intros x y. rewrite adj_add_node, preds_add_node. apply H5.
  - intros x y. rewrite adj_add_node. intros H. apply H6 in H.
    split; apply incl_nodes_add_node; apply H.
Qed.

(** *** [add_edge] *)

Lemma In_set_succ sl v y :
  In y (map fst (set_succ sl v)) <-> In y (map fst sl) \/ y = v.
Proof.
  induction sl as [|[w d] r IH]; simpl.
  - split; [intros [-> |[]]; now right | intros [[]| ->]; now left].
  - destruct (Z.eqb w v) eqn:E; simpl.
    + apply Z.eqb_eq in E. subst w. split; [tauto|].
      intros [H| ->]; [assumption | now left].
    + rewrite IH. tauto.
Qed.

Lemma NoDup_set_succ sl v :
  NoDup (map fst sl) -> NoDup (map fst (set_succ sl v)).
Proof.
  induction sl as [|[w d] r IH]; simpl.
  - intros _. constructor; [intros [] | constructor].
  - intros Hnd. inversion Hnd as [|? ? Hx Hnd']; subst.
    destruct (Z.eqb w v) eqn:E; simpl; [now constructor|].
    apply Z.eqb_neq in E. constructor; [|now apply IH].
    rewrite In_set_succ. intros [H| ->]; [contradiction | congruence].
Qed.

Lemma In_set_pred pl u y : In y (set_pred pl u) <-> In y pl \/ y = u.
Proof.
  unfold set_pred. destruct (mem u pl) eqn:E.
  - apply mem_In in E. split; [tauto|]. intros [H| ->]; assumption.
  - rewrite in_app_iff. simpl. intuition.
Qed.

Lemma NoDup_set_pred pl u : NoDup pl -> NoDup (set_pred pl u).
Proof.
  intros H. unfold set_pred. destruct (mem u pl) eqn:E; [assumption|].
  apply mem_false in E. apply NoDup_app; trivial.
  - constructor; [intros [] | constructor].
  - intros a Ha [<- |[]]. contradiction.
Qed.

Lemma nodes_add_edge T u v :
  nodes (add_edge T u v) = nodes (add_node (add_node T u) v).
Proof. unfold add_edge, nodes. simpl. apply keys_update. Qed.

Lemma adj_add_edge T u v x :
  adj (add_edge T u v) x
  = if Z.eqb x u
    then match lookup (succ (add_node (add_node T u) v)) u with
         | Some sl => map fst (set_succ sl v)
         | None => []
         end
    else adj T x.
Proof.
  unfold add_edge, adj at 1. cbn [succ]. rewrite lookup_update.
  destruct (Z.eqb x u).
  - now destruct (lookup _ u).
  - fold (adj (add_node (add_node T u) v) x). now rewrite !adj_add_node.
Qed.

Lemma In_adj_add_edge T u v x y :
  In y (adj (add_edge T u v) x) <-> In y (adj T x) \/ (x = u /\ y = v).
Proof.
  rewrite adj_add_edge. destruct (Z.eqb x u) eqn:E.
  - apply Z.eqb_eq in E. subst x.
    assert (Hu : In u (nodes (add_node (add_node T u) v))).
    { apply incl_nodes_add_node. apply In_nodes_add_node. }
    destruct (lookup_In_keys _ _ Hu) as [sl Hsl]. rewrite Hsl.
    rewrite In_set_succ.
    assert (Hadj : map fst sl = adj T u).
    { rewrite <- (adj_add_node T u u), <- (adj_add_node (add_node T u) v u).
      unfold adj. now rewrite Hsl. }
    rewrite Hadj. tauto.
  - apply Z.eqb_neq in E. tauto.
Qed.

Lemma NoDup_adj_add_edge T u v x :
  (forall z, NoDup (adj T z)) -> NoDup (adj (add_edge T u v) x).
Proof.
  intros H. rewrite adj_add_edge. destruct (Z.eqb x u); [|apply H].
  destruct (lookup _ u) as [sl|] eqn:Hsl; [|constructor].
  apply NoDup_set_succ.
  assert (Hadj : map fst sl = adj T u).
  { rewrite <- (adj_add_node T u u), <- (adj_add_node (add_node T u) v u).
    unfold adj. now rewrite Hsl. }
  rewrite Hadj. apply H.
Qed.

Lemma preds_add_edge T u v x :
  map fst (pred T) = nodes T ->
  preds (add_edge T u v) x
  = if Z.eqb x v then set_pred (preds T v) u else preds T x.
Proof.
  intros HK. unfold add_edge, preds at 1. cbn [pred]. rewrite lookup_update.
  destruct (Z.eqb x v).
  - assert (Hv : In v (map fst (pred (add_node (add_node T u) v)))).
    { rewrite keys_add_node by now apply keys_add_node.
      apply In_nodes_add_node. }
    destruct (lookup_In_keys _ _ Hv) as [pl Hpl]. rewrite Hpl. simpl.
    f_equal. rewrite <- (preds_add_node T u v).
    rewrite <- (preds_add_node (add_node T u) v v).
    unfold preds. now rewrite Hpl.
  - fold (preds (add_node (add_node T u) v) x). now rewrite !preds_add_node.
Qed.

Lemma In_preds_add_edge T u v x y :
  map fst (pred T) = nodes T ->
  (In y (preds (add_edge T u v) x) <-> In y (preds T x) \/ (x = v /\ y = u)).
Proof.
  intros HK. rewrite preds_add_edge by assumption.
  destruct (Z.eqb x v) eqn:E.
  - apply Z.eqb_eq in E. subst x. rewrite In_set_pred. tauto.
  - apply Z.eqb_neq in E. tauto.
Qed.

Lemma digraph_add_edge_wf T u v : wf T -> wf (add_edge T u v).
Proof.
  intros HT. pose proof (add_node_wf _ v (add_node_wf _ u HT)) as H2.
  destruct HT as [H1 HK H3 H4 H5 H6]. constructor.
  - rewrite nodes_add_edge. exact (wf_nodes _ H2).
  - rewrite nodes_add_edge. unfold add_edge. cbn [pred].
    rewrite keys_update. exact (wf_keys _ H2).
  - intros x. now apply NoDup_adj_add_edge.
  - intros x. rewrite preds_add_edge by assumption.
    destruct (Z.eqb x v); [apply NoDup_set_pred|]; apply H4.
  - intros x y. rewrite In_adj_add_edge, In_preds_add_edge by assumption.
    rewrite H5. tauto.
  - intros x y. rewrite In_adj_add_edge, nodes_add_edge.
    intros [H|[-> ->]].
    + apply H6 in H. split; repeat apply incl_nodes_add_node; apply H.
    + split; [apply incl_nodes_add_node|]; apply In_nodes_add_node.
Qed.

(** *** Emitting a list of edges *)

Lemma emit_wf T ds : wf T -> wf (emit T ds).
Proof.
  revert T. induction ds as [|d ds IH]; intros T HT; [exact HT|].
  apply IH. now apply digraph_add_edge_wf.
Qed.

Lemma In_adj_emit T ds x y :
  In y (adj (emit T ds) x) <-> In y (adj T x) \/ In (x, y) ds.
Proof.
  revert T. induction ds as [|[u v] ds IH]; intros T; [simpl; tauto|].
  change (emit T ((u, v) :: ds)) with (emit (add_edge T u v) ds).
  rewrite IH. rewrite In_adj_add_edge. simpl.
  split; [intros [[H|[-> ->]]|H] | intros [H|[[= -> ->]|H]]]; tauto.
Qed.

Lemma In_preds_emit T ds x y :
  wf T ->
  (In y (preds (emit T ds) x) <-> In y (preds T x) \/ In (y, x) ds).
Proof.
  revert T. induction ds as [|[u v] ds IH]; intros T HT; [simpl; tauto|].
  change (emit T ((u, v) :: ds)) with (emit (add_edge T u v) ds).
  rewrite IH by now apply digraph_add_edge_wf.
  rewrite In_preds_add_edge by apply HT. simpl.
  split; [intros [[H|[-> ->]]|H] | intros [H|[[= -> ->]|H]]]; tauto.
Qed.

Lemma nodes_emit T ds :
  (forall u v, In (u, v) ds -> In u (nodes T) /\ In v (nodes T)) ->
  nodes (emit T ds) = nodes T.
Proof.
  revert T. induction ds as [|[u v] ds IH]; intros T H; [reflexivity|].
  assert (Huv : In u (nodes T) /\ In v (nodes T)) by (apply H; now left).
  assert (E : nodes (add_edge T u v) = nodes T).
  { rewrite nodes_add_edge, !nodes_add_node.
    destruct Huv as [Hu Hv]. apply mem_In in Hu. rewrite Hu.
    apply mem_In in Hv. now rewrite Hv. }
  change (emit T ((u, v) :: ds)) with (emit (add_edge T u v) ds).
  rewrite IH; [exact E|].
  intros a b Hab. rewrite E. apply H. now right.
Qed.

(** *** The directed graph of the orienter before the loop *)

Lemma add_nodes_from_spec T ns :
  wf T -> NoDup (nodes T ++ ns) ->
  wf (add_nodes_from T ns) /\ nodes (add_nodes_from T ns) = nodes T ++ ns /\
  (forall x, adj (add_nodes_from T ns) x = adj T x) /\
  (forall x, preds (add_nodes_from T ns) x = preds T x).
Proof.
  revert T. induction ns as [|n ns IH]; intros T HT Hnd.
  - unfold add_nodes_from. cbn [fold_left]. rewrite app_nil_r.
    split; [exact HT|]. split; [reflexivity|]. split; reflexivity.
  - change (add_nodes_from T (n :: ns))
      with (add_nodes_from (add_node T n) ns).
    assert (Hn : ~ In n (nodes T)).
    { intros Hn. apply NoDup_remove_2 in Hnd. apply Hnd.
      apply in_or_app. now left. }
    assert (E : nodes (add_node T n) = nodes T ++ [n]).
    { rewrite nodes_add_node. apply mem_false in Hn. now rewrite Hn. }
    destruct (IH (add_node T n)) as [W [N [A P]]].
    + now apply add_node_wf.
    + rewrite E, <- app_assoc. exact Hnd.
    + split; [exact W|]. split; [rewrite N, E, <- app_assoc; reflexivity|].
      split; intros x; [rewrite A; apply adj_add_node
                       | rewrite P; apply preds_add_node].
Qed.

Lemma empty_wf : wf empty.
Proof.
  constructor; simpl; try constructor; try tauto; intros u v [].
Qed.

Lemma LSO_init_spec G :
  NoDup (Graph.nodes G) ->
  wf (LSO_init G) /\ nodes (LSO_init G) = Graph.nodes G /\
  (forall x, adj (LSO_init G) x = []) /\
  (forall x, preds (LSO_init G) x = []).
Proof.
  intros H. unfold LSO_init.
  destruct (add_nodes_from_spec empty (Graph.nodes G) empty_wf H)
    as [W [N [A P]]].
  split; [exact W|]. split; [exact N|].
  split; intros x; [rewrite A | rewrite P]; reflexivity.
Qed.

End DiGraphFacts.

(** ** The orientation of a tree is a rooted tree *)

Module TreeFacts.
Import Graph GraphSpec GraphFacts WalkFacts Invariants.

Lemma Forall2_In_l {A B : Type} (P : A -> B -> Prop) l l' x :
  Forall2 P l l' -> In x l -> exists y, In y l' /\ P x y.
Proof.
  induction 1 as [|a b l l' Hab Hl IH]; [contradiction|].
  intros [-> |Hx].
  - exists b. split; [now left | assumption].
  - destruct (IH Hx) as [y [Hy Hp]]. exists y. split; [now right | assumption].
Qed.

Lemma Forall2_In_r {A B : Type} (P : A -> B -> Prop) l l' y :
  Forall2 P l l' -> In y l' -> exists x, In x l /\ P x y.
Proof.
  induction 1 as [|a b l l' Hab Hl IH]; [contradiction|].
  intros [-> |Hy].
  - exists a. split; [now left | assumption].
  - destruct (IH Hy) as [x [Hx Hp]]. exists x. split; [now right | assumption].
Qed.

Lemma oriented_cases G e d :
  oriented G e d -> d = fst e \/ d = (snd (fst e), fst (fst e)).
Proof.
  destruct e as [[u v] a]. intros [G1 [c1 [c2 [_ [_ [_ ->]]]]]].
  cbn [fst snd]. destruct (length c1 <? length c2); tauto.
Qed.

Lemma emitted_upairs G es ds :
  Forall2 (oriented G) es ds ->
  map upair ds = map (fun e => upair (fst e)) es.
Proof.
  induction 1 as [|e d es ds He Hes IH]; [reflexivity|].
  cbn [map]. f_equal; [|exact IH].
  apply oriented_cases in He. destruct He as [-> | ->]; [reflexivity|].
  destruct e as [[u v] a]. cbn [fst snd]. apply upair_swap.
Qed.

(** The directed graph of the orienter is well formed and has the nodes
    of the input graph, in the same order. *)
Lemma LSO_digraph G T :
  wf G -> LSO G = Ok T ->
  DiGraphSpec.wf T /\ DiGraph.nodes T = nodes G.
Proof.
  intros Hwf HL.
  destruct (LSOFacts.LSO_run_spec G Hwf) as [G' [ds [Hrun [Hds _]]]].
  unfold LSO in HL. rewrite Hrun in HL. cbn [bind] in HL.
  injection HL as <-.
  destruct (DiGraphFacts.LSO_init_spec G (wf_nodes G Hwf)) as [W [N _]].
  split; [now apply DiGraphFacts.emit_wf|].
  rewrite DiGraphFacts.nodes_emit; [exact N|].
  intros u v Huv. rewrite N.
  destruct (Forall2_In_r _ _ _ _ Hds Huv) as [[[a b] d] [He Ho]].
  pose proof (LSOFacts.edges_In G a b d Hwf He) as Hab.
  assert (Ha : In a (nodes G)) by (eapply neighbors_In_nodes; eassumption).
  assert (Hb : In b (nodes G)) by (eapply wf_closed; eassumption).
  apply oriented_cases in Ho. cbn [fst snd] in Ho.
  destruct Ho as [[= -> ->]|[= -> ->]]; now split.
Qed.

Section Orientation.

Variable G : t.
Variable ds : list (node * node).
Hypothesis HT : tree G.
Hypothesis Hds : Forall2 (oriented G) (edges G) ds.

Let Hwf : wf G := tree_wf G HT.

Lemma side_swap u v x c : side G u v x c -> side G v u x c.
Proof.
  intros [H1 H2]. split; [assumption|]. intros w. rewrite H2.
  split; apply rw_swap.
Qed.

Lemma side_bound u v x c :
  In x (nodes G) -> side G u v x c -> length c <= length (nodes G).
Proof.
  intros Hx [H1 H2]. apply NoDup_incl_length; [assumption|].
  intros w Hw. apply H2 in Hw. eapply rw_In_nodes; eassumption.
Qed.

(** An emitted edge joins two neighbours, and the side G of its head is not
    larger than the side G of its tail. *)
Lemma emitted_sides p c :
  In (p, c) ds ->
  In c (neighbors G p) /\
  exists lp lc, side G p c p lp /\ side G p c c lc /\ length lc <= length lp.
Proof.
  intros Hd. destruct (Forall2_In_r _ _ _ _ Hds Hd) as [[[u v] a] [He Ho]].
  pose proof (LSOFacts.edges_In G u v a Hwf He) as Huv.
  destruct Ho as [G1 [c1 [c2 [M [[N1 C1] [[N2 C2] E]]]]]].
  assert (S1 : side G u v u c1).
  { split; [assumption|]. intros w. rewrite C1.
    now apply minus_edge_reach_without. }
  assert (S2 : side G u v v c2).
  { split; [assumption|]. intros w. rewrite C2.
    now apply minus_edge_reach_without. }
  destruct (length c1 <? length c2) eqn:L; injection E as -> ->.
  - apply Nat.ltb_lt in L. split; [now apply (wf_sym G Hwf)|].
    exists c2, c1. split; [now apply side_swap|].
    split; [now apply side_swap | lia].
  - apply Nat.ltb_ge in L. split; [assumption|]. now exists c1, c2.
Qed.

(** Every edge of the graph is emitted, in one direction. *)
Lemma emitted_complete a b :
  In b (neighbors G a) -> In (a, b) ds \/ In (b, a) ds.
Proof.
  intros Hab. destruct (edges_complete G a b Hwf Hab) as [d [H|H]];
    destruct (Forall2_In_l _ _ _ _ Hds H) as [d' [Hd' Ho]];
    apply oriented_cases in Ho; cbn [fst snd] in Ho;
    destruct Ho as [-> | ->]; tauto.
Qed.

(** No edge is emitted in both directions. *)
Lemma emitted_once a b : In (a, b) ds -> In (b, a) ds -> False.
Proof.
  intros H1 H2.
  assert (Hnd : NoDup (map upair ds)).
  { rewrite (emitted_upairs G (edges G) ds Hds). now apply edges_NoDup. }
  assert (E : (a, b) = (b, a)).
  { apply (NoDup_map_inj upair ds); trivial. apply upair_swap. }
  injection E as -> _. apply emitted_sides in H1.
  destruct H1 as [H1 _]. exact (tree_simple G HT b H1).
Qed.

(** Beyond a neighbour [b] of [x] lies a part of the tree that the side G of
    [x] of any other edge at [x] contains, together with [x] itself. *)
Lemma side_grows x a b lb lx :
  In b (neighbors G x) -> a <> b ->
  side G b x b lb -> side G a x x lx -> S (length lb) <= length lx.
Proof.
  intros Hxb Hab [Nb Cb] [Nx Cx].
  assert (Hbx : In x (neighbors G b)) by now apply (wf_sym G Hwf).
  pose proof (tree_acyclic G HT b x Hbx) as Hbridge.
  assert (K : forall w, reach_without G b x b w ->
                        reach_without G a x x w /\ w <> x).
  { intros w Hw. split; [|intros ->; contradiction].
    induction Hw as [|y z Hy IH Hz N1 N2].
    - eapply rw_step; [constructor | exact Hxb | |].
      + intros [-> E]. apply Hab. now symmetry.
      + intros [_ E]. apply Hab. now symmetry.
    - eapply rw_step; [exact IH | exact Hz | |].
      + intros [Ey Ez]. subst z. apply Hbridge.
        eapply rw_step; eassumption.
      + intros [Ey Ez]. subst y. contradiction. }
  change (length (x :: lb) <= length lx).
  apply NoDup_incl_length.
  - constructor; [|assumption]. intros Hx. apply Cb in Hx.
    now apply K in Hx.
  - intros w [<- |Hw]; apply Cx; [constructor|].
    apply Cb in Hw. now apply K.
Qed.

(** A node has at most one incoming edge. *)
Lemma parent_unique x a b : In (a, x) ds -> In (b, x) ds -> a = b.
Proof.
  intros Ha Hb. destruct (Z.eq_dec a b) as [E|E]; [assumption|]. exfalso.
  destruct (emitted_sides a x Ha) as [Hax [la [lxa [Sa [Sxa La]]]]].
  destruct (emitted_sides b x Hb) as [Hbx [lb [lxb [Sb [Sxb Lb]]]]].
  pose proof (side_grows x a b lb lxa
                (wf_sym G Hwf _ _ Hbx) E Sb Sxa) as K1.
  pose proof (side_grows x b a la lxb
                (wf_sym G Hwf _ _ Hax) (fun H => E (eq_sym H)) Sa Sxb) as K2.
  lia.
Qed.

Lemma parent_dec x :
  (exists q, In (q, x) ds) \/ (forall q, ~ In (q, x) ds).
Proof.
  clear. induction ds as [|[p c] l IH].
  - right. intros q [].
  - destruct (Z.eq_dec c x) as [-> |Hc].
    + left. exists p. now left.
    + destruct IH as [[q Hq]|Hn].
      * left. exists q. now right.
      * right. intros q [[= _ E]|Hq]; [congruence | now apply (Hn q)].
Qed.

(** Walking against the arrows, the side G left behind grows with every
    step: the walk ends, in a node without incoming edge. *)
Lemma root_above (k : nat) :
  forall p c lc,
    In (p, c) ds -> side G p c c lc -> length (nodes G) - length lc <= k ->
    exists r, In r (nodes G) /\ forall q, ~ In (q, r) ds.
Proof.
  induction k as [|k IH]; intros p c lc Hpc Sc Hk.
  - destruct (emitted_sides p c Hpc) as [Hn _].
    assert (Hp : In p (nodes G)) by (eapply neighbors_In_nodes; eassumption).
    destruct (parent_dec p) as [[g Hg]|Hroot]; [|now exists p].
    exfalso.
    destruct (emitted_sides g p Hg) as [Hgp [lg [lp [_ [Sp _]]]]].
    assert (Hgc : g <> c) by (intros ->; exact (emitted_once p c Hpc Hg)).
    pose proof (side_grows p g c lc lp Hn Hgc (side_swap _ _ _ _ Sc) Sp).
    pose proof (side_bound g p p lp Hp Sp). lia.
  - destruct (emitted_sides p c Hpc) as [Hn _].
    assert (Hp : In p (nodes G)) by (eapply neighbors_In_nodes; eassumption).
    destruct (parent_dec p) as [[g Hg]|Hroot]; [|now exists p].
    destruct (emitted_sides g p Hg) as [Hgp [lg [lp [_ [Sp _]]]]].
    assert (Hgc : g <> c) by (intros ->; exact (emitted_once p c Hpc Hg)).
    pose proof (side_grows p g c lc lp Hn Hgc (side_swap _ _ _ _ Sc) Sp).
    apply (IH g p lp Hg Sp). lia.
Qed.

Lemma root_exists :
  exists r, In r (nodes G) /\ forall q, ~ In (q, r) ds.
Proof.
  destruct (nodes G) as [|x l] eqn:E; [exfalso; now apply (tree_nonempty G HT)|].
  assert (Hx : In x (nodes G)) by (rewrite E; now left).
  rewrite <- E. clear E l.
  destruct (parent_dec x) as [[p Hp]|Hroot]; [|now exists x].
  destruct (emitted_sides p x Hp) as [_ [lp [lx [_ [Sx _]]]]].
  exact (root_above _ p x lx Hp Sx (Nat.le_refl _)).
Qed.

End Orientation.

Lemma length_one (l : list node) :
  NoDup l -> l <> [] -> (forall a b, In a l -> In b l -> a = b) ->
  length l = 1.
Proof.
  destruct l as [|a [|b l]]; intros Hnd Hne Heq; [congruence | reflexivity|].
  exfalso. assert (E : a = b) by (apply Heq; simpl; tauto). subst b.
  inversion Hnd as [|? ? Ha _]. apply Ha. now left.
Qed.

Section Rooted.

Variable G : t.
Variable ds : list (node * node).
Hypothesis HT : tree G.
Hypothesis Hds : Forall2 (oriented G) (edges G) ds.

Let Hwf : wf G := tree_wf G HT.
Let T : DiGraph.t := emit (LSO_init G) ds.

Lemma T_adj x y : In y (DiGraph.adj T x) <-> In (x, y) ds.
Proof.
  unfold T. rewrite DiGraphFacts.In_adj_emit.
  destruct (DiGraphFacts.LSO_init_spec G (wf_nodes G Hwf)) as [_ [_ [A _]]].
  rewrite A. simpl. tauto.
Qed.

Lemma T_preds x y : In y (DiGraph.preds T x) <-> In (y, x) ds.
Proof.
  unfold T.
  destruct (DiGraphFacts.LSO_init_spec G (wf_nodes G Hwf)) as [W [_ [_ P]]].
  rewrite DiGraphFacts.In_preds_emit by assumption.
  rewrite P. simpl. tauto.
Qed.

Lemma T_wf : DiGraphSpec.wf T.
Proof.
  apply DiGraphFacts.emit_wf.
  apply (DiGraphFacts.LSO_init_spec G (wf_nodes G Hwf)).
Qed.

Lemma T_nodes : DiGraph.nodes T = nodes G.
Proof.
  destruct (DiGraphFacts.LSO_init_spec G (wf_nodes G Hwf)) as [_ [N _]].
  unfold T. rewrite DiGraphFacts.nodes_emit; [exact N|].
  intros u v Huv. rewrite N.
  destruct (emitted_sides G ds HT Hds u v Huv) as [H _].
  split; [eapply neighbors_In_nodes | eapply wf_closed]; eassumption.
Qed.

(** From a node without incoming edge, the arrows lead to every node that
    the graph joins to it. *)
Lemma root_reaches r x :
  (forall q, ~ In (q, r) ds) -> reach G r x -> DiGraphSpec.reach T r x.
Proof.
  intros Hr. induction 1 as [|b c Hb IH Hc]; [constructor|].
  destruct (emitted_complete G ds HT Hds b c Hc) as [H|H].
  - eapply DiGraphSpec.reach_step; [exact IH|]. now apply T_adj.
  - inversion IH as [E|b' b'' Hb' Hbb' E]; subst.
    + exfalso. exact (Hr c H).
    + apply T_adj in Hbb'.
      now rewrite (parent_unique G ds HT Hds b c b' H Hbb').
Qed.

Lemma orientation_rooted : exists r, DiGraphSpec.rooted_tree T r.
Proof.
  destruct (root_exists G ds HT Hds) as [r [Hr Hroot]].
  exists r. constructor.
  - exact T_wf.
  - now rewrite T_nodes.
  - unfold DiGraph.in_degree. destruct (DiGraph.preds T r) as [|q l] eqn:E;
      [reflexivity|].
    exfalso. apply (Hroot q). apply T_preds. rewrite E. now left.
  - intros x Hx Hxr. rewrite T_nodes in Hx.
    assert (Hreach : DiGraphSpec.reach T r x).
    { apply root_reaches; [assumption|].
      now apply (tree_connected G HT). }
    unfold DiGraph.in_degree. apply length_one.
    + apply (DiGraphSpec.wf_preds T T_wf).
    + inversion Hreach as [E|b c Hb Hc E]; [congruence|]. subst.
      apply (DiGraphSpec.wf_sym T T_wf) in Hc. intros E. now rewrite E in Hc.
    + intros a b Ha Hb. apply T_preds in Ha, Hb.
      exact (parent_unique G ds HT Hds x a b Ha Hb).
  - intros x Hx. rewrite T_nodes in Hx. apply root_reaches; [assumption|].
    now apply (tree_connected G HT).
Qed.

End Rooted.

(** The orienter turns a tree into a rooted tree on the same nodes. *)
Lemma LSO_tree G :
  tree G ->
  exists T r,
    LSO G = Ok T /\ DiGraph.nodes T = nodes G /\ DiGraphSpec.rooted_tree T r.
Proof.
  intros HT.
  destruct (LSOFacts.LSO_run_spec G (tree_wf G HT))
    as [G' [ds [Hrun [Hds _]]]].
  destruct (orientation_rooted G ds HT Hds) as [r Hr].
  exists (emit (LSO_init G) ds), r. split; [|split].
  - unfold LSO. now rewrite Hrun.
  - now apply T_nodes.
  - exact Hr.
Qed.

End TreeFacts.

(** ** Soundness of the check of trees *)

Module TreeCheckFacts.
Import Graph GraphSpec GraphFacts WalkFacts ComponentFacts CheckFacts Invariants.

Lemma simpleb_simple G : simpleb G = true -> simple G.
Proof.
  unfold simpleb. rewrite forallb_forall. intros H u Hu.
  unfold neighbors in Hu. destruct (adj G u) as [nb|] eqn:E; [|contradiction].
  apply adj_In in E. apply H in E. cbn [fst snd] in E.
  apply mem_In in Hu. rewrite Hu in E. discriminate.
Qed.

Lemma connectedb_connected G :
  wf G -> connectedb G = true -> connected G /\ nodes G <> [].
Proof.
  intros Hwf. unfold connectedb.
  destruct (nodes G) as [|n l] eqn:E; [discriminate|]. rewrite <- E.
  assert (Hn : In n (nodes G)) by (rewrite E; now left).
  destruct (node_connected_component_spec G n Hwf Hn) as [c [-> [Hnd Hc]]].
  intros Hlen. apply Nat.eqb_eq in Hlen.
  split; [|rewrite E; discriminate].
  assert (Hall : forall x, In x (nodes G) -> reach G n x).
  { intros x Hx. apply Hc. revert x Hx. apply NoDup_length_incl; trivial.
    - lia.
    - intros x Hx. apply Hc in Hx. eapply reach_In_nodes; eassumption. }
  intros a b Ha Hb. apply (reach_trans G a n b).
  - apply reach_sym; [assumption | now apply Hall].
  - now apply Hall.
Qed.

Lemma bridgeb_bridge G u v a :
  wf G -> bridgeb G (u, v, a) = true -> ~ reach_without G u v u v.
Proof.
  intros Hwf. unfold bridgeb. cbn [fst snd].
  destruct (remove_edge G u v) as [G1|] eqn:E; [|discriminate].
  pose proof (remove_edge_wf _ _ _ _ Hwf E) as Hwf1.
  pose proof (remove_edge_shape _ _ _ _ E) as [_ Huv].
  assert (Hu : In u (nodes G1)).
  { rewrite (remove_edge_nodes _ _ _ _ E).
    eapply neighbors_In_nodes; eassumption. }
  destruct (node_connected_component_spec G1 u Hwf1 Hu) as [c [-> [_ Hc]]].
  intros Hm Hr. apply (minus_edge_reach_without G G1 u v u v) in Hr.
  - apply Hc in Hr. apply mem_In in Hr. rewrite Hr in Hm. discriminate.
  - split; [eapply remove_edge_nodes; eassumption|].
    intros x y. apply remove_edge_neighbors; [apply Hwf | assumption].
Qed.

Lemma treeb_tree G : treeb G = true -> tree G.
Proof.
  unfold treeb. intros H.
  apply andb_true_iff in H. destruct H as [H H4].
  apply andb_true_iff in H. destruct H as [H H3].
  apply andb_true_iff in H. destruct H as [H1 H2].
  apply wfb_wf in H1. destruct (connectedb_connected G H1 H3) as [Hc Hne].
  rewrite forallb_forall in H4.
  constructor; trivial; [now apply simpleb_simple|].
  intros u v Huv. destruct (edges_complete G u v H1 Huv) as [d [He|He]].
  - eapply bridgeb_bridge; [eassumption|]. apply H4. eassumption.
  - intros Hr. apply (bridgeb_bridge G v u d H1 (H4 _ He)).
    apply rw_swap. now apply rw_sym.
Qed.

Lemma pathb_path_graph G : pathb G = true -> path_graph G.
Proof.
  unfold pathb. intros H. apply andb_true_iff in H. destruct H as [H1 H2].
  split; [now apply treeb_tree|]. intros x. unfold neighbors.
  destruct (adj G x) as [nb|] eqn:E; [|simpl; lia].
  rewrite forallb_forall in H2. apply adj_In in E. apply H2 in E.
  cbn [snd] in E. apply Nat.leb_le in E. now rewrite length_map.
Qed.

End TreeCheckFacts.

(** ** Depth-first search visits the descendants *)

Module DfsFacts.
Import DiGraph DiGraphSpec DiGraphFacts Invariants.

Lemma dreach_trans T a b c : reach T a b -> reach T b c -> reach T a c.
Proof.
  intros Hab Hbc. induction Hbc as [|c d Hc IH Hd]; [assumption|].
  eapply reach_step; eassumption.
Qed.

Lemma reach_first T u c x : In c (adj T u) -> reach T c x -> reach T u x.
Proof.
  intros Huc. apply dreach_trans. eapply reach_step; [constructor | exact Huc].
Qed.

Lemma nodes_add_edge_new B u c :
  In u (nodes B) -> ~ In c (nodes B) -> nodes (add_edge B u c) = nodes B ++ [c].
Proof.
  intros Hu Hc. rewrite nodes_add_edge, !nodes_add_node.
  apply mem_In in Hu. rewrite Hu. apply mem_false in Hc. now rewrite Hc.
Qed.

Section Visit.

Variable T : t.
Variable source : node.
Hypothesis HT : wf T.

Lemma dfs_visit_S depth s u :
  dfs_visit (S depth) T s u
  = let s' := fold_left (visit_child T depth u) (adj T u) s in
    mk_dfs (visited s') (finished s' ++ [u]) (tree_edges s').
Proof. reflexivity. Qed.

Lemma children_ok depth u :
  visit_ok T source depth ->
  forall cs s,
    (forall c, In c cs -> In c (adj T u)) ->
    dfs_inv T source s -> In u (visited s) ->
    unseen (nodes T) (visited s) <= depth ->
    exists new,
      dfs_done T source u s (fold_left (visit_child T depth u) cs s) new /\
      Permutation (finished (fold_left (visit_child T depth u) cs s))
                  (new ++ finished s) /\
      forall y, In y cs -> In y (visited (fold_left (visit_child T depth u) cs s)).
Proof.
  intros IHd. induction cs as [|c cs IH]; intros s Hcs Hinv Hu Hfuel.
  - exists []. cbn [fold_left]. split; [|split].
    + split; [reflexivity|]. split; [exact Hinv|].
      split; [intros x [] | intros x y []].
    + apply Permutation_refl.
    + intros y [].
  - cbn [fold_left].
    assert (Hvc : visit_child T depth u s c
                  = if mem c (visited s) then s
                    else dfs_visit depth T
                           (mk_dfs (c :: visited s) (finished s)
                                   (tree_edges s ++ [(u, c)])) c)
      by reflexivity.
    rewrite Hvc. clear Hvc.
    destruct (mem c (visited s)) eqn:Ec.
    + apply mem_In in Ec.
      destruct (IH s (fun x H => Hcs x (or_intror H)) Hinv Hu Hfuel)
        as [new [[E [I [R C]]] [P V]]].
      exists new. split; [exact (conj E (conj I (conj R C)))|].
      split; [exact P|].
      intros y [<- |Hy]; [|now apply V].
      rewrite E. apply in_or_app. now right.
    + apply mem_false in Ec.
      assert (Huc : In c (adj T u)) by (apply Hcs; now left).
      assert (Hc : In c (nodes T)) by (apply (wf_closed T HT u c Huc)).
      destruct Hinv as [I1 [I2 I3]].
      set (s1 := mk_dfs (c :: visited s) (finished s)
                        (tree_edges s ++ [(u, c)])).
      assert (Hinv1 : dfs_inv T source s1).
      { split; [now constructor|]. split.
        - intros x [<- |Hx]; [assumption | now apply I2].
        - cbn [tree_edges visited s1]. unfold emit. rewrite fold_left_app.
          cbn [fold_left fst snd]. fold (emit (add_node empty source) (tree_edges s)).
          rewrite nodes_add_edge_new.
          + now rewrite I3.
          + rewrite I3. apply in_rev. now rewrite rev_involutive.
          + rewrite I3. intros H. apply in_rev in H. contradiction. }
      assert (Hlt : unseen (nodes T) (visited s1) < depth).
      { pose proof (unseen_lt (nodes T) (visited s) c Hc Ec). simpl. lia. }
      destruct (IHd s1 c Hinv1 (or_introl eq_refl) Hlt)
        as [new1 [[E1 [J1 [R1 C1]]] [P1 V1]]].
      set (s2 := dfs_visit depth T s1 c) in *.
      assert (Hu2 : In u (visited s2)).
      { rewrite E1. apply in_or_app. right. now right. }
      assert (Hle2 : unseen (nodes T) (visited s2) <= depth).
      { apply Nat.le_trans with (unseen (nodes T) (visited s1)); [|lia].
        apply unseen_le. rewrite E1. intros x Hx. apply in_or_app. now right. }
      destruct (IH s2 (fun x H => Hcs x (or_intror H)) J1 Hu2 Hle2)
        as [new2 [[E2 [J2 [R2 C2]]] [P2 V2]]].
      set (s3 := fold_left (visit_child T depth u) cs s2) in *.
      exists (new2 ++ new1 ++ [c]). split; [|split].
      * split; [|split; [exact J2|split]].
        -- rewrite E2, E1. cbn [visited s1]. rewrite <- !app_assoc. reflexivity.
        -- intros x Hx. apply in_app_or in Hx. destruct Hx as [Hx|Hx];
             [now apply R2|].
           apply in_app_or in Hx. destruct Hx as [Hx|[<- |[]]].
           ++ apply (reach_first T u c x Huc). now apply R1.
           ++ eapply reach_step; [constructor | exact Huc].
        -- intros x y Hx Hy. apply in_app_or in Hx.
           destruct Hx as [Hx|Hx]; [now apply (C2 x y)|].
           rewrite E2. apply in_or_app. right.
           apply in_app_or in Hx. destruct Hx as [Hx|[<- |[]]].
           ++ now apply (C1 x y).
           ++ now apply V1.
      * eapply Permutation_trans; [exact P2|].
        rewrite <- !app_assoc. apply Permutation_app_head.
        eapply Permutation_trans; [exact P1|]. cbn [finished s1].
        cbn [app]. apply Permutation_middle.
      * intros y [<- |Hy]; [|now apply V2].
        rewrite E2. apply in_or_app. right. rewrite E1.
        apply in_or_app. right. now left.
Qed.

Lemma dfs_visit_ok depth : visit_ok T source depth.
Proof.
  induction depth as [|depth IH]; intros s u Hinv Hu Hfuel; [lia|].
  rewrite dfs_visit_S. cbv zeta.
  destruct (children_ok depth u IH (adj T u) s (fun c H => H) Hinv Hu)
    as [new [[E [[I1 [I2 I3]] [R C]]] [P V]]]; [lia|].
  exists new. cbn [visited finished tree_edges].
  split; [|split].
  - split; [exact E|]. split; [|split; assumption].
    split; [exact I1|]. split; [exact I2 | exact I3].
  - eapply Permutation_trans; [apply Permutation_app_tail; exact P|].
    apply Permutation_sym. apply Permutation_cons_append.
  - exact V.
Qed.

End Visit.

(** The search from a node of the graph: the nodes visited are the node
    and its descendants, each once; the nodes finished are the same nodes;
    [dfs_tree] has them as its nodes, in preorder. *)
Lemma dfs_spec T x :
  wf T -> In x (nodes T) ->
  exists s,
    dfs T x = Ok s /\
    is_subtree T x (rev (visited s)) /\
    Permutation (finished s) (rev (visited s)) /\
    nodes (emit (add_node empty x) (tree_edges s)) = rev (visited s).
Proof.
  intros HT Hx. unfold dfs. pose proof Hx as Hm. apply mem_In in Hm.
  rewrite Hm. eexists. split; [reflexivity|].
  set (s0 := mk_dfs [x] [] []).
  assert (Hinv : dfs_inv T x s0).
  { split; [constructor; [intros [] | constructor]|]. split.
    - intros y [<- |[]]. assumption.
    - reflexivity. }
  assert (Hfuel : unseen (nodes T) (visited s0) < length (nodes T)).
  { pose proof (unseen_lt (nodes T) [] x Hx (fun H => H)).
    pose proof (ComponentFacts.unseen_bound (nodes T) []). simpl. lia. }
  destruct (dfs_visit_ok T x HT _ s0 x Hinv (or_introl eq_refl) Hfuel)
    as [new [[E [[I1 [I2 I3]] [R C]]] [P V]]].
  set (s := dfs_visit (length (nodes T)) T s0 x) in *.
  cbn [visited finished s0] in E, P. split; [|split].
  - split; [now apply NoDup_rev|]. intros y. rewrite <- in_rev. split.
    + rewrite E. intros Hy. apply in_app_or in Hy.
      destruct Hy as [Hy|[<- |[]]]; [now apply R | constructor].
    + induction 1 as [|b c Hb IHb Hc].
      * rewrite E. apply in_or_app. right. now left.
      * rewrite E in IHb. apply in_app_or in IHb.
        destruct IHb as [Hn|[<- |[]]]; [now apply (C b c) | now apply V].
  - eapply Permutation_trans; [exact P|]. rewrite app_nil_r.
    rewrite E. rewrite rev_app_distr. cbn [rev app].
    apply perm_skip. apply Permutation_rev.
  - exact I3.
Qed.

End DfsFacts.

(** ** Subtree sizes and tiles *)

Module SizeTileFacts.
Import DiGraph DiGraphSpec DiGraphFacts DfsFacts.

Lemma dreach_In_nodes T a b :
  wf T -> In a (nodes T) -> reach T a b -> In b (nodes T).
Proof.
  intros HT Ha. induction 1 as [|b c Hb IH Hc]; [assumption|].
  apply (wf_closed T HT b c Hc).
Qed.

Lemma successors_eq T x :
  successors T x
  = if mem x (nodes T) then Ok (adj T x) else Raise NetworkXError.
Proof.
  unfold successors, adj, nodes. destruct (lookup (succ T) x) as [sl|] eqn:E.
  - apply lookup_Some_keys in E. apply mem_In in E. now rewrite E.
  - destruct (mem x (map fst (succ T))) eqn:M; [|reflexivity].
    apply mem_In in M. apply lookup_In_keys in M. destruct M as [a M].
    congruence.
Qed.

Lemma predecessors_eq T x :
  wf T ->
  predecessors T x
  = if mem x (nodes T) then Ok (preds T x) else Raise NetworkXError.
Proof.
  intros HT. unfold predecessors, preds. rewrite <- (wf_keys T HT).
  destruct (lookup (pred T) x) as [pl|] eqn:E.
  - apply lookup_Some_keys in E. apply mem_In in E. now rewrite E.
  - destruct (mem x (map fst (pred T))) eqn:M; [|reflexivity].
    apply mem_In in M. apply lookup_In_keys in M. destruct M as [a M].
    congruence.
Qed.

(** [subtree_size] counts the node and its descendants. *)
Lemma subtree_size_spec T x :
  wf T -> In x (nodes T) ->
  exists k, subtree_size T x = Ok k /\ has_size T x k.
Proof.
  intros HT Hx. destruct (dfs_spec T x HT Hx) as [s [E [S [_ N]]]].
  exists (length (rev (visited s))). split.
  - unfold subtree_size, dfs_tree. rewrite E. cbn [bind].
    fold (emit (add_node empty x) (tree_edges s)). now rewrite N.
  - now exists (rev (visited s)).
Qed.

Lemma is_subtree_length T x c1 c2 :
  is_subtree T x c1 -> is_subtree T x c2 -> length c1 = length c2.
Proof.
  intros [N1 C1] [N2 C2]. apply NoDup_same_length; trivial.
  intros y. now rewrite C1, C2.
Qed.

Lemma has_size_unique T x k1 k2 :
  has_size T x k1 -> has_size T x k2 -> k1 = k2.
Proof.
  intros [c1 [S1 <-]] [c2 [S2 <-]]. eapply is_subtree_length; eassumption.
Qed.

Lemma mapM_subtree_size T l :
  wf T -> incl l (nodes T) ->
  exists ks, mapM (subtree_size T) l = Ok ks /\ Forall2 (has_size T) l ks.
Proof.
  intros HT. induction l as [|x l IH]; intros Hl.
  - exists []. split; [reflexivity | constructor].
  - destruct (subtree_size_spec T x HT (Hl x (or_introl eq_refl)))
      as [k [Ek Hk]].
    destruct IH as [ks [Eks Hks]].
    { intros y Hy. apply Hl. now right. }
    exists (k :: ks). cbn [mapM]. rewrite Ek. cbn [bind]. rewrite Eks.
    split; [reflexivity | now constructor].
Qed.

Lemma leb_le x y : is_true (NatOrder.leb x y) -> x <= y.
Proof.
  revert y. induction x as [|x IH]; intros [|y]; simpl; intros H; try lia.
  - discriminate.
  - apply IH in H. lia.
Qed.

Lemma sort_sorted l : Sorted le (NatSort.sort l).
Proof.
  pose proof (NatSort.Sorted_sort l) as H.
  induction H as [|a l' Hs IH Hd]; constructor; [assumption|].
  destruct Hd as [|b l'' Hab]; constructor. now apply leb_le.
Qed.

(** [tile_of] computes the tile signature. *)
Lemma tile_of_spec T x :
  wf T -> In x (nodes T) ->
  exists tile, tile_of T x = Ok tile /\ has_signature T x tile.
Proof.
  intros HT Hx. unfold tile_of. rewrite successors_eq.
  pose proof Hx as Hm. apply mem_In in Hm. rewrite Hm. cbn [bind].
  destruct (adj T x) as [|c cs] eqn:Ea.
  - exists []. split; [reflexivity|]. left. now split.
  - destruct (dfs_spec T x HT Hx) as [s [E [S _]]].
    unfold dfs_preorder_nodes. rewrite E. cbn [bind].
    destruct (mapM_subtree_size T (rev (visited s)) HT) as [ks [Eks Hks]].
    { intros y Hy. apply S in Hy. eapply dreach_In_nodes; eassumption. }
    rewrite Eks. cbn [bind]. exists (NatSort.sort ks).
    split; [reflexivity|]. right. split; [rewrite Ea; discriminate|].
    exists (rev (visited s)), ks. split; [assumption|].
    split; [assumption|]. split; [apply sort_sorted|].
    apply Permutation_sym. apply NatSort.Permuted_sort.
Qed.

(** *** The signature of a node is unique *)

Lemma Forall2_perm {A B : Type} (R : A -> B -> Prop) l l' ks :
  Permutation l l' -> Forall2 R l ks ->
  exists ks', Forall2 R l' ks' /\ Permutation ks ks'.
Proof.
  intros HP. revert ks. induction HP as [|x l l' HP IH|x y l|l l1 l2 H1 IH1 H2 IH2];
    intros ks HF.
  - inversion HF. subst. exists []. split; constructor.
  - inversion HF as [|? k ? ks0 Hk HF0]. subst.
    destruct (IH ks0 HF0) as [ks' [H1 H2]].
    exists (k :: ks'). split; [now constructor | now apply perm_skip].
  - inversion HF as [|? k1 ? ks0 Hk1 HF0]. subst.
    inversion HF0 as [|? k2 ? ks1 Hk2 HF1]. subst.
    exists (k2 :: k1 :: ks1). split; [now repeat constructor | apply perm_swap].
  - destruct (IH1 ks HF) as [ks1 [F1 P1]].
    destruct (IH2 ks1 F1) as [ks2 [F2 P2]].
    exists ks2. split; [assumption | eapply Permutation_trans; eassumption].
Qed.

Lemma Forall2_functional {A B : Type} (R : A -> B -> Prop) l ks ks' :
  (forall a b b', R a b -> R a b' -> b = b') ->
  Forall2 R l ks -> Forall2 R l ks' -> ks = ks'.
Proof.
  intros HR HF. revert ks'. induction HF as [|a k l ks Hk HF IH]; intros ks' HF'.
  - now inversion HF'.
  - inversion HF' as [|? k' ? ks0 Hk' HF0]. subst.
    f_equal; [eapply HR; eassumption | now apply IH].
Qed.

Lemma sorted_perm_eq (l1 l2 : list nat) :
  Sorted le l1 -> Sorted le l2 -> Permutation l1 l2 -> l1 = l2.
Proof.
  intros S1 S2. apply Sorted_StronglySorted in S1; [|intros a b c; lia].
  apply Sorted_StronglySorted in S2; [|intros a b c; lia].
  revert l2 S2. induction S1 as [|a l1 S1 IH H1]; intros l2 S2 HP.
  - apply Permutation_nil in HP. now subst.
  - destruct S2 as [|b l2 S2 H2].
    + apply Permutation_sym, Permutation_nil in HP. discriminate.
    + assert (Hab : a = b).
      { assert (Ha : In a (b :: l2))
          by (eapply Permutation_in; [exact HP | now left]).
        assert (Hb : In b (a :: l1))
          by (eapply Permutation_in; [apply Permutation_sym; exact HP | now left]).
        rewrite Forall_forall in H1, H2.
        destruct Ha as [Ha|Ha]; [now symmetry|].
        destruct Hb as [Hb|Hb]; [assumption|].
        apply H1 in Hb. apply H2 in Ha. lia. }
      subst b. f_equal. apply IH; [assumption|].
      eapply Permutation_cons_inv; eassumption.
Qed.

Lemma has_signature_unique T x t1 t2 :
  has_signature T x t1 -> has_signature T x t2 -> t1 = t2.
Proof.
  intros [[A1 ->]|[A1 [c1 [ks1 [S1 [F1 [O1 P1]]]]]]]
         [[A2 ->]|[A2 [c2 [ks2 [S2 [F2 [O2 P2]]]]]]];
    try reflexivity; try contradiction.
  apply sorted_perm_eq; trivial.
  assert (HP : Permutation c1 c2).
  { destruct S1 as [N1 C1], S2 as [N2 C2]. apply NoDup_Permutation; trivial.
    intros y. now rewrite C1, C2. }
  destruct (Forall2_perm _ _ _ _ HP F1) as [ks' [F' P']].
  assert (E : ks' = ks2).
  { eapply Forall2_functional; [|exact F' | exact F2].
    intros a b b'. apply has_size_unique. }
  subst ks'.
  eapply Permutation_trans; [exact P1|].
  eapply Permutation_trans; [exact P'|]. now apply Permutation_sym.
Qed.

End SizeTileFacts.

(** ** Labelling an edge leaves the shape of the graph alone *)

Module LabelFacts.
Import DiGraph DiGraphSpec DiGraphFacts DfsFacts SizeTileFacts.

Lemma same_shape_refl T : same_shape T T.
Proof. now repeat split. Qed.

Lemma same_shape_trans T1 T2 T3 :
  same_shape T1 T2 -> same_shape T2 T3 -> same_shape T1 T3.
Proof.
  intros [N1 [A1 P1]] [N2 [A2 P2]]. split; [congruence|].
  split; [|congruence]. intros u. now rewrite A2, A1.
Qed.

Lemma same_shape_preds T T' u : same_shape T T' -> preds T' u = preds T u.
Proof. intros [_ [_ P]]. unfold preds. now rewrite P. Qed.

Lemma same_shape_wf T T' : same_shape T T' -> wf T -> wf T'.
Proof.
  intros HS [H1 H2 H3 H4 H5 H6]. pose proof HS as [N [A P]]. constructor.
  - now rewrite N.
  - now rewrite P, N.
  - intros u. rewrite A. apply H3.
  - intros u. rewrite (same_shape_preds T T' u HS). apply H4.
  - intros u v. rewrite A, (same_shape_preds T T' v HS). apply H5.
  - intros u v. rewrite A, N. apply H6.
Qed.

Lemma fold_left_ext {A B : Type} (f g : A -> B -> A) l a :
  (forall x y, f x y = g x y) -> fold_left f l a = fold_left g l a.
Proof.
  intros H. revert a. induction l as [|b l IH]; intros a; [reflexivity|].
  simpl. rewrite H. apply IH.
Qed.

Lemma dfs_visit_shape T T' depth s u :
  (forall x, adj T' x = adj T x) ->
  dfs_visit depth T' s u = dfs_visit depth T s u.
Proof.
  intros HA. revert s u. induction depth as [|depth IH]; intros s u;
    [reflexivity|].
  cbn [dfs_visit]. rewrite HA.
  rewrite (fold_left_ext _
             (fun s c => if mem c (visited s) then s
                         else dfs_visit depth T
                                (mk_dfs (c :: visited s) (finished s)
                                        (tree_edges s ++ [(u, c)])) c)).
  - reflexivity.
  - intros x y. destruct (mem y (visited x)); [reflexivity | apply IH].
Qed.

Lemma dfs_shape T T' x : same_shape T T' -> dfs T' x = dfs T x.
Proof.
  intros [N [A _]]. unfold dfs. rewrite N.
  destruct (mem x (nodes T)); [|reflexivity].
  now rewrite (dfs_visit_shape T T').
Qed.

Lemma subtree_size_shape T T' x :
  same_shape T T' -> subtree_size T' x = subtree_size T x.
Proof.
  intros HS. unfold subtree_size, dfs_tree. now rewrite (dfs_shape T T').
Qed.

Lemma mapM_ext {A B : Type} (f g : A -> result B) l :
  (forall x, f x = g x) -> mapM f l = mapM g l.
Proof.
  intros H. induction l as [|a l IH]; [reflexivity|].
  cbn [mapM]. now rewrite H, IH.
Qed.

Lemma tile_of_shape T T' x : same_shape T T' -> tile_of T' x = tile_of T x.
Proof.
  intros HS. pose proof HS as [N [A _]]. unfold tile_of.
  rewrite !successors_eq, N, A. unfold dfs_preorder_nodes.
  rewrite (dfs_shape T T' x HS).
  destruct (mem x (nodes T)); [|reflexivity]. cbn [bind].
  destruct (adj T x); [reflexivity|].
  destruct (dfs T x); [|reflexivity]. cbn [bind].
  rewrite (mapM_ext (subtree_size T') (subtree_size T)); [reflexivity|].
  intros y. now apply subtree_size_shape.
Qed.

(** *** [set_label] *)

Lemma edge_data_ok T p x :
  In x (adj T p) -> exists d, edge_data T p x = Ok d.
Proof.
  unfold adj, edge_data. destruct (lookup (succ T) p) as [sl|]; [|contradiction].
  intros H. destruct (lookup_In_keys sl x H) as [d ->]. now exists d.
Qed.

Lemma set_label_ok T p x k :
  In x (adj T p) -> exists T', set_label T p x k = Ok T'.
Proof.
  intros H. unfold set_label. destruct (edge_data_ok T p x H) as [d ->].
  cbn [bind]. now eexists.
Qed.

Lemma set_label_shape T p x k T' :
  set_label T p x k = Ok T' -> same_shape T T'.
Proof.
  unfold set_label. destruct (edge_data T p x); [|discriminate].
  cbn [bind]. intros [= <-]. split; [|split].
  - unfold nodes. cbn [succ]. apply keys_update.
  - intros u. unfold adj. cbn [succ]. rewrite lookup_update.
    destruct (Z.eqb u p) eqn:E; [|reflexivity].
    apply Z.eqb_eq in E. subst u.
    destruct (lookup (succ T) p); [|reflexivity].
    cbn [option_map]. apply keys_update.
  - reflexivity.
Qed.

Lemma edge_data_set_label T p x k T' a b :
  set_label T p x k = Ok T' ->
  edge_data T' a b
  = if Z.eqb a p && Z.eqb b x then Ok (Some k) else edge_data T a b.
Proof.
  unfold set_label. destruct (edge_data T p x) as [d|] eqn:Ed; [|discriminate].
  cbn [bind]. intros [= <-]. unfold edge_data in *. cbn [succ].
  rewrite lookup_update. destruct (Z.eqb a p) eqn:Ea; [|reflexivity].
  apply Z.eqb_eq in Ea. subst a.
  destruct (lookup (succ T) p) as [sl|]; [|discriminate].
  cbn [option_map andb]. rewrite lookup_update.
  destruct (Z.eqb b x) eqn:Eb; [|reflexivity].
  destruct (lookup sl x); [reflexivity | discriminate].
Qed.

End LabelFacts.

(** ** The loop of scenario 2 *)

Module Alg2Facts.
Import DiGraph DiGraphSpec DiGraphFacts DfsFacts SizeTileFacts LabelFacts Invariants.

(** *** The root *)

Lemma last_cons {A : Type} (a d : A) l : last (a :: l) d = last l a.
Proof.
  revert a d. induction l as [|b l IH]; intros a d; [reflexivity|].
  change (last (a :: b :: l) d) with (last (b :: l) d).
  now rewrite (IH b d), (IH b a).
Qed.

(** [find_root] returns the last node of in-degree 0 in node order, and 0
    when there is none. *)
Lemma find_root_last T :
  find_root T = last (filter (fun n => in_degree T n =? 0) (nodes T)) 0%Z.
Proof.
  unfold find_root, in_degree_view. generalize 0%Z as d.
  induction (nodes T) as [|n l IH]; intros d; [reflexivity|].
  cbn [map fold_left filter fst snd]. rewrite IH.
  destruct (in_degree T n =? 0); [|reflexivity].
  now rewrite last_cons.
Qed.

Lemma filter_single (h : node -> bool) (l : list node) (r : node) :
  NoDup l -> In r l -> h r = true ->
  (forall x, In x l -> x <> r -> h x = false) ->
  filter h l = [r].
Proof.
  induction l as [|a l IH]; intros Hnd Hr Hh Hother; [contradiction|].
  inversion Hnd as [|? ? Ha Hnd']; subst. cbn [filter].
  destruct Hr as [-> |Hr].
  - rewrite Hh. f_equal.
    assert (H : forall x, In x l -> h x = false).
    { intros x Hx. apply Hother; [now right|]. intros ->. contradiction. }
    clear - H. induction l as [|b l IH]; [reflexivity|].
    cbn [filter]. rewrite (H b (or_introl eq_refl)). apply IH.
    intros x Hx. apply H. now right.
  - assert (Har : a <> r) by (intros ->; contradiction).
    rewrite (Hother a (or_introl eq_refl) Har).
    apply IH; trivial. intros x Hx. apply Hother. now right.
Qed.

Lemma find_root_rooted T r : rooted_tree T r -> find_root T = r.
Proof.
  intros [HT Hr H0 H1 _]. rewrite find_root_last.
  rewrite (filter_single _ (nodes T) r); trivial.
  - apply HT.
  - now rewrite H0.
  - intros x Hx Hxr. now rewrite (H1 x Hx Hxr).
Qed.

(** *** Lists without duplicates that grow at the end *)

Lemma mem_nat_In k l : mem_nat k l = true <-> In k l.
Proof.
  unfold mem_nat. rewrite existsb_exists. split.
  - intros [y [Hy E]]. apply Nat.eqb_eq in E. now subst.
  - intros H. exists k. split; [assumption | apply Nat.eqb_refl].
Qed.

Lemma mem_tile_In tile l : mem_tile tile l = true <-> In tile l.
Proof.
  unfold mem_tile, tile_eqb. rewrite existsb_exists. split.
  - intros [y [Hy E]]. destruct (list_eq_dec Nat.eq_dec tile y);
      [now subst | discriminate].
  - intros H. exists tile. split; [assumption|].
    destruct (list_eq_dec Nat.eq_dec tile tile); congruence.
Qed.

Lemma In_add_nat k l y : In y (add_nat k l) <-> In y l \/ y = k.
Proof.
  unfold add_nat. destruct (mem_nat k l) eqn:E.
  - apply mem_nat_In in E. split; [tauto|]. intros [H| ->]; assumption.
  - rewrite in_app_iff. simpl. intuition.
Qed.

Lemma NoDup_add_nat k l : NoDup l -> NoDup (add_nat k l).
Proof.
  intros H. unfold add_nat. destruct (mem_nat k l) eqn:E; [assumption|].
  apply NoDup_app; trivial.
  - constructor; [intros [] | constructor].
  - intros a Ha [<- |[]]. apply mem_nat_In in Ha. congruence.
Qed.

Lemma length_add_nat k l : length (add_nat k l) <= S (length l).
Proof.
  unfold add_nat. destruct (mem_nat k l); [lia|].
  rewrite length_app. simpl. lia.
Qed.

Lemma In_add_tile tile l y : In y (add_tile tile l) <-> In y l \/ y = tile.
Proof.
  unfold add_tile. destruct (mem_tile tile l) eqn:E.
  - apply mem_tile_In in E. split; [tauto|]. intros [H| ->]; assumption.
  - rewrite in_app_iff. simpl. intuition.
Qed.

Lemma NoDup_add_tile tile l : NoDup l -> NoDup (add_tile tile l).
Proof.
  intros H. unfold add_tile. destruct (mem_tile tile l) eqn:E; [assumption|].
  apply NoDup_app; trivial.
  - constructor; [intros [] | constructor].
  - intros a Ha [<- |[]]. apply mem_tile_In in Ha. congruence.
Qed.

(** *** The size and the tile of a node, as values *)

Lemma size_of_spec T x :
  wf T -> In x (nodes T) ->
  subtree_size T x = Ok (size_of T x) /\ has_size T x (size_of T x).
Proof.
  intros HT Hx. destruct (subtree_size_spec T x HT Hx) as [k [E H]].
  unfold size_of. rewrite E. now split.
Qed.

Lemma sig_of_spec T x :
  wf T -> In x (nodes T) ->
  tile_of T x = Ok (sig_of T x) /\ has_signature T x (sig_of T x).
Proof.
  intros HT Hx. destruct (tile_of_spec T x HT Hx) as [k [E H]].
  unfold sig_of. rewrite E. now split.
Qed.

Section Loop.

Variable T0 : t.
Variable root : node.
Hypothesis HT : wf T0.

(** One iteration of the loop. *)
Lemma alg2_body_spec st x :
  same_shape T0 (tree2 st) -> In x (nodes T0) ->
  (x <> root -> preds T0 x <> []) ->
  exists T',
    alg2_body root st x
    = Ok (mk_alg2 T'
            (if Z.eqb x root then labels st
             else add_nat (size_of T0 x) (labels st))
            (add_tile (sig_of T0 x) (tiles st))) /\
    same_shape T0 T' /\
    (forall a b, b <> x -> edge_data T' a b = edge_data (tree2 st) a b) /\
    (forall p, x <> root -> first (preds T0 x) = Ok p ->
               edge_data T' p x = Ok (Some (size_of T0 x))).
Proof.
  intros HS Hx Hpar. pose proof (same_shape_wf _ _ HS HT) as HT'.
  pose proof HS as [N [A P]].
  destruct (size_of_spec T0 x HT Hx) as [Esize _].
  destruct (sig_of_spec T0 x HT Hx) as [Etile _].
  unfold alg2_body. destruct (Z.eqb x root) eqn:Exr.
  - cbn [bind]. rewrite (tile_of_shape T0 (tree2 st) x HS), Etile.
    cbn [bind]. exists (tree2 st). split; [reflexivity|].
    split; [assumption|]. split; [reflexivity|].
    intros p Hne. apply Z.eqb_eq in Exr. contradiction.
  - apply Z.eqb_neq in Exr.
    rewrite (subtree_size_shape T0 (tree2 st) x HS), Esize. cbn [bind].
    rewrite (predecessors_eq (tree2 st) x HT'), N.
    pose proof Hx as Hm. apply mem_In in Hm. rewrite Hm. cbn [bind].
    rewrite (same_shape_preds T0 (tree2 st) x HS).
    destruct (preds T0 x) as [|p ps] eqn:Ep; [now destruct (Hpar Exr)|].
    cbn [first bind].
    assert (Hp : In x (adj (tree2 st) p)).
    { rewrite A. apply (wf_sym T0 HT). rewrite Ep. now left. }
    destruct (set_label_ok (tree2 st) p x (size_of T0 x) Hp) as [T' ET'].
    rewrite ET'. cbn [bind tree2 labels tiles].
    pose proof (set_label_shape _ _ _ _ _ ET') as HS'.
    pose proof (same_shape_trans _ _ _ HS HS') as HS0.
    rewrite (tile_of_shape T0 T' x HS0), Etile. cbn [bind].
    exists T'. split; [reflexivity|]. split; [assumption|]. split.
    + intros a b Hb. rewrite (edge_data_set_label _ _ _ _ _ a b ET').
      destruct (Z.eqb b x) eqn:Eb; [apply Z.eqb_eq in Eb; contradiction|].
      now rewrite andb_false_r.
    + intros q _ [= <-]. rewrite (edge_data_set_label _ _ _ _ _ p x ET').
      now rewrite !Z.eqb_refl.
Qed.

(** The loop over a list of distinct nodes. *)
Lemma alg2_loop_spec xs :
  NoDup xs -> incl xs (nodes T0) ->
  (forall x, In x xs -> x <> root -> preds T0 x <> []) ->
  forall st,
    same_shape T0 (tree2 st) -> NoDup (labels st) -> NoDup (tiles st) ->
    exists st',
      foldM (alg2_body root) xs st = Ok st' /\
      same_shape T0 (tree2 st') /\
      NoDup (labels st') /\ NoDup (tiles st') /\
      (forall k, In k (labels st') <->
                 In k (labels st)
                 \/ exists x, In x xs /\ x <> root /\ size_of T0 x = k) /\
      (forall tile, In tile (tiles st') <->
                    In tile (tiles st)
                    \/ exists x, In x xs /\ sig_of T0 x = tile) /\
      (forall x p, In x xs -> x <> root -> first (preds T0 x) = Ok p ->
                   edge_data (tree2 st') p x = Ok (Some (size_of T0 x))) /\
      (forall a b, ~ In b xs ->
                   edge_data (tree2 st') a b = edge_data (tree2 st) a b) /\
      length (labels st')
      <= length (labels st)
         + length (filter (fun x => negb (Z.eqb x root)) xs).
Proof.
  induction xs as [|x xs IH]; intros Hnd Hin Hpar st HS NL NT.
  - exists st. cbn [foldM]. split; [reflexivity|]. split; [assumption|].
    split; [assumption|]. split; [assumption|].
    split; [intros k; split; [tauto | intros [H|[x [[] _]]]; exact H]|].
    split; [intros k; split; [tauto | intros [H|[x [[] _]]]; exact H]|].
    split; [intros x p []|]. split; [reflexivity | simpl; lia].
  - inversion Hnd as [|? ? Hx Hnd']; subst.
    assert (Hxn : In x (nodes T0)) by (apply Hin; now left).
    destruct (alg2_body_spec st x HS Hxn (Hpar x (or_introl eq_refl)))
      as [T' [E1 [HS1 [F1 L1]]]].
    set (st1 := mk_alg2 T'
                  (if Z.eqb x root then labels st
                   else add_nat (size_of T0 x) (labels st))
                  (add_tile (sig_of T0 x) (tiles st))) in *.
    assert (NL1 : NoDup (labels st1)).
    { cbn [labels st1]. destruct (Z.eqb x root); [assumption|].
      now apply NoDup_add_nat. }
    assert (NT1 : NoDup (tiles st1)) by now apply NoDup_add_tile.
    destruct (IH Hnd' (fun y Hy => Hin y (or_intror Hy))
                 (fun y Hy => Hpar y (or_intror Hy)) st1 HS1 NL1 NT1)
      as [st' [E2 [HS2 [NL2 [NT2 [LB [TL [ED [FR LEN]]]]]]]]].
    exists st'. cbn [foldM]. rewrite E1. cbn [bind].
    split; [exact E2|]. split; [assumption|]. split; [assumption|].
    split; [assumption|]. split; [|split; [|split; [|split]]].
    + intros k. rewrite LB. cbn [labels st1].
      destruct (Z.eqb x root) eqn:Exr.
      * apply Z.eqb_eq in Exr. split.
        -- intros [H|[y [Hy [Hyr Hk]]]]; [now left|].
           right. exists y. split; [now right | now split].
        -- intros [H|[y [[<- |Hy] [Hyr Hk]]]]; [now left | contradiction|].
           right. exists y. now repeat split.
      * apply Z.eqb_neq in Exr. rewrite In_add_nat. split.
        -- intros [[H| ->]|[y [Hy [Hyr Hk]]]]; [now left | |].
           ++ right. exists x. split; [now left | now split].
           ++ right. exists y. split; [now right | now split].
        -- intros [H|[y [[<- |Hy] [Hyr Hk]]]]; [tauto | |].
           ++ left. right. now symmetry.
           ++ right. exists y. now repeat split.
    + intros tile. rewrite TL. cbn [tiles st1]. rewrite In_add_tile. split.
      * intros [[H| ->]|[y [Hy Hk]]]; [now left | |].
        -- right. exists x. split; [now left | reflexivity].
        -- right. exists y. split; [now right | assumption].
      * intros [H|[y [[<- |Hy] Hk]]]; [tauto | |].
        -- left. right. now symmetry.
        -- right. exists y. now split.
    + intros y p [<- |Hy] Hyr Hp.
      * rewrite (FR p x Hx). cbn [tree2 st1]. now apply L1.
      * now apply ED.
    + intros a b Hb. rewrite (FR a b) by (intros H; apply Hb; now right).
      cbn [tree2 st1]. apply F1. intros ->. apply Hb. now left.
    + cbn [filter]. cbn [labels st1] in LEN.
      destruct (Z.eqb x root); cbn [negb length].
      * lia.
      * pose proof (length_add_nat (size_of T0 x) (labels st)). lia.
Qed.

End Loop.

(** The whole of [alg2] on a graph whose orientation is a rooted tree. *)
Lemma alg2_run_spec G T r :
  LSO G = Ok T -> rooted_tree T r ->
  exists st,
    alg2_run G = Ok st /\
    same_shape T (tree2 st) /\
    NoDup (labels st) /\ NoDup (tiles st) /\
    (forall k, In k (labels st) <->
               exists x, In x (nodes T) /\ x <> r /\ has_size T x k) /\
    (forall tile, In tile (tiles st) <->
                  exists x, In x (nodes T) /\ has_signature T x tile) /\
    (forall x p, In x (nodes T) -> x <> r -> In p (preds T x) ->
                 exists k, has_size T x k /\
                           edge_data (tree2 st) p x = Ok (Some k)) /\
    S (length (labels st)) <= length (nodes T).
Proof.
  intros HL HR. pose proof (rt_wf T r HR) as HT.
  pose proof (rt_root T r HR) as Hr.
  destruct (dfs_spec T r HT Hr) as [s [Es [[Nv Cv] [Pf _]]]].
  assert (Hmem : forall x, In x (finished s) <-> In x (nodes T)).
  { intros x. split.
    - intros Hx. apply (Permutation_in _ Pf) in Hx. apply Cv in Hx.
      eapply dreach_In_nodes; eassumption.
    - intros Hx. apply (Permutation_in _ (Permutation_sym Pf)).
      apply Cv. now apply (rt_reach T r HR). }
  assert (Nf : NoDup (finished s)).
  { eapply Permutation_NoDup; [apply Permutation_sym; exact Pf | exact Nv]. }
  assert (Hpar : forall x, In x (finished s) -> x <> r -> preds T x <> []).
  { intros x Hx Hxr. apply Hmem in Hx.
    pose proof (rt_degree T r HR x Hx Hxr) as H1. unfold in_degree in H1.
    intros E. rewrite E in H1. discriminate. }
  destruct (alg2_loop_spec T r HT (finished s) Nf
              (fun x Hx => proj1 (Hmem x) Hx) Hpar
              (mk_alg2 T [] []) (same_shape_refl T)
              (NoDup_nil _) (NoDup_nil _))
    as [st [E [HS [NL [NT [LB [TL [ED [_ LEN]]]]]]]]].
  exists st. split; [|split; [assumption|split; [assumption|split;
    [assumption|split; [|split; [|split]]]]]].
  - unfold alg2_run. rewrite HL. cbn [bind].
    rewrite (find_root_rooted T r HR). unfold dfs_postorder_nodes.
    rewrite Es. cbn [bind]. exact E.
  - intros k. rewrite LB. cbn [labels]. split.
    + intros [[]|[x [Hx [Hxr <-]]]]. exists x. apply Hmem in Hx.
      split; [assumption|]. split; [assumption|].
      now apply size_of_spec.
    + intros [x [Hx [Hxr Hk]]]. right. exists x.
      split; [now apply Hmem|]. split; [assumption|].
      apply (has_size_unique T x); [now apply size_of_spec | assumption].
  - intros tile. rewrite TL. cbn [tiles]. split.
    + intros [[]|[x [Hx <-]]]. exists x. apply Hmem in Hx.
      split; [assumption | now apply sig_of_spec].
    + intros [x [Hx Hk]]. right. exists x. split; [now apply Hmem|].
      apply (has_signature_unique T x); [now apply sig_of_spec | assumption].
  - intros x p Hx Hxr Hp. exists (size_of T x).
    split; [now apply size_of_spec|]. apply ED; trivial; [now apply Hmem|].
    pose proof (rt_degree T r HR x Hx Hxr) as H1. unfold in_degree in H1.
    destruct (preds T x) as [|q [|q' l]]; try discriminate.
    destruct Hp as [<- |[]]. reflexivity.
  - cbn [labels length] in LEN.
    assert (Hlt : length (filter (fun x => negb (Z.eqb x r)) (finished s))
                  < length (finished s)).
    { assert (Hrf : In r (finished s)) by now apply Hmem.
      clear - Hrf. induction (finished s) as [|a l IH]; [contradiction|].
      cbn [filter]. destruct (Z.eqb a r) eqn:E; cbn [negb length].
      - apply Nat.lt_succ_r. apply filter_length_le.
      - destruct Hrf as [-> |H]; [rewrite Z.eqb_refl in E; discriminate|].
        apply IH in H. lia. }
    assert (Hle : length (finished s) <= length (nodes T)).
    { apply NoDup_incl_length; [assumption|]. intros x. apply Hmem. }
    lia.
Qed.

(** [alg2] returns counts whenever the root it finds is a node of the
    orientation. *)
Lemma alg2_total G T :
  GraphSpec.wf G -> LSO G = Ok T -> In (find_root T) (nodes T) ->
  exists st,
    alg2_run G = Ok st /\
    alg2 G = Ok (length (labels st), length (tiles st)).
Proof.
  intros Hwf HL Hr.
  destruct (TreeFacts.LSO_digraph G T Hwf HL) as [HT _].
  destruct (dfs_spec T (find_root T) HT Hr) as [s [Es [[Nv Cv] [Pf _]]]].
  assert (Hreach : forall x, In x (finished s) -> reach T (find_root T) x).
  { intros x Hx. apply Cv. eapply Permutation_in; eassumption. }
  assert (Nf : NoDup (finished s)).
  { eapply Permutation_NoDup; [apply Permutation_sym; exact Pf | exact Nv]. }
  assert (Hin : incl (finished s) (nodes T)).
  { intros x Hx. eapply dreach_In_nodes; [exact HT | exact Hr|]. now apply Hreach. }
  assert (Hpar : forall x, In x (finished s) -> x <> find_root T ->
                           preds T x <> []).
  { intros x Hx Hxr. apply Hreach in Hx.
    inversion Hx as [E|b c Hb Hc E]; [congruence|]. subst.
    apply (wf_sym T HT) in Hc. intros E. now rewrite E in Hc. }
  destruct (alg2_loop_spec T (find_root T) HT (finished s) Nf Hin Hpar
              (mk_alg2 T [] []) (same_shape_refl T)
              (NoDup_nil _) (NoDup_nil _))
    as [st [E _]].
  assert (Hrun : alg2_run G = Ok st).
  { unfold alg2_run. rewrite HL. cbn [bind]. unfold dfs_postorder_nodes.
    rewrite Es. cbn [bind]. exact E. }
  exists st. split; [exact Hrun|]. unfold alg2. now rewrite Hrun.
Qed.

End Alg2Facts.

(** ** Rooted trees have no cycle, a leaf, and a child of the root *)

Module RootedFacts.
Import DiGraph DiGraphSpec DiGraphFacts DfsFacts SizeTileFacts Invariants.

Section Rooted.

Variable T : t.
Variable r : node.
Hypothesis HR : rooted_tree T r.

Let HT : wf T := rt_wf T r HR.

Lemma pred_unique y a b : In y (adj T a) -> In y (adj T b) -> a = b.
Proof.
  intros Ha Hb. pose proof (wf_closed T HT a y Ha) as [_ Hy].
  apply (wf_sym T HT) in Ha, Hb.
  destruct (Z.eq_dec y r) as [-> |Hyr].
  - pose proof (rt_root_degree T r HR) as H0. unfold in_degree in H0.
    destruct (preds T r); [contradiction | discriminate].
  - pose proof (rt_degree T r HR y Hy Hyr) as H1. unfold in_degree in H1.
    destruct (preds T y) as [|p [|q l]]; try discriminate.
    destruct Ha as [<- |[]], Hb as [<- |[]]. reflexivity.
Qed.

Lemma on_cycle_pred y b : on_cycle T y -> In y (adj T b) -> on_cycle T b.
Proof.
  intros [z [Hz Hyz]] Hb. rewrite (pred_unique y z b Hz Hb) in *. clear z Hz.
  inversion Hyz as [E|b' b'' Hb' Hbb E]; subst.
  - exists b. split; [assumption | constructor].
  - exists b'. split; [assumption|].
    apply (reach_first T b y b' Hb Hb').
Qed.

Lemma no_cycle y : reach T r y -> on_cycle T y -> False.
Proof.
  induction 1 as [|b c Hb IH Hc]; intros Hcyc.
  - destruct Hcyc as [z [Hz _]]. apply (wf_sym T HT) in Hz.
    pose proof (rt_root_degree T r HR) as H0. unfold in_degree in H0.
    destruct (preds T r); [contradiction | discriminate].
  - apply IH. now apply (on_cycle_pred c b).
Qed.

(** The subtree of a child is smaller than the subtree of its parent. *)
Lemma child_smaller x c k kc :
  In c (adj T x) -> has_size T x k -> has_size T c kc -> kc < k.
Proof.
  intros Hc [lx [[Nx Cx] <-]] [lc [[Nc Cc] <-]].
  pose proof (wf_closed T HT x c Hc) as [_ Hcn].
  change (length (x :: lc) <= length lx). apply NoDup_incl_length.
  - constructor; [|assumption]. intros Hx. apply Cc in Hx.
    apply (no_cycle c); [now apply (rt_reach T r HR)|].
    now exists x.
  - intros y [<- |Hy]; apply Cx; [constructor|].
    apply (reach_first T x c y Hc). now apply Cc.
Qed.

Lemma leaf_below (k : nat) :
  forall x kx, In x (nodes T) -> has_size T x kx -> kx <= k ->
  exists l, In l (nodes T) /\ adj T l = [].
Proof.
  induction k as [|k IH]; intros x kx Hx Hk Hle.
  - exfalso. destruct Hk as [lx [[_ Cx] <-]].
    assert (H : In x lx) by (apply Cx; constructor).
    destruct lx; [contradiction | simpl in Hle; lia].
  - destruct (adj T x) as [|c cs] eqn:Ea; [now exists x|].
    assert (Hc : In c (adj T x)) by (rewrite Ea; now left).
    pose proof (wf_closed T HT x c Hc) as [_ Hcn].
    destruct (subtree_size_spec T c HT Hcn) as [kc [_ Hkc]].
    pose proof (child_smaller x c kx kc Hc Hk Hkc).
    apply (IH c kc Hcn Hkc). lia.
Qed.

Lemma leaf_exists : exists l, In l (nodes T) /\ adj T l = [].
Proof.
  pose proof (rt_root T r HR) as Hr.
  destruct (subtree_size_spec T r HT Hr) as [k [_ Hk]].
  exact (leaf_below k r k Hr Hk (Nat.le_refl k)).
Qed.

Lemma root_has_child : 2 <= length (nodes T) -> adj T r <> [].
Proof.
  intros Hn.
  assert (Hy : exists y, In y (nodes T) /\ y <> r).
  { destruct (nodes T) as [|a [|b l]] eqn:E; simpl in Hn; try lia.
    pose proof (wf_nodes T HT) as Hnd. rewrite E in Hnd.
    destruct (Z.eq_dec a r) as [-> |Ha].
    - exists b. split; [simpl; tauto|]. intros ->.
      inversion Hnd as [|? ? H _]. apply H. now left.
    - exists a. split; [now left | assumption]. }
  destruct Hy as [y [Hy Hyr]].
  pose proof (rt_reach T r HR y Hy) as Hreach.
  induction Hreach as [|b c Hb IH Hc]; [congruence|].
  destruct (Z.eq_dec b r) as [-> |Hbr].
  - intros E. rewrite E in Hc. contradiction.
  - apply IH; [|assumption]. apply (wf_closed T HT b c Hc).
Qed.

End Rooted.

Lemma two_distinct {A : Type} (l : list A) a b :
  In a l -> In b l -> a <> b -> 2 <= length l.
Proof.
  destruct l as [|x [|y l]]; simpl; intros Ha Hb Hab; try lia;
    try contradiction.
  destruct Ha as [<- |[]], Hb as [<- |[]]. congruence.
Qed.

(** A rooted tree with two nodes or more has two tiles or more: the empty
    tile of a leaf and the tile of the root, which is not empty. *)
Lemma two_tiles T r (tiles : list (list nat)) :
  rooted_tree T r -> 2 <= length (nodes T) ->
  (forall tile, In tile tiles <->
                exists x, In x (nodes T) /\ has_signature T x tile) ->
  (exists l, In l (nodes T) /\ adj T l = [] /\ In [] tiles) /\
  (exists tile, has_signature T r tile /\ tile <> [] /\ In tile tiles) /\
  2 <= length tiles.
Proof.
  intros HR Hn Htiles. pose proof (rt_wf T r HR) as HT.
  destruct (leaf_exists T r HR) as [l [Hl El]].
  destruct (tile_of_spec T r HT (rt_root T r HR)) as [tr [_ Hr]].
  assert (H0 : In [] tiles).
  { apply Htiles. exists l. split; [assumption|]. left. now split. }
  assert (H1 : In tr tiles).
  { apply Htiles. exists r. split; [apply (rt_root T r HR) | assumption]. }
  assert (H2 : tr <> []).
  { intros ->. destruct Hr as [[E _]|[_ [c [ks [[_ Cc] [F [_ P]]]]]]].
    - now apply (root_has_child T r HR Hn).
    - apply Permutation_nil in P. subst ks. inversion F. subst c.
      apply (Cc r). constructor. }
  split; [now exists l|]. split; [now exists tr|].
  apply (two_distinct tiles [] tr); trivial. congruence.
Qed.

End RootedFacts.

(** ** The loops of scenario 3 *)

Module Alg3Facts.
Import DiGraph DiGraphSpec DiGraphFacts DfsFacts SizeTileFacts LabelFacts Invariants.

Lemma next_vertices_shape T T' queue seen :
  (forall u, adj T' u = adj T u) ->
  next_vertices T' queue seen = next_vertices T queue seen.
Proof.
  intros HA. unfold next_vertices. apply fold_left_ext.
  intros st v. now rewrite HA.
Qed.

Lemma layer_at_shape T T' d queue seen :
  (forall u, adj T' u = adj T u) ->
  layer_at d T' queue seen = layer_at d T queue seen.
Proof.
  intros HA. revert queue seen. induction d as [|d IH]; intros queue seen.
  - reflexivity.
  - cbn [layer_at]. destruct queue; [reflexivity|].
    rewrite (next_vertices_shape T T' _ _ HA). apply IH.
Qed.

Lemma descendants_at_distance_shape T T' x d :
  same_shape T T' ->
  descendants_at_distance T' x d = descendants_at_distance T x d.
Proof.
  intros [N [A _]]. unfold descendants_at_distance. rewrite N.
  destruct (mem x (nodes T)); [|reflexivity].
  now rewrite (layer_at_shape T T').
Qed.

Lemma dfs_tree_shape T T' x : same_shape T T' -> dfs_tree T' x = dfs_tree T x.
Proof. intros HS. unfold dfs_tree. now rewrite (dfs_shape T T'). Qed.

Lemma dfs_tree_ok T x :
  wf T -> In x (nodes T) -> exists sub, dfs_tree T x = Ok sub.
Proof.
  intros HT Hx. destruct (dfs_spec T x HT Hx) as [s [E _]].
  unfold dfs_tree. rewrite E. cbn [bind]. now eexists.
Qed.

Section Leaves.

Variable T0 : t.
Hypothesis HT : wf T0.

(** The first loop, one node. *)
Lemma label_leaf_spec Tc x :
  same_shape T0 Tc -> In x (nodes T0) ->
  exists T',
    label_leaf Tc x = Ok T' /\ same_shape T0 T' /\
    (forall a b, b <> x -> edge_data T' a b = edge_data Tc a b) /\
    (if leafb T0 x
     then forall p, In p (preds T0 x) -> edge_data T' p x = Ok (Some 1)
     else T' = Tc).
Proof.
  intros HS Hx. pose proof (same_shape_wf _ _ HS HT) as HT'.
  pose proof HS as [N [A P]]. unfold label_leaf, leafb.
  unfold out_degree, in_degree. rewrite A, (same_shape_preds T0 Tc x HS).
  destruct ((length (adj T0 x) =? 0) && (length (preds T0 x) =? 1)) eqn:E.
  - apply andb_true_iff in E. destruct E as [_ E]. apply Nat.eqb_eq in E.
    rewrite (predecessors_eq Tc x HT'), N.
    pose proof Hx as Hm. apply mem_In in Hm. rewrite Hm. cbn [bind].
    rewrite (same_shape_preds T0 Tc x HS).
    destruct (preds T0 x) as [|p [|q l]] eqn:Ep; try discriminate.
    cbn [first bind].
    assert (Hp : In x (adj Tc p)).
    { rewrite A. apply (wf_sym T0 HT). rewrite Ep. now left. }
    destruct (set_label_ok Tc p x 1 Hp) as [T' ET']. exists T'.
    split; [exact ET'|].
    split; [exact (same_shape_trans _ _ _ HS (set_label_shape _ _ _ _ _ ET'))|].
    split.
    + intros a b Hb. rewrite (edge_data_set_label _ _ _ _ _ a b ET').
      destruct (Z.eqb b x) eqn:Eb; [apply Z.eqb_eq in Eb; contradiction|].
      now rewrite andb_false_r.
    + intros q [<- |[]]. rewrite (edge_data_set_label _ _ _ _ _ p x ET').
      now rewrite !Z.eqb_refl.
  - exists Tc. split; [reflexivity|]. split; [assumption|].
    split; reflexivity.
Qed.

(** The first loop. *)
Lemma label_leaves_spec xs :
  NoDup xs -> incl xs (nodes T0) ->
  forall Tc,
    same_shape T0 Tc ->
    exists T1,
      foldM label_leaf xs Tc = Ok T1 /\ same_shape T0 T1 /\
      (forall x p, In x xs -> leafb T0 x = true -> In p (preds T0 x) ->
                   edge_data T1 p x = Ok (Some 1)) /\
      (forall a b, ~ (In b xs /\ leafb T0 b = true) ->
                   edge_data T1 a b = edge_data Tc a b).
Proof.
  induction xs as [|x xs IH]; intros Hnd Hin Tc HS.
  - exists Tc. split; [reflexivity|]. split; [assumption|].
    split; [intros x p [] | reflexivity].
  - inversion Hnd as [|? ? Hx Hnd']; subst.
    destruct (label_leaf_spec Tc x HS (Hin x (or_introl eq_refl)))
      as [T' [E1 [HS1 [F1 L1]]]].
    destruct (IH Hnd' (fun y Hy => Hin y (or_intror Hy)) T' HS1)
      as [T1 [E2 [HS2 [L2 F2]]]].
    exists T1. cbn [foldM]. rewrite E1. cbn [bind].
    split; [exact E2|]. split; [assumption|]. split.
    + intros y p [<- |Hy] Hleaf Hp; [|now apply L2].
      rewrite F2 by tauto. rewrite Hleaf in L1. now apply L1.
    + intros a b Hb.
      rewrite F2 by (intros [H1 H2]; apply Hb; split; [now right | exact H2]).
      destruct (Z.eq_dec b x) as [-> |Hbx]; [|now apply F1].
      destruct (leafb T0 x) eqn:El; [|now rewrite L1].
      exfalso. apply Hb. split; [now left | reflexivity].
Qed.

End Leaves.

Section Scenario3.

Variable is_isomorphic : t -> t -> bool.
Variable T0 : t.
Hypothesis HT : wf T0.

(** The inner loop, one node [l] with a predecessor [p]: the shape of the
    subtree of [l] joins the seen shapes, and the counter grows, with a
    new label for the edge into [l], exactly when none of the seen shapes
    is isomorphic to it and the edge has no label yet. *)
Lemma alg3_body_spec st l p ps :
  same_shape T0 (tree3 st) -> In l (nodes T0) -> preds T0 l = p :: ps ->
  exists sub d,
    dfs_tree T0 l = Ok sub /\ edge_data (tree3 st) p l = Ok d /\
    exists T',
      alg3_body is_isomorphic st l
      = Ok (mk_alg3 T'
              (if negb (existsb (is_isomorphic sub) (subgraphs st))
                  && match d with None => true | Some _ => false end
               then j st + 1 else j st)
              (subgraphs st ++ [sub])) /\
      same_shape T0 T' /\
      (forall a b, b <> l -> edge_data T' a b = edge_data (tree3 st) a b) /\
      (if negb (existsb (is_isomorphic sub) (subgraphs st))
          && match d with None => true | Some _ => false end
       then edge_data T' p l = Ok (Some (j st + 1))
       else T' = tree3 st).
Proof.
  intros HS Hl Ep. pose proof (same_shape_wf _ _ HS HT) as HT'.
  pose proof HS as [N [A P]].
  destruct (dfs_tree_ok T0 l HT Hl) as [sub Esub].
  assert (Hp : In l (adj (tree3 st) p)).
  { rewrite A. apply (wf_sym T0 HT). rewrite Ep. now left. }
  destruct (edge_data_ok (tree3 st) p l Hp) as [d Ed].
  exists sub, d. split; [exact Esub|]. split; [exact Ed|].
  assert (Hun : unlabelled (tree3 st) l
                = Ok (match d with None => true | Some _ => false end)).
  { unfold unlabelled. rewrite (predecessors_eq (tree3 st) l HT'), N.
    pose proof Hl as Hm. apply mem_In in Hm. rewrite Hm. cbn [bind].
    rewrite (same_shape_preds T0 (tree3 st) l HS), Ep. cbn [first bind].
    rewrite Ed. reflexivity. }
  destruct (set_label_ok (tree3 st) p l (j st + 1) Hp) as [T' ET'].
  assert (Hnew : new_label st l = Ok (mk_alg3 T' (j st + 1) (subgraphs st))).
  { unfold new_label. rewrite (predecessors_eq (tree3 st) l HT'), N.
    pose proof Hl as Hm. apply mem_In in Hm. rewrite Hm. cbn [bind].
    rewrite (same_shape_preds T0 (tree3 st) l HS), Ep. cbn [first bind].
    rewrite ET'. reflexivity. }
  pose proof (same_shape_trans _ _ _ HS (set_label_shape _ _ _ _ _ ET')) as HS'.
  assert (Hstep :
    match subgraphs st with
    | [] =>
        b <- unlabelled (tree3 st) l ;;
        (if b then new_label st l else Ok st)
    | _ =>
        sub0 <- dfs_tree (tree3 st) l ;;
        (if existsb (is_isomorphic sub0) (subgraphs st) then Ok st
         else b <- unlabelled (tree3 st) l ;;
              (if b then new_label st l else Ok st))
    end
    = if negb (existsb (is_isomorphic sub) (subgraphs st))
         && match d with None => true | Some _ => false end
      then Ok (mk_alg3 T' (j st + 1) (subgraphs st))
      else Ok st).
  { destruct (subgraphs st) as [|s0 ss] eqn:Es.
    - rewrite Hun. cbn [bind existsb negb andb].
      destruct d; [reflexivity | exact Hnew].
    - rewrite (dfs_tree_shape T0 (tree3 st) l HS), Esub. cbn [bind].
      destruct (existsb (is_isomorphic sub) (s0 :: ss)); [reflexivity|].
      rewrite Hun. cbn [bind negb andb].
      destruct d; [reflexivity | exact Hnew]. }
  unfold alg3_body. rewrite Hstep.
  destruct (negb (existsb (is_isomorphic sub) (subgraphs st))
            && match d with None => true | Some _ => false end).
  - cbn [bind tree3 j subgraphs].
    rewrite (dfs_tree_shape T0 T' l HS'), Esub. cbn [bind].
    exists T'. split; [reflexivity|]. split; [assumption|]. split.
    + intros a b Hb. rewrite (edge_data_set_label _ _ _ _ _ a b ET').
      destruct (Z.eqb b l) eqn:Eb; [apply Z.eqb_eq in Eb; contradiction|].
      now rewrite andb_false_r.
    + rewrite (edge_data_set_label _ _ _ _ _ p l ET').
      now rewrite !Z.eqb_refl.
  - cbn [bind]. rewrite (dfs_tree_shape T0 (tree3 st) l HS), Esub.
    cbn [bind]. exists (tree3 st). split; [reflexivity|].
    split; [assumption|]. split; reflexivity.
Qed.

(** The inner loop over nodes that have a predecessor: it does not fail,
    every node adds one shape to the seen shapes, and the counter grows by
    at most one per node. *)
Lemma alg3_nodes_spec ls :
  incl ls (nodes T0) -> (forall l, In l ls -> preds T0 l <> []) ->
  forall st,
    same_shape T0 (tree3 st) ->
    exists st',
      foldM (alg3_body is_isomorphic) ls st = Ok st' /\
      same_shape T0 (tree3 st') /\
      length (subgraphs st') = length (subgraphs st) + length ls /\
      j st <= j st' <= j st + length ls.
Proof.
  induction ls as [|l ls IH]; intros Hin Hpar st HS.
  - exists st. split; [reflexivity|]. split; [assumption|]. simpl. lia.
  - destruct (preds T0 l) as [|p ps] eqn:Ep;
      [now destruct (Hpar l (or_introl eq_refl))|].
    destruct (alg3_body_spec st l p ps HS (Hin l (or_introl eq_refl)) Ep)
      as [sub [d [_ [_ [T' [E1 [HS1 _]]]]]]].
    match type of E1 with _ = Ok ?s => set (st1 := s) in * end.
    destruct (IH (fun y Hy => Hin y (or_intror Hy))
                 (fun y Hy => Hpar y (or_intror Hy)) st1 HS1)
      as [st' [E2 [HS2 [L2 J2]]]].
    exists st'. cbn [foldM]. rewrite E1. cbn [bind].
    split; [exact E2|]. split; [assumption|].
    cbn [subgraphs j st1] in L2, J2. rewrite length_app in L2.
    cbn [length] in *.
    destruct (negb _ && _) in J2; split; lia.
Qed.

End Scenario3.

(** *** The levels *)

Lemma next_vertices_parents T queue seen :
  forall y, In y (fst (next_vertices T queue seen)) -> has_parent T y.
Proof.
  unfold next_vertices.
  assert (H : forall vs st,
             (forall y, In y (fst st) -> has_parent T y) ->
             forall y,
               In y (fst (fold_left
                            (fun st vertex =>
                               fold_left
                                 (fun st child =>
                                    if mem child (snd st) then st
                                    else (fst st ++ [child], child :: snd st))
                                 (adj T vertex) st)
                            vs st)) ->
               has_parent T y).
  { induction vs as [|v vs IH]; intros st Hst; [exact Hst|].
    cbn [fold_left]. apply IH.
    assert (K : forall cs st0,
               (forall c, In c cs -> In c (adj T v)) ->
               (forall y, In y (fst st0) -> has_parent T y) ->
               forall y,
                 In y (fst (fold_left
                              (fun st child =>
                                 if mem child (snd st) then st
                                 else (fst st ++ [child], child :: snd st))
                              cs st0)) ->
                 has_parent T y).
    { induction cs as [|c cs IHc]; intros st0 Hcs H0; [exact H0|].
      cbn [fold_left]. apply IHc; [intros x Hx; apply Hcs; now right|].
      destruct (mem c (snd st0)); [exact H0|]. cbn [fst].
      intros y Hy. apply in_app_or in Hy. destruct Hy as [Hy|[<- |[]]];
        [now apply H0|].
      exists v. apply Hcs. now left. }
    apply K; [intros c Hc; exact Hc | exact Hst]. }
  apply H. intros y [].
Qed.

Lemma layer_at_parents T d :
  forall queue seen,
    (forall y, In y queue -> has_parent T y) ->
    forall y, In y (layer_at d T queue seen) -> has_parent T y.
Proof.
  induction d as [|d IH]; intros queue seen Hq y Hy.
  - destruct queue; [contradiction | now apply Hq].
  - cbn [layer_at] in Hy. destruct queue as [|q queue]; [contradiction|].
    apply (IH _ _ (next_vertices_parents T (q :: queue) seen) y Hy).
Qed.

(** The nodes at a distance of 1 or more have a predecessor. *)
Lemma descendants_have_parents T r i level :
  1 <= i -> descendants_at_distance T r i = Ok level ->
  forall y, In y level -> has_parent T y.
Proof.
  intros Hi. unfold descendants_at_distance.
  destruct (mem r (nodes T)); [|discriminate]. intros [= <-].
  destruct i as [|i]; [lia|]. cbn [layer_at].
  apply layer_at_parents. apply next_vertices_parents.
Qed.

Section Levels.

Variable is_isomorphic : t -> t -> bool.
Variable set_list : list node -> list node.
Variable T0 : t.
Variable r : node.
Hypothesis HT : wf T0.
Hypothesis Hr : In r (nodes T0).
Hypothesis Hset : forall l, incl (set_list l) l.

(** The outer loop over levels of 1 or more does not fail. *)
Lemma alg3_levels_spec lv :
  (forall i, In i lv -> 1 <= i) ->
  forall st,
    same_shape T0 (tree3 st) ->
    exists st',
      foldM (alg3_level is_isomorphic set_list r) lv st = Ok st' /\
      same_shape T0 (tree3 st') /\ j st <= j st'.
Proof.
  induction lv as [|i lv IH]; intros Hlv st HS.
  - exists st. split; [reflexivity|]. split; [assumption | lia].
  - assert (Hlevel : exists level,
               descendants_at_distance T0 r i = Ok level).
    { unfold descendants_at_distance. apply mem_In in Hr. rewrite Hr.
      now eexists. }
    destruct Hlevel as [level El].
    pose proof (descendants_have_parents T0 r i level
                  (Hlv i (or_introl eq_refl)) El) as Hpar.
    destruct (alg3_nodes_spec is_isomorphic T0 HT (set_list level)) with
      (st := st) as [st1 [E1 [HS1 [_ J1]]]]; trivial.
    + intros y Hy. apply Hset in Hy. destruct (Hpar y Hy) as [b Hb].
      apply (wf_closed T0 HT b y Hb).
    + intros y Hy. apply Hset in Hy. destruct (Hpar y Hy) as [b Hb].
      apply (wf_sym T0 HT) in Hb. intros E. now rewrite E in Hb.
    + destruct (IH (fun k Hk => Hlv k (or_intror Hk)) st1 HS1)
        as [st' [E2 [HS2 J2]]].
      assert (Elev : alg3_level is_isomorphic set_list r st i = Ok st1).
      { unfold alg3_level.
        rewrite (descendants_at_distance_shape T0 (tree3 st) r i HS), El.
        cbn [bind]. exact E1. }
      exists st'. cbn [foldM]. rewrite Elev. cbn [bind].
      split; [exact E2|]. split; [assumption | lia].
Qed.

End Levels.

Lemma levels_positive h i : In i (levels h) -> 1 <= i.
Proof.
  unfold levels. rewrite <- in_rev. intros H. apply in_seq in H. lia.
Qed.

(** *** The topological sort of a rooted tree *)

Section Topological.

Variable T : t.
Variable r : node.
Hypothesis HR : rooted_tree T r.

Let HT : wf T := rt_wf T r HR.

Lemma ready_exists todo done :
  (forall x, In x (nodes T) -> In x todo \/ In x done) ->
  incl todo (nodes T) -> todo <> [] ->
  exists y, In y todo /\ ready T done y = true.
Proof.
  intros Hall Hin Hne.
  assert (K : forall x, reach T r x -> In x todo ->
                        exists y, In y todo /\ ready T done y = true).
  { induction 1 as [|b c Hb IH Hc]; intros Hx.
    - exists r. split; [assumption|]. unfold ready.
      pose proof (rt_root_degree T r HR) as H0. unfold in_degree in H0.
      destruct (preds T r); [reflexivity | discriminate].
    - pose proof (wf_closed T HT b c Hc) as [Hbn Hcn].
      destruct (Hall b Hbn) as [Hbt|Hbd]; [now apply IH|].
      exists c. split; [assumption|]. unfold ready.
      apply forallb_forall. intros p Hp. apply mem_In.
      apply (wf_sym T HT) in Hp.
      now rewrite (RootedFacts.pred_unique T r HR c p b Hp Hc). }
  destruct todo as [|x todo]; [congruence|].
  apply (K x); [|now left].
  apply (rt_reach T r HR). apply Hin. now left.
Qed.

Lemma filter_drops {A : Type} (f : A -> bool) (l : list A) (y : A) :
  In y l -> f y = false -> length (filter f l) < length l.
Proof.
  induction l as [|a l IH]; [contradiction|]. cbn [filter].
  intros [-> |Hy] Hf.
  - rewrite Hf. cbn [length]. apply Nat.lt_succ_r. apply filter_length_le.
  - specialize (IH Hy Hf). destruct (f a); cbn [length]; lia.
Qed.

Lemma topological_sort_from_ok fuel :
  forall todo done,
    (forall x, In x (nodes T) -> In x todo \/ In x done) ->
    incl todo (nodes T) -> length todo <= fuel ->
    exists order, topological_sort_from fuel T todo done = Ok order.
Proof.
  induction fuel as [|fuel IH]; intros todo done Hall Hin Hlen.
  - destruct todo; [now eexists | simpl in Hlen; lia].
  - destruct todo as [|x todo]; [now eexists|].
    change (exists order,
              match filter (ready T done) (x :: todo) with
              | [] => Raise NetworkXUnfeasible
              | g :: gen =>
                  topological_sort_from fuel T
                    (filter (fun z => negb (ready T done z)) (x :: todo))
                    (done ++ g :: gen)
              end = Ok order).
    destruct (ready_exists (x :: todo) done Hall Hin) as [y [Hy Hry]];
      [discriminate|].
    destruct (filter (ready T done) (x :: todo)) as [|g gen] eqn:Eg.
    + exfalso. assert (Hf : In y (filter (ready T done) (x :: todo)))
        by (apply filter_In; now split).
      rewrite Eg in Hf. contradiction.
    + apply IH.
      * intros z Hz. destruct (Hall z Hz) as [Hzt|Hzd].
        -- destruct (ready T done z) eqn:Ez.
           ++ right. apply in_or_app. right. rewrite <- Eg.
              apply filter_In. now split.
           ++ left. apply filter_In. split; [assumption|]. now rewrite Ez.
        -- right. apply in_or_app. now left.
      * intros z Hz. apply filter_In in Hz. apply Hin. apply Hz.
      * assert (Hlt : length (filter (fun z => negb (ready T done z)) (x :: todo))
                      < length (x :: todo)).
        { apply (filter_drops _ _ y Hy). now rewrite Hry. }
        lia.
Qed.

(** The height of a rooted tree is computed without error. *)
Lemma dag_longest_path_length_ok :
  exists h, dag_longest_path_length T = Ok h.
Proof.
  unfold dag_longest_path_length, topological_sort.
  destruct (topological_sort_from_ok (length (nodes T)) (nodes T) [])
    as [order E].
  - intros x Hx. now left.
  - apply incl_refl.
  - lia.
  - rewrite E. cbn [bind]. now eexists.
Qed.

End Topological.

(** *** The nodes at a distance from the root of a rooted tree *)

Lemma next_children (cs : list node) :
  forall st,
    let st' := fold_left
                 (fun st child =>
                    if mem child (snd st) then st
                    else (fst st ++ [child], child :: snd st))
                 cs st in
    (forall y, In y (fst st') <->
               In y (fst st) \/ (In y cs /\ ~ In y (snd st))) /\
    (forall y, In y (snd st') <-> In y (snd st) \/ In y cs).
Proof.
  induction cs as [|c cs IH]; intros st; cbv zeta.
  - cbn [fold_left]. split; intros y; simpl; tauto.
  - cbn [fold_left]. destruct (IH (if mem c (snd st) then st
                                   else (fst st ++ [c], c :: snd st)))
      as [H1 H2].
    cbv zeta in H1, H2. split; intros y.
    + rewrite H1. destruct (mem c (snd st)) eqn:E.
      * apply mem_In in E. simpl. split; [tauto|].
        intros [H|[[<- |H] Hn]]; tauto.
      * apply mem_false in E. cbn [fst snd]. rewrite in_app_iff. simpl.
        split.
        -- intros [[H|[<- |[]]]|[H Hn]]; tauto.
        -- intros [H|[[<- |H] Hn]]; [tauto | tauto|].
           destruct (Z.eq_dec c y) as [-> |Hcy]; tauto.
    + rewrite H2. destruct (mem c (snd st)) eqn:E.
      * apply mem_In in E. simpl. split; [tauto|].
        intros [H|[<- |H]]; tauto.
      * cbn [snd]. simpl. tauto.
Qed.

Lemma next_vertices_spec T queue seen :
  (forall y, In y (fst (next_vertices T queue seen)) <->
             (exists b, In b queue /\ In y (adj T b)) /\ ~ In y seen) /\
  (forall y, In y (snd (next_vertices T queue seen)) <->
             In y seen \/ exists b, In b queue /\ In y (adj T b)).
Proof.
  unfold next_vertices.
  assert (H : forall vs st,
    let st' := fold_left
                 (fun st vertex =>
                    fold_left
                      (fun st child =>
                         if mem child (snd st) then st
                         else (fst st ++ [child], child :: snd st))
                      (adj T vertex) st)
                 vs st in
    (forall y, In y (fst st') <->
               In y (fst st)
               \/ ((exists b, In b vs /\ In y (adj T b)) /\ ~ In y (snd st))) /\
    (forall y, In y (snd st') <->
               In y (snd st) \/ exists b, In b vs /\ In y (adj T b))).
  { induction vs as [|v vs IH]; intros st; cbv zeta.
    - cbn [fold_left]. split; intros y.
      + split; [tauto|]. intros [H|[[b [[] _]] _]]. exact H.
      + split; [tauto|]. intros [H|[b [[] _]]]. exact H.
    - cbn [fold_left].
      destruct (next_children (adj T v) st) as [C1 C2].
      cbv zeta in C1, C2.
      destruct (IH (fold_left
                      (fun st child =>
                         if mem child (snd st) then st
                         else (fst st ++ [child], child :: snd st))
                      (adj T v) st)) as [H1 H2].
      cbv zeta in H1, H2. split; intros y.
      + rewrite H1, C1, C2. split.
        * intros [[H|[H Hn]]|[[b [Hb Hy]] Hn]].
          -- now left.
          -- right. split; [|assumption]. exists v. split; [now left | assumption].
          -- right. split; [|tauto]. exists b. split; [now right | assumption].
        * intros [H|[[b [[<- |Hb] Hy]] Hn]]; [tauto | tauto|].
          destruct (in_dec Z.eq_dec y (adj T v)) as [Hv|Hv]; [tauto|].
          right. split; [|tauto]. now exists b.
      + rewrite H2, C2. split.
        * intros [[H|H]|[b [Hb Hy]]]; [now left | |].
          -- right. exists v. split; [now left | assumption].
          -- right. exists b. split; [now right | assumption].
        * intros [H|[b [[<- |Hb] Hy]]]; [tauto | tauto|].
          right. now exists b. }
  destruct (H queue ([], seen)) as [H1 H2]. cbv zeta in H1, H2.
  cbn [fst snd] in H1, H2. split; intros y.
  - rewrite H1. simpl. tauto.
  - apply H2.
Qed.

Section Depth.

Variable T : t.
Variable r : node.
Hypothesis HR : rooted_tree T r.

Lemma root_no_pred b : ~ In r (adj T b).
Proof.
  intros H. apply (wf_sym T (rt_wf T r HR)) in H.
  pose proof (rt_root_degree T r HR) as H0. unfold in_degree in H0.
  destruct (preds T r); [contradiction | discriminate].
Qed.

(** In a rooted tree a node has one depth. *)
Lemma depth_unique d x :
  at_depth T r d x -> forall d', at_depth T r d' x -> d = d'.
Proof.
  induction 1 as [|d b c Hb IH Hc]; intros d' H'.
  - inversion H' as [|d0 b0 c0 Hb0 Hc0]; [reflexivity|].
    now destruct (root_no_pred b0).
  - inversion H' as [E1 E2|d0 b0 c0 Hb0 Hc0 E1 E2].
    + rewrite <- E2 in Hc. now destruct (root_no_pred b).
    + f_equal. apply IH.
      now rewrite (RootedFacts.pred_unique T r HR c b b0 Hc Hc0).
Qed.

Lemma depth_below k d y :
  at_depth T r (k + d) y -> exists z, at_depth T r k z.
Proof.
  revert y. induction d as [|d IH]; intros y.
  - rewrite Nat.add_0_r. now exists y.
  - rewrite Nat.add_succ_r. intros H.
    inversion H as [|d0 b c Hb Hc]. subst. now apply (IH b).
Qed.

(** [layer_at] moves from the nodes of one depth to the nodes further
    down. *)
Lemma layer_at_depth d :
  forall k queue seen,
    (forall y, In y queue <-> at_depth T r k y) ->
    (forall y, In y seen <-> exists n, n <= k /\ at_depth T r n y) ->
    forall y, In y (layer_at d T queue seen) <-> at_depth T r (k + d) y.
Proof.
  induction d as [|d IH]; intros k queue seen Hq Hs y.
  - rewrite Nat.add_0_r. rewrite <- Hq.
    destruct queue; [simpl; tauto | reflexivity].
  - destruct queue as [|q queue]; cbn [layer_at].
    + split; [intros []|]. intros H.
      destruct (depth_below k (S d) y H) as [z Hz]. now apply Hq in Hz.
    + rewrite Nat.add_succ_r, <- Nat.add_succ_l.
      destruct (next_vertices_spec T (q :: queue) seen) as [N1 N2].
      assert (Hnext : forall z, In z (fst (next_vertices T (q :: queue) seen))
                                <-> at_depth T r (S k) z).
      { intros z. rewrite N1. split.
        - intros [[b [Hb Hz]] _]. apply Hq in Hb.
          eapply depth_S; eassumption.
        - intros H. inversion H as [|d0 b c Hb Hc]. subst. split.
          + exists b. split; [now apply Hq | assumption].
          + intros Hz. apply Hs in Hz. destruct Hz as [n [Hn Hz]].
            pose proof (depth_unique _ _ H _ Hz). lia. }
      apply IH; [exact Hnext|].
      intros z. rewrite N2, Hs. split.
      * intros [[n [Hn Hz]]|[b [Hb Hz]]].
        -- exists n. split; [lia | assumption].
        -- exists (S k). split; [lia|]. apply Hq in Hb.
           eapply depth_S; eassumption.
      * intros [n [Hn Hz]]. destruct (Nat.eq_dec n (S k)) as [-> |Hne].
        -- right. apply Hnext in Hz. apply N1 in Hz. apply Hz.
        -- left. exists n. split; [lia | assumption].
Qed.

(** [descendants_at_distance] from the root of a rooted tree gives the
    nodes at that depth. *)
Lemma descendants_at_depth i :
  exists level,
    descendants_at_distance T r i = Ok level /\
    forall y, In y level <-> at_depth T r i y.
Proof.
  unfold descendants_at_distance. pose proof (rt_root T r HR) as Hr.
  apply mem_In in Hr. rewrite Hr. eexists. split; [reflexivity|].
  intros y. apply (layer_at_depth i 0 [r] [r]).
  - intros z. split.
    + intros [<- |[]]. constructor.
    + intros H. inversion H. now left.
  - intros z. split.
    + intros [<- |[]]. exists 0. split; [lia | constructor].
    + intros [n [Hn H]]. assert (n = 0) by lia. subst.
      inversion H. now left.
Qed.

End Depth.

(** *** The height *)

Section Height.

Variable T : t.
Variable r : node.
Hypothesis HR : rooted_tree T r.

Let HT : wf T := rt_wf T r HR.

Lemma preds_first_app done gen :
  preds_first T done ->
  (forall x, In x gen -> ready T done x = true) ->
  preds_first T (done ++ gen).
Proof.
  intros Hd Hg. revert done Hd Hg.
  induction gen as [|g gen IH]; intros done Hd Hg.
  - now rewrite app_nil_r.
  - change (done ++ g :: gen) with (done ++ [g] ++ gen).
    rewrite app_assoc. apply IH.
    + intros l1 x l2 E p Hp.
      destruct l2 as [|y l2 _] using rev_ind.
      * apply app_inj_tail in E. destruct E as [<- <-].
        assert (Hr : ready T done g = true) by (apply Hg; now left).
        unfold ready in Hr. rewrite forallb_forall in Hr.
        apply mem_In. now apply Hr.
      * change (l1 ++ x :: l2 ++ [y]) with (l1 ++ (x :: l2) ++ [y]) in E.
        rewrite app_assoc in E. apply app_inj_tail in E.
        destruct E as [E _]. now apply (Hd l1 x l2).
    + intros x Hx.
      assert (Hr : ready T done x = true) by (apply Hg; now right).
      unfold ready in *. rewrite forallb_forall in *.
      intros p Hp. apply mem_In. apply in_or_app. left.
      apply mem_In. now apply Hr.
Qed.

Lemma topological_sort_from_order fuel :
  forall todo done order,
    (forall x, In x (nodes T) -> In x todo \/ In x done) ->
    preds_first T done ->
    topological_sort_from fuel T todo done = Ok order ->
    preds_first T order /\ forall x, In x (nodes T) -> In x order.
Proof.
  induction fuel as [|fuel IH]; intros todo done order Hall Hd E.
  - destruct todo; [|discriminate]. injection E as <-.
    split; [assumption|]. intros x Hx.
    destruct (Hall x Hx) as [[]|H]. exact H.
  - destruct todo as [|y todo].
    + injection E as <-. split; [assumption|]. intros x Hx.
      destruct (Hall x Hx) as [[]|H]. exact H.
    + change (match filter (ready T done) (y :: todo) with
              | [] => Raise NetworkXUnfeasible
              | g :: gen =>
                  topological_sort_from fuel T
                    (filter (fun z => negb (ready T done z)) (y :: todo))
                    (done ++ g :: gen)
              end = Ok order) in E.
      destruct (filter (ready T done) (y :: todo)) as [|g gen] eqn:Eg;
        [discriminate|].
      apply IH in E; [exact E | |].
      * intros z Hz. destruct (Hall z Hz) as [Hzt|Hzd].
        -- destruct (ready T done z) eqn:Ez.
           ++ right. apply in_or_app. right. rewrite <- Eg.
              apply filter_In. now split.
           ++ left. apply filter_In. split; [assumption|]. now rewrite Ez.
        -- right. apply in_or_app. now left.
      * apply preds_first_app; [assumption|].
        intros x Hx. rewrite <- Eg in Hx. apply filter_In in Hx. apply Hx.
Qed.

(** The distances computed along the order are the depths. *)
Lemma longest_dist_depths order :
  forall l1 l2 dist,
    order = l1 ++ l2 -> preds_first T order ->
    map fst dist = l1 ->
    (forall v d, In (v, d) dist -> at_depth T r d v) ->
    incl l2 (nodes T) ->
    map fst (fold_left (longest_dist T) l2 dist) = order /\
    forall v d, In (v, d) (fold_left (longest_dist T) l2 dist) ->
                at_depth T r d v.
Proof.
  intros l1 l2. revert l1. induction l2 as [|v l2 IH];
    intros l1 dist E Hpf Hk Hd Hin.
  - rewrite app_nil_r in E. subst. now split.
  - cbn [fold_left]. apply (IH (l1 ++ [v])).
    + rewrite <- app_assoc. exact E.
    + exact Hpf.
    + unfold longest_dist. rewrite map_app. cbn [map fst]. now rewrite Hk.
    + intros w d Hw. unfold longest_dist in Hw. apply in_app_or in Hw.
      destruct Hw as [Hw|[[= <- <-]|[]]]; [now apply Hd|].
      assert (Hv : In v (nodes T)) by (apply Hin; now left).
      destruct (Z.eq_dec v r) as [-> |Hvr].
      * pose proof (rt_root_degree T r HR) as H0. unfold in_degree in H0.
        destruct (preds T r); [|discriminate]. cbn. constructor.
      * pose proof (rt_degree T r HR v Hv Hvr) as H1. unfold in_degree in H1.
        destruct (preds T v) as [|p [|q ps]] eqn:Ep; try discriminate.
        cbn [map fold_left].
        assert (Hp : In p l1).
        { apply (Hpf l1 v l2 E). rewrite Ep. now left. }
        rewrite <- Hk in Hp.
        destruct (lookup_In_keys dist p Hp) as [dp Edp]. rewrite Edp.
        cbn [Nat.max]. 
        assert (Hdp : In (p, dp) dist).
        { clear - Edp. induction dist as [|[n a] dist IHd]; [discriminate|].
          cbn [lookup] in Edp. destruct (Z.eqb n p) eqn:En.
          - apply Z.eqb_eq in En. injection Edp as <-. subst. now left.
          - right. now apply IHd. }
        apply (depth_S T r dp p v); [now apply Hd|].
        apply (wf_sym T HT). rewrite Ep. now left.
    + intros x Hx. apply Hin. now right.
Qed.

Lemma fold_max_spec (l : list nat) (a : nat) :
  (forall x, In x l -> x <= fold_left Nat.max l a) /\
  a <= fold_left Nat.max l a /\
  (fold_left Nat.max l a = a \/ In (fold_left Nat.max l a) l).
Proof.
  revert a. induction l as [|x l IH]; intros a; cbn [fold_left].
  - split; [intros x []|]. split; [lia | now left].
  - destruct (IH (Nat.max a x)) as [H1 [H2 H3]]. split; [|split].
    + intros y [<- |Hy]; [lia | now apply H1].
    + lia.
    + destruct H3 as [H3|H3]; [|right; now right].
      rewrite H3. destruct (Nat.max_spec a x) as [[_ ->]|[_ ->]];
        [right; now left | now left].
Qed.

(** [dag_longest_path_length] of a rooted tree is its height: the largest
    depth of a node. *)
Lemma dag_longest_path_length_height h :
  dag_longest_path_length T = Ok h ->
  (exists x, at_depth T r h x) /\ forall d x, at_depth T r d x -> d <= h.
Proof.
  unfold dag_longest_path_length, topological_sort.
  destruct (topological_sort_from (length (nodes T)) T (nodes T) [])
    as [order|] eqn:E; [|discriminate].
  cbn [bind]. intros [= <-].
  destruct (topological_sort_from_order _ _ _ _
              (fun x Hx => or_introl Hx)
              (fun l1 x l2 (El : [] = l1 ++ x :: l2) =>
                 match app_cons_not_nil l1 l2 x El with end) E)
    as [Hpf Hall].
  assert (Hin : incl order (nodes T)).
  { clear - E HT. 
    assert (K : forall fuel todo done ord,
               incl todo (nodes T) -> incl done (nodes T) ->
               topological_sort_from fuel T todo done = Ok ord ->
               incl ord (nodes T)).
    { induction fuel as [|fuel IH]; intros todo done ord Ht Hd E0.
      - destruct todo; [|discriminate]. now injection E0 as <-.
      - destruct todo as [|y todo]; [now injection E0 as <-|].
        cbn [topological_sort_from] in E0.
        destruct (filter _ (y :: todo)) as [|g gen] eqn:Eg; [discriminate|].
        apply IH in E0; trivial.
        + intros z Hz. apply filter_In in Hz. apply Ht. apply Hz.
        + intros z Hz. apply in_app_or in Hz. destruct Hz as [Hz|Hz];
            [now apply Hd|].
          rewrite <- Eg in Hz. apply filter_In in Hz. apply Ht. apply Hz. }
    apply (K _ _ _ _ (incl_refl _) (fun x (H : In x []) => match H with end) E). }
  destruct (longest_dist_depths order [] order [] eq_refl Hpf eq_refl
              (fun v d (H : In (v, d) []) => match H with end) Hin)
    as [Hk Hd].
  set (dist := fold_left (longest_dist T) order []) in *.
  destruct (fold_max_spec (map snd dist) 0) as [M1 [_ M3]].
  split.
  - destruct M3 as [M3|M3].
    + rewrite M3. exists r. constructor.
    + apply in_map_iff in M3. destruct M3 as [[v d] [Ev Hv]].
      cbn [snd] in Ev. rewrite <- Ev. exists v. now apply Hd.
  - intros d x Hx.
    assert (Hxn : In x (nodes T)).
    { clear - Hx HR HT. induction Hx as [|d b c Hb IH Hc];
        [apply (rt_root T r HR) | apply (wf_closed T HT b c Hc)]. }
    apply Hall in Hxn. rewrite <- Hk in Hxn.
    apply in_map_iff in Hxn. destruct Hxn as [[v dv] [Ev Hv]].
    cbn [fst] in Ev. subst v.
    rewrite (depth_unique T r HR d x Hx dv (Hd x dv Hv)).
    apply M1. apply in_map_iff. now exists (x, dv).
Qed.

End Height.

(** *** The whole run *)

(** On a rooted tree [alg3] completes, whatever the isomorphism test, as
    long as the enumeration of a set yields elements of the set. *)
Lemma alg3_run_ok
  (is_isomorphic : t -> t -> bool) (set_list : list node -> list node)
  G T r :
  LSO G = Ok T -> rooted_tree T r ->
  (forall l, incl (set_list l) l) ->
  exists st, alg3_run is_isomorphic set_list G = Ok st /\ 1 <= j st.
Proof.
  intros HL HR Hset. pose proof (rt_wf T r HR) as HT.
  destruct (dag_longest_path_length_ok T r HR) as [h Eh].
  destruct (label_leaves_spec T HT (nodes T) (wf_nodes T HT)
              (fun x H => H) T (same_shape_refl T))
    as [T1 [E1 [HS1 _]]].
  destruct (alg3_levels_spec is_isomorphic set_list T r HT
              (rt_root T r HR) Hset (levels h) (levels_positive h)
              (mk_alg3 T1 1 []) HS1)
    as [st [E2 [_ J]]].
  exists st. split; [|exact J].
  unfold alg3_run. rewrite HL. cbn [bind]. rewrite Eh. cbn [bind].
  rewrite E1. cbn [bind]. now rewrite (Alg2Facts.find_root_rooted T r HR).
Qed.

Lemma levels_descending h :
  levels h = map (fun k => h - 1 - k) (seq 0 (h - 1)).
Proof.
  unfold levels. generalize (h - 1) as n. clear h.
  induction n as [|n IH]; [reflexivity|].
  rewrite seq_S, rev_app_distr. cbn [rev app]. rewrite IH.
  cbn [seq map]. rewrite Nat.sub_0_r. f_equal.
  rewrite <- seq_shift, map_map. apply map_ext. intros k. reflexivity.
Qed.

End Alg3Facts.

(** ** The order of the edges, and graphs with the same edges *)

Module OrderFacts.
Import Graph GraphSpec GraphFacts WalkFacts Invariants.

(** [G.edges] reports the edge between [u] and [v] as [(u, v)] when [v]
    is a neighbour of [u] that does not come before [u] among the nodes. *)
Lemma edges_from_iff G' :
  forall seen u v,
    (exists a, In (u, v, a) (edges_from seen G')) <->
    exists l1 nb l2,
      G' = l1 ++ (u, nb) :: l2 /\ In v (map fst nb) /\
      ~ In v seen /\ ~ In v (map fst l1).
Proof.
  induction G' as [|[n nb0] G' IH]; intros seen u v.
  - split.
    + intros [a []].
    + intros [l1 [nb [l2 [E _]]]]. destruct l1; discriminate.
  - cbn [edges_from]. split.
    + intros [a Ha]. apply in_app_or in Ha. destruct Ha as [Ha|Ha].
      * apply in_map_iff in Ha. destruct Ha as [[w d] [E Hf]].
        cbn [fst snd] in E. injection E as -> -> ->.
        apply filter_In in Hf. destruct Hf as [Hin Hs]. cbn [fst] in Hs.
        exists [], nb0, G'. split; [reflexivity|].
        split; [apply in_map_iff; now exists (v, a)|].
        split; [|intros []]. apply mem_false.
        now destruct (mem v seen).
      * destruct (proj1 (IH (n :: seen) u v))
          as [l1 [nb [l2 [E [Hv [Hs Hl]]]]]]; [now exists a|].
        exists ((n, nb0) :: l1), nb, l2. split; [now rewrite E|].
        split; [assumption|]. split.
        -- intros H. apply Hs. now right.
        -- cbn [map fst]. intros [H|H]; [apply Hs; now left | contradiction].
    + intros [l1 [nb [l2 [E [Hv [Hs Hl]]]]]].
      destruct l1 as [|[n' nb'] l1]; cbn [app] in E.
      * injection E as -> -> ->. apply in_map_iff in Hv.
        destruct Hv as [[w d] [Ew Hd]]. cbn [fst] in Ew. subst w.
        exists d. apply in_or_app. left. apply in_map_iff.
        exists (v, d). split; [reflexivity|]. apply filter_In.
        split; [assumption|]. cbn [fst]. apply mem_false in Hs.
        now rewrite Hs.
      * injection E as <- <- ->.
        destruct (proj2 (IH (n :: seen) u v)) as [a Ha].
        -- exists l1, nb, l2. split; [reflexivity|]. split; [assumption|].
           split.
           ++ intros [H|H]; [apply Hl; now left | contradiction].
           ++ intros H. apply Hl. now right.
        -- exists a. apply in_or_app. now right.
Qed.

Lemma edges_iff G u v :
  wf G ->
  ((exists a, In (u, v, a) (edges G)) <->
   In v (neighbors G u) /\
   exists l1 l2, nodes G = l1 ++ u :: l2 /\ ~ In v l1).
Proof.
  intros Hwf. unfold edges. rewrite edges_from_iff. split.
  - intros [l1 [nb [l2 [E [Hv [_ Hl]]]]]].
    assert (A : adj G u = Some nb).
    { apply In_adj; [apply (wf_nodes G Hwf)|]. rewrite E.
      apply in_or_app. right. now left. }
    split.
    + unfold neighbors. now rewrite A.
    + exists (map fst l1), (map fst l2). split; [|assumption].
      unfold nodes. rewrite E, map_app. reflexivity.
  - intros [Hv [l1 [l2 [E Hl]]]]. unfold nodes in E.
    apply map_eq_app in E. destruct E as [g1 [g2 [E [E1 E2]]]].
    apply map_eq_cons in E2. destruct E2 as [[u' nb] [g2' [E2 [Eu E3]]]].
    cbn [fst] in Eu. subst u' g2 l1.
    exists g1, nb, g2'. split; [assumption|].
    assert (A : adj G u = Some nb).
    { apply In_adj; [apply (wf_nodes G Hwf)|]. rewrite E.
      apply in_or_app. right. now left. }
    unfold neighbors in Hv. rewrite A in Hv.
    split; [assumption|]. split; [intros []|assumption].
Qed.

Lemma edges_same_graph G G2 u v :
  wf G -> wf G2 -> same_graph G G2 ->
  ((exists a, In (u, v, a) (edges G2)) <-> (exists a, In (u, v, a) (edges G))).
Proof.
  intros H1 H2 [N E]. rewrite (edges_iff G u v H1), (edges_iff G2 u v H2).
  rewrite N. split; intros [Hv H]; (split; [now apply E | exact H]).
Qed.

Lemma oriented_same_graph G G2 u v a a2 d :
  same_graph G G2 -> oriented G (u, v, a) d -> oriented G2 (u, v, a2) d.
Proof.
  intros [N E] [G1 [c1 [c2 [[M1 M2] H]]]]. exists G1, c1, c2.
  split; [|exact H]. split; [now rewrite N|].
  intros x y. rewrite M2. split; intros [K1 K2]; (split; [now apply E | exact K2]).
Qed.

Lemma rank_app l1 u l2 x :
  ~ In u l1 -> ~ In x l1 -> x <> u ->
  rank (l1 ++ u :: l2) u < rank (l1 ++ u :: l2) x.
Proof.
  induction l1 as [|y l1 IH]; intros Hu Hx Hxu; cbn [app rank].
  - rewrite Z.eqb_refl. destruct (Z.eqb u x) eqn:E; [|lia].
    apply Z.eqb_eq in E. congruence.
  - destruct (Z.eqb y u) eqn:E1.
    + apply Z.eqb_eq in E1. exfalso. apply Hu. now left.
    + destruct (Z.eqb y x) eqn:E2.
      * apply Z.eqb_eq in E2. exfalso. apply Hx. now left.
      * apply -> Nat.succ_lt_mono. apply IH; trivial.
        -- intros H. apply Hu. now right.
        -- intros H. apply Hx. now right.
Qed.

(** The edges that the orienter emits, on any graph. *)
Section Emitted.

Variable G : t.
Variable ds : list (node * node).
Hypothesis Hwf : wf G.
Hypothesis Hds : Forall2 (oriented G) (edges G) ds.

Lemma emitted_edge a b : In (a, b) ds -> In b (neighbors G a).
Proof.
  intros Hd.
  destruct (TreeFacts.Forall2_In_r _ _ _ _ Hds Hd) as [[[u v] x] [He Ho]].
  pose proof (LSOFacts.edges_In G u v x Hwf He) as Huv.
  apply TreeFacts.oriented_cases in Ho. cbn [fst snd] in Ho.
  destruct Ho as [[= -> ->]|[= -> ->]]; [assumption|].
  now apply (wf_sym G Hwf).
Qed.

Lemma emitted_all a b :
  In b (neighbors G a) -> In (a, b) ds \/ In (b, a) ds.
Proof.
  intros Hab. destruct (edges_complete G a b Hwf Hab) as [d [H|H]];
    destruct (TreeFacts.Forall2_In_l _ _ _ _ Hds H) as [d' [Hd' Ho]];
    apply TreeFacts.oriented_cases in Ho; cbn [fst snd] in Ho;
    destruct Ho as [-> | ->]; tauto.
Qed.

Lemma emitted_one_way a b : a <> b -> In (a, b) ds -> ~ In (b, a) ds.
Proof.
  intros Hab H1 H2.
  assert (Hnd : NoDup (map upair ds)).
  { rewrite (TreeFacts.emitted_upairs G (edges G) ds Hds).
    now apply edges_NoDup. }
  assert (E : (a, b) = (b, a)).
  { apply (NoDup_map_inj upair ds); trivial. apply upair_swap. }
  injection E as E _. contradiction.
Qed.

(** An emitted edge whose ends stay joined without it was a tie, and goes
    from the earlier node to the later one. *)
Lemma emitted_tie a b :
  a <> b -> In (a, b) ds -> reach_without G a b b a ->
  rank (nodes G) a < rank (nodes G) b.
Proof.
  intros Hab Hd Hrw.
  destruct (TreeFacts.Forall2_In_r _ _ _ _ Hds Hd) as [[[u v] x] [He Ho]].
  assert (Hrw' : reach_without G u v u v).
  { pose proof (TreeFacts.oriented_cases _ _ _ Ho) as Hc.
    cbn [fst snd] in Hc. destruct Hc as [[= -> ->]|[= -> ->]].
    - now apply rw_sym.
    - now apply rw_swap. }
  destruct Ho as [G1 [c1 [c2 [M [[N1 C1] [[N2 C2] E]]]]]].
  assert (L : length c1 = length c2).
  { apply NoDup_same_length; trivial. intros w. rewrite C1, C2.
    rewrite !(minus_edge_reach_without G G1 u v) by assumption. split.
    - intros H. eapply rw_trans; [|exact H]. now apply rw_sym.
    - intros H. eapply rw_trans; [exact Hrw'|exact H]. }
  rewrite L, Nat.ltb_irrefl in E. injection E as -> ->.
  destruct (proj1 (edges_iff G u v Hwf)) as [_ [l1 [l2 [El Hl]]]];
    [now exists x|].
  rewrite El. apply rank_app; trivial.
  - pose proof (wf_nodes G Hwf) as Hnd. rewrite El in Hnd.
    apply NoDup_remove_2 in Hnd. intros H. apply Hnd.
    apply in_or_app. now left.
  - intros H. apply Hab. now symmetry.
Qed.

End Emitted.

(** The directed graph of the orienter, by its edges. *)
Lemma LSO_emits G T :
  wf G -> LSO G = Ok T ->
  exists ds,
    Forall2 (oriented G) (edges G) ds /\
    DiGraphSpec.wf T /\ DiGraph.nodes T = nodes G /\
    (forall a b, In b (DiGraph.adj T a) <-> In (a, b) ds) /\
    (forall a b, In a (DiGraph.preds T b) <-> In (a, b) ds).
Proof.
  intros Hwf HL.
  destruct (TreeFacts.LSO_digraph G T Hwf HL) as [HT HN].
  destruct (LSOFacts.LSO_run_spec G Hwf) as [G' [ds [Hrun [Hds _]]]].
  unfold LSO in HL. rewrite Hrun in HL. cbn [bind] in HL.
  injection HL as <-. exists ds. split; [exact Hds|].
  split; [exact HT|]. split; [exact HN|].
  destruct (DiGraphFacts.LSO_init_spec G (wf_nodes G Hwf)) as [W [_ [A P]]].
  split; intros a b.
  - rewrite DiGraphFacts.In_adj_emit, A. simpl. tauto.
  - rewrite DiGraphFacts.In_preds_emit by assumption. rewrite P. simpl. tauto.
Qed.

(** Two graphs with the same nodes in the same order and the same edges
    get the same directed edges. *)
Lemma LSO_same_graph G G2 T :
  wf G -> wf G2 -> same_graph G G2 -> LSO G = Ok T ->
  exists T2,
    LSO G2 = Ok T2 /\ DiGraphSpec.wf T2 /\
    DiGraph.nodes T2 = DiGraph.nodes T /\
    forall a b, In b (DiGraph.adj T2 a) <-> In b (DiGraph.adj T a).
Proof.
  intros H1 H2 HS HL.
  destruct (LSO_emits G T H1 HL) as [ds [Hds [HT [HN [HA _]]]]].
  destruct (LSOFacts.LSO_run_spec G2 H2) as [G2' [ds2 [Hrun2 [Hds2 _]]]].
  assert (HL2 : LSO G2 = Ok (emit (LSO_init G2) ds2)).
  { unfold LSO. now rewrite Hrun2. }
  destruct (LSO_emits G2 _ H2 HL2) as [ds2' [Hds2' [HT2 [HN2 [HA2 _]]]]].
  exists (emit (LSO_init G2) ds2). split; [exact HL2|].
  split; [exact HT2|]. split; [rewrite HN2, HN; apply HS|].
  assert (K : forall Ga Gb da db,
             wf Ga -> wf Gb -> same_graph Ga Gb ->
             Forall2 (oriented Ga) (edges Ga) da ->
             Forall2 (oriented Gb) (edges Gb) db ->
             forall d, In d da -> In d db).
  { intros Ga Gb da db Wa Wb Sab Fa Fb d Hd.
    destruct (TreeFacts.Forall2_In_r _ _ _ _ Fa Hd) as [[[u v] x] [He Ho]].
    destruct (proj2 (edges_same_graph Ga Gb u v Wa Wb Sab)) as [x2 He2];
      [now exists x|].
    destruct (TreeFacts.Forall2_In_l _ _ _ _ Fb He2) as [d2 [Hd2 Ho2]].
    apply (oriented_same_graph Ga Gb u v x x2 d Sab) in Ho.
    destruct Ho as [G1 [c1 [c2 [M [C1 [C2 E]]]]]].
    rewrite (SizeFacts.oriented_unique Gb u v x2 d2 G1 c1 c2 Ho2 M C1 C2)
      in Hd2.
    now rewrite E. }
  assert (HS' : same_graph G2 G).
  { destruct HS as [N E]. split; [now symmetry|].
    intros a b. symmetry. apply E. }
  intros a b. rewrite HA2, HA. split.
  - apply (K G2 G ds2' ds H2 H1 HS' Hds2' Hds).
  - apply (K G G2 ds ds2' H1 H2 HS Hds Hds2').
Qed.

Lemma same_graphb_same_graph G G' :
  same_graphb G G' = true -> same_graph G G'.
Proof.
  unfold same_graphb. intros H. apply andb_prop in H. destruct H as [H1 H2].
  destruct (list_eq_dec Z.eq_dec (nodes G') (nodes G)) as [N|];
    [|discriminate].
  split; [exact N|]. intros a b.
  destruct (in_dec Z.eq_dec a (nodes G)) as [Ha|Ha].
  - rewrite forallb_forall in H2. specialize (H2 a Ha).
    apply andb_prop in H2. destruct H2 as [K1 K2].
    rewrite forallb_forall in K1, K2.
    split; intros Hb; apply mem_In; [apply K1 | apply K2]; exact Hb.
  - split; intros Hb; exfalso; apply Ha; [rewrite <- N|];
      eapply neighbors_In_nodes; eassumption.
Qed.

End OrderFacts.

(** ** The attributes of the edges that the orienter puts back *)

Module AttrFacts.
Import Graph GraphSpec GraphFacts WalkFacts Invariants.

Ltac eqb_cases :=
  repeat match goal with
         | |- context [Z.eqb ?a ?b] =>
             let E := fresh "E" in
             destruct (Z.eqb a b) eqn:E;
             [apply Z.eqb_eq in E | apply Z.eqb_neq in E]
         end;
  cbn [andb orb]; subst; try congruence.

Lemma get_None nb v : ~ In v (map fst nb) -> get nb v = None.
Proof.
  intros H. destruct (get nb v) eqn:E; [|reflexivity].
  exfalso. apply H. eapply get_Some_In. eassumption.
Qed.

Lemma get_In nb v d : NoDup (map fst nb) -> In (v, d) nb -> get nb v = Some d.
Proof.
  induction nb as [|[w d'] r IH]; [contradiction|].
  cbn [map fst get]. intros Hnd [[= -> ->]|H].
  - now rewrite Z.eqb_refl.
  - inversion Hnd as [|? ? Hw Hr]. subst.
    destruct (Z.eqb w v) eqn:E; [|now apply IH].
    apply Z.eqb_eq in E. subst. exfalso. apply Hw.
    apply in_map_iff. now exists (v, d).
Qed.

Lemma get_set nb v d y :
  get (set nb v d) y = if Z.eqb y v then Some d else get nb y.
Proof.
  induction nb as [|[w d'] r IH]; cbn [set get].
  - eqb_cases.
  - destruct (Z.eqb w v) eqn:E; cbn [get].
    + apply Z.eqb_eq in E. subst. eqb_cases.
    + apply Z.eqb_neq in E. rewrite IH. eqb_cases.
Qed.

Lemma get_del nb v y :
  NoDup (map fst nb) ->
  get (del nb v) y = if Z.eqb y v then None else get nb y.
Proof.
  induction nb as [|[w d'] r IH]; cbn [del get map fst]; intros Hnd.
  - now destruct (Z.eqb y v).
  - inversion Hnd as [|? ? Hw Hr]. subst.
    destruct (Z.eqb w v) eqn:E.
    + apply Z.eqb_eq in E. subst.
      destruct (Z.eqb y v) eqn:E1.
      * apply Z.eqb_eq in E1. subst. now apply get_None.
      * apply Z.eqb_neq in E1. destruct (Z.eqb v y) eqn:E2; [|reflexivity].
        apply Z.eqb_eq in E2. congruence.
    + apply Z.eqb_neq in E. cbn [get]. rewrite (IH Hr). eqb_cases.
Qed.

Lemma edge_attr_upd_set G u v d x y :
  In u (nodes G) ->
  edge_attr (upd G u (fun nb => set nb v d)) x y
  = if Z.eqb x u && Z.eqb y v then Some d else edge_attr G x y.
Proof.
  intros Hu. unfold edge_attr. rewrite adj_upd.
  destruct (In_nodes_adj G u Hu) as [nb A].
  destruct (Z.eqb x u) eqn:E; cbn [andb]; [|reflexivity].
  apply Z.eqb_eq in E. subst x. rewrite A. cbn [option_map].
  apply get_set.
Qed.

Lemma edge_attr_upd_del G u v x y :
  keys_ok G ->
  edge_attr (upd G u (fun nb => del nb v)) x y
  = if Z.eqb x u && Z.eqb y v then None else edge_attr G x y.
Proof.
  intros Hk. unfold edge_attr. rewrite adj_upd.
  destruct (Z.eqb x u) eqn:E; cbn [andb]; [|reflexivity].
  apply Z.eqb_eq in E. subst x.
  destruct (adj G u) as [nb|] eqn:A; cbn [option_map].
  - apply get_del. now apply (Hk u).
  - now destruct (Z.eqb y v).
Qed.

(** [G.remove_edge(u, v)] takes the attribute dictionary away on both
    ends and touches no other edge. *)
Lemma remove_edge_attr G u v G1 x y :
  wf G -> remove_edge G u v = Ok G1 ->
  edge_attr G1 x y
  = if Z.eqb x u && Z.eqb y v || Z.eqb x v && Z.eqb y u then None
    else edge_attr G x y.
Proof.
  intros Hwf H. destruct (remove_edge_shape G u v G1 H) as [-> _].
  pose proof (wf_keys G Hwf) as Hk.
  destruct (Z.eqb u v) eqn:E.
  - apply Z.eqb_eq in E. subst v. rewrite edge_attr_upd_del by assumption.
    now destruct (Z.eqb x u && Z.eqb y u).
  - rewrite edge_attr_upd_del.
    + rewrite edge_attr_upd_del by assumption.
      destruct (Z.eqb x u && Z.eqb y v), (Z.eqb x v && Z.eqb y u); reflexivity.
    + apply keys_ok_upd; [assumption|]. intros nb. apply NoDup_del.
Qed.

(** [G.add_edge(u, v)] for an edge that is not there makes a new, empty
    attribute dictionary for both ends. *)
Lemma add_edge_attr G u v x y :
  In u (nodes G) -> In v (nodes G) -> edge_attr G u v = None ->
  edge_attr (add_edge G u v) x y
  = if Z.eqb x u && Z.eqb y v || Z.eqb x v && Z.eqb y u then Some []
    else edge_attr G x y.
Proof.
  intros Hu Hv Hn. unfold add_edge.
  rewrite (add_node_In G u Hu), (add_node_In G v Hv).
  replace (match adj G u with
           | Some nb => match get nb v with Some d => d | None => [] end
           | None => []
           end) with (@nil (string * Z)).
  - rewrite edge_attr_upd_set by (now rewrite nodes_upd).
    rewrite edge_attr_upd_set by assumption.
    destruct (Z.eqb x u && Z.eqb y v), (Z.eqb x v && Z.eqb y u); reflexivity.
  - unfold edge_attr in Hn. destruct (adj G u); [|reflexivity].
    now rewrite Hn.
Qed.

Lemma LSO_step_attr G T u v a G' T' :
  wf G -> LSO_step (G, T) (u, v, a) = Ok (G', T') ->
  wf G' /\
  forall x y,
    edge_attr G' x y
    = if Z.eqb x u && Z.eqb y v || Z.eqb x v && Z.eqb y u then Some []
      else edge_attr G x y.
Proof.
  intros Hwf H. cbn [LSO_step] in H.
  destruct (remove_edge G u v) as [G1|] eqn:Er; cbn [bind] in H;
    [|discriminate].
  destruct (node_connected_component G1 u); cbn [bind] in H; [|discriminate].
  destruct (node_connected_component G1 v); cbn [bind] in H; [|discriminate].
  injection H as <- _.
  split; [apply (remove_add_same G u v G1 Hwf Er)|].
  destruct (remove_edge_shape G u v G1 Er) as [_ Huv].
  assert (Hu : In u (nodes G1)).
  { rewrite (remove_edge_nodes G u v G1 Er).
    eapply neighbors_In_nodes; eassumption. }
  assert (Hv : In v (nodes G1)).
  { rewrite (remove_edge_nodes G u v G1 Er).
    eapply wf_closed; eassumption. }
  assert (Hn : edge_attr G1 u v = None).
  { rewrite (remove_edge_attr G u v G1 u v Hwf Er).
    now rewrite !Z.eqb_refl. }
  intros x y. rewrite (add_edge_attr G1 u v x y Hu Hv Hn).
  rewrite (remove_edge_attr G u v G1 x y Hwf Er).
  now destruct (Z.eqb x u && Z.eqb y v || Z.eqb x v && Z.eqb y u).
Qed.

Lemma LSO_loop_attr es :
  forall G T G' T',
    wf G -> foldM LSO_step es (G, T) = Ok (G', T') ->
    (forall x y, edge_attr G x y = Some [] -> edge_attr G' x y = Some []) /\
    (forall u v a, In (u, v, a) es ->
                   edge_attr G' u v = Some [] /\ edge_attr G' v u = Some []).
Proof.
  induction es as [|[[u v] a] es IH]; intros G T G' T' Hwf H.
  - cbn [foldM] in H. injection H as <- <-. split; [auto|]. intros ? ? ? [].
  - cbn [foldM] in H.
    destruct (LSO_step (G, T) (u, v, a)) as [[G1 T1]|] eqn:Es;
      cbn [bind] in H; [|discriminate].
    destruct (LSO_step_attr G T u v a G1 T1 Hwf Es) as [W1 A1].
    destruct (IH G1 T1 G' T' W1 H) as [K1 K2].
    split.
    + intros x y Hxy. apply K1. rewrite A1, Hxy.
      now destruct (Z.eqb x u && Z.eqb y v || Z.eqb x v && Z.eqb y u).
    + intros u' v' a' [[= -> -> ->]|Hin]; [|now apply (K2 u' v' a')].
      split; apply K1; rewrite A1, !Z.eqb_refl; cbn [andb orb];
        [reflexivity|]. now destruct (Z.eqb v' u' && Z.eqb u' v').
Qed.

(** After [LSO] the attribute dictionary of every edge of the graph is
    empty. *)
Lemma LSO_run_attr G G' T :
  wf G -> LSO_run G = Ok (G', T) ->
  forall u nb v d, adj G' u = Some nb -> In (v, d) nb -> d = [].
Proof.
  intros Hwf Hrun u nb v d A Hin.
  destruct (LSOFacts.LSO_run_spec G Hwf) as [G2 [ds [Hrun2 [_ [W [HS _]]]]]].
  rewrite Hrun in Hrun2. injection Hrun2 as <- _.
  destruct (LSO_loop_attr (edges G) G (LSO_init G) G' T Hwf Hrun) as [_ K].
  assert (Hg : get nb v = Some d).
  { apply get_In; [|assumption]. now apply (wf_keys G' W u). }
  assert (Hv : In v (neighbors G u)).
  { apply HS. unfold neighbors. rewrite A. apply in_map_iff.
    now exists (v, d). }
  assert (He : edge_attr G' u v = Some []).
  { destruct (edges_complete G u v Hwf Hv) as [d0 [H|H]];
      now apply K in H. }
  unfold edge_attr in He. rewrite A, Hg in He. now injection He.
Qed.

End AttrFacts.

(** ** The orientation of a graph without self-loops has no cycle *)

Module DagFacts.
Import DiGraph DiGraphSpec DiGraphFacts DfsFacts SizeTileFacts Invariants.

Section Simple.

Variable G : Graph.t.
Variable T : t.
Hypothesis Hwf : GraphSpec.wf G.
Hypothesis Hsimple : GraphSpec.simple G.
Hypothesis HL : LSO G = Ok T.

(** A directed walk from the head of an edge back to its tail gives a
    walk in the graph that avoids the edge. *)
Lemma walk_back_avoids a b :
  In b (adj T a) -> reach T b a ->
  a <> b /\ GraphSpec.reach_without G a b b a.
Proof.
  intros Hab Hba.
  destruct (OrderFacts.LSO_emits G T Hwf HL) as [ds [Hds [_ [_ [HA _]]]]].
  assert (Hn : a <> b).
  { intros ->. apply HA in Hab.
    exact (Hsimple b (OrderFacts.emitted_edge G ds Hwf Hds b b Hab)). }
  split; [exact Hn|].
  assert (K : forall x, reach T b x ->
                        GraphSpec.reach_without G a b b a \/
                        GraphSpec.reach_without G a b b x).
  { induction 1 as [|y z Hy IH Hz]; [right; constructor|].
    destruct IH as [IH|IH]; [now left|].
    destruct (Z.eq_dec y a) as [-> |Hya]; [now left|].
    right. eapply GraphSpec.rw_step; [exact IH | | |].
    - apply HA in Hz. exact (OrderFacts.emitted_edge G ds Hwf Hds y z Hz).
    - intros [E _]. contradiction.
    - intros [-> ->]. apply HA in Hz, Hab.
      exact (OrderFacts.emitted_one_way G ds Hwf Hds a b Hn Hab Hz). }
  destruct (K a Hba) as [H|H]; exact H.
Qed.

(** An edge on a directed cycle goes from an earlier to a later node. *)
Lemma cycle_edge_rank a b :
  In b (adj T a) -> reach T b a ->
  rank (Graph.nodes G) a < rank (Graph.nodes G) b.
Proof.
  intros Hab Hba. destruct (walk_back_avoids a b Hab Hba) as [Hn Hrw].
  destruct (OrderFacts.LSO_emits G T Hwf HL) as [ds [Hds [_ [_ [HA _]]]]].
  apply (OrderFacts.emitted_tie G ds Hwf Hds a b Hn); [|exact Hrw].
  now apply HA.
Qed.

Lemma cycle_walk_rank y x :
  reach T y x -> reach T x y ->
  rank (Graph.nodes G) y <= rank (Graph.nodes G) x.
Proof.
  induction 1 as [|p q Hp IH Hq]; intros Hback; [lia|].
  assert (Hpy : reach T p y).
  { eapply reach_first; eassumption. }
  specialize (IH Hpy).
  assert (Hqp : reach T q p) by (eapply dreach_trans; eassumption).
  pose proof (cycle_edge_rank p q Hq Hqp). lia.
Qed.

Lemma LSO_acyclic : acyclic T.
Proof.
  intros y [z [Hzy Hyz]].
  assert (Hzy' : reach T z y).
  { eapply reach_step; [constructor | exact Hzy]. }
  pose proof (cycle_walk_rank y z Hyz Hzy').
  pose proof (cycle_edge_rank z y Hzy Hyz). lia.
Qed.

End Simple.

(** *** Directed graphs without cycle *)

Section Dag.

Variable T : t.
Hypothesis HT : wf T.
Hypothesis Hacyclic : acyclic T.

Lemma chain_reach x p l : chain T x (p :: l) -> reach T p x.
Proof.
  remember (p :: l) as pl eqn:E. intros H. revert p l E.
  induction H as [|p' y l' H IH Hy]; intros p l E; injection E as E1 E2;
    subst p l.
  - constructor.
  - eapply reach_first; [exact Hy|]. now apply (IH y l').
Qed.

Lemma chain_below x p l y :
  chain T x (p :: l) -> In y l ->
  exists q, In q (adj T p) /\ reach T q y.
Proof.
  remember (p :: l) as pl eqn:E. intros H. revert p l E.
  induction H as [|p' z l' H IH Hz]; intros p l E Hy; injection E as E1 E2;
    subst p l.
  - contradiction.
  - exists z. split; [exact Hz|]. destruct Hy as [-> |Hy]; [constructor|].
    destruct (IH z l' eq_refl Hy) as [q [Hq Hqy]].
    eapply reach_first; eassumption.
Qed.

Lemma chain_NoDup x l : chain T x l -> NoDup l.
Proof.
  induction 1 as [|p y l H IH Hy].
  - constructor; [intros []|constructor].
  - constructor; [|exact IH]. intros Hp.
    destruct (chain_below x p (y :: l) p (chain_cons T x p y l H Hy) Hp)
      as [q [Hq Hqp]].
    apply (Hacyclic q). exists p. now split.
Qed.

Lemma chain_nodes x l : In x (nodes T) -> chain T x l -> incl l (nodes T).
Proof.
  intros Hx. induction 1 as [|p y l H IH Hy].
  - intros z [<- |[]]. exact Hx.
  - intros z [<- |Hz]; [|now apply IH].
    apply (wf_closed T HT p y Hy).
Qed.

Lemma not_ready done x :
  ready T done x = false -> exists p, In p (preds T x) /\ ~ In p done.
Proof.
  unfold ready. induction (preds T x) as [|p l IH]; [discriminate|].
  cbn [forallb]. destruct (mem p done) eqn:E; cbn [andb].
  - intros H. destruct (IH H) as [q [Hq Hn]]. exists q.
    split; [now right | exact Hn].
  - intros _. exists p. split; [now left | now apply mem_false].
Qed.

(** Walking against the arrows from a node that waits leads to a node
    that is ready. *)
Lemma ready_above todo done (k : nat) :
  (forall x, In x (nodes T) -> In x todo \/ In x done) ->
  forall x p l,
    In x (nodes T) -> chain T x (p :: l) -> In p todo ->
    length (nodes T) < k + length (p :: l) ->
    exists y, In y todo /\ ready T done y = true /\ reach T y x.
Proof.
  intros Hall. induction k as [|k IH]; intros x p l Hx Hc Hp Hk.
  - exfalso. pose proof (chain_NoDup x _ Hc) as Hnd.
    pose proof (chain_nodes x _ Hx Hc) as Hin.
    pose proof (NoDup_incl_length Hnd Hin). lia.
  - destruct (ready T done p) eqn:Er.
    + exists p. split; [exact Hp|]. split; [exact Er|].
      eapply chain_reach; eassumption.
    + destruct (not_ready done p Er) as [q [Hq Hqd]].
      apply (wf_sym T HT) in Hq.
      assert (Hqt : In q todo).
      { destruct (Hall q) as [H|H]; [|exact H|contradiction].
        apply (wf_closed T HT q p Hq). }
      apply (IH x q (p :: l)); trivial.
      * now constructor.
      * cbn [length] in *. lia.
Qed.

Lemma dag_ready_exists todo done :
  (forall x, In x (nodes T) -> In x todo \/ In x done) ->
  incl todo (nodes T) -> todo <> [] ->
  exists y, In y todo /\ ready T done y = true.
Proof.
  intros Hall Hin Hne. destruct todo as [|x todo]; [congruence|].
  destruct (ready_above (x :: todo) done (S (length (nodes T))) Hall x x [])
    as [y [Hy [Hr _]]].
  - apply Hin. now left.
  - constructor.
  - now left.
  - cbn [length]. lia.
  - now exists y.
Qed.

Lemma dag_topological_sort_from fuel :
  forall todo done,
    (forall x, In x (nodes T) -> In x todo \/ In x done) ->
    incl todo (nodes T) -> length todo <= fuel ->
    exists order, topological_sort_from fuel T todo done = Ok order.
Proof.
  induction fuel as [|fuel IH]; intros todo done Hall Hin Hlen.
  - destruct todo; [now eexists | simpl in Hlen; lia].
  - destruct todo as [|x todo]; [now eexists|].
    change (exists order,
              match filter (ready T done) (x :: todo) with
              | [] => Raise NetworkXUnfeasible
              | g :: gen =>
                  topological_sort_from fuel T
                    (filter (fun z => negb (ready T done z)) (x :: todo))
                    (done ++ g :: gen)
              end = Ok order).
    destruct (dag_ready_exists (x :: todo) done Hall Hin) as [y [Hy Hry]];
      [discriminate|].
    destruct (filter (ready T done) (x :: todo)) as [|g gen] eqn:Eg.
    + exfalso. assert (Hf : In y (filter (ready T done) (x :: todo)))
        by (apply filter_In; now split).
      rewrite Eg in Hf. contradiction.
    + apply IH.
      * intros z Hz. destruct (Hall z Hz) as [Hzt|Hzd].
        -- destruct (ready T done z) eqn:Ez.
           ++ right. apply in_or_app. right. rewrite <- Eg.
              apply filter_In. now split.
           ++ left. apply filter_In. split; [assumption|]. now rewrite Ez.
        -- right. apply in_or_app. now left.
      * intros z Hz. apply filter_In in Hz. apply Hin. apply Hz.
      * assert (Hlt : length (filter (fun z => negb (ready T done z))
                                     (x :: todo))
                      < length (x :: todo)).
        { apply (Alg3Facts.filter_drops _ _ y Hy). now rewrite Hry. }
        lia.
Qed.

(** The longest path of a directed graph without cycle is computed
    without error. *)
Lemma dag_longest_path_length_total :
  exists h, dag_longest_path_length T = Ok h.
Proof.
  unfold dag_longest_path_length, topological_sort.
  destruct (dag_topological_sort_from (length (nodes T)) (nodes T) [])
    as [order E].
  - intros x Hx. now left.
  - apply incl_refl.
  - lia.
  - rewrite E. cbn [bind]. now eexists.
Qed.

(** Every node is reached from a node of in-degree 0. *)
Lemma source_above x :
  In x (nodes T) ->
  exists r, In r (nodes T) /\ in_degree T r = 0 /\ reach T r x.
Proof.
  intros Hx.
  destruct (ready_above (nodes T) [] (S (length (nodes T)))
              (fun z Hz => or_introl Hz) x x [] Hx (chain_one T x) Hx)
    as [r [Hr [Hrd Hrx]]]; [cbn [length]; lia|].
  exists r. split; [exact Hr|]. split; [|exact Hrx].
  unfold in_degree. unfold ready in Hrd.
  destruct (preds T r) as [|p l]; [reflexivity|]. discriminate.
Qed.

(** The root that the search finds is a node of in-degree 0. *)
Lemma find_root_source :
  nodes T <> [] ->
  In (find_root T) (nodes T) /\ in_degree T (find_root T) = 0.
Proof.
  intros Hne. destruct (nodes T) as [|x0 l0] eqn:En; [congruence|].
  destruct (source_above x0) as [x [Hx [H0 _]]]; [rewrite En; now left|].
  rewrite <- En in *.
  assert (Hr : In (find_root T)
                  (filter (fun n => in_degree T n =? 0) (nodes T))).
  { rewrite Alg2Facts.find_root_last.
    assert (Hf : In x (filter (fun n => in_degree T n =? 0) (nodes T))).
    { apply filter_In. split; [assumption|]. now rewrite H0. }
    destruct (filter _ (nodes T)) as [|a l]; [contradiction|].
    destruct (exists_last (l := a :: l)) as [l' [z E]]; [discriminate|].
    rewrite E. rewrite last_last. apply in_or_app. right. now left. }
  apply filter_In in Hr. destruct Hr as [Hr Hd].
  split; [exact Hr | now apply Nat.eqb_eq].
Qed.

(** A node other than a node of in-degree 0 is not reached by its own
    descendants. *)
Lemma below_root r x :
  in_degree T r = 0 -> reach T x r -> x = r.
Proof.
  intros H0. inversion 1 as [|b c Hb Hc E]; [reflexivity|]. subst.
  apply (wf_sym T HT) in Hc. unfold in_degree in H0.
  destruct (preds T r); [contradiction | discriminate].
Qed.

End Dag.

End DagFacts.

(** ** The two labelers on graphs that need not be trees *)

Module TotalFacts.
Import DiGraph DiGraphSpec DiGraphFacts DfsFacts SizeTileFacts LabelFacts.
Import Alg2Facts Invariants.

(** [alg2] by the nodes that its root reaches. *)
Lemma alg2_reach_spec G T :
  GraphSpec.wf G -> LSO G = Ok T -> In (find_root T) (nodes T) ->
  exists st,
    alg2_run G = Ok st /\
    NoDup (labels st) /\ NoDup (tiles st) /\
    (forall k, In k (labels st) <->
               exists x, reach T (find_root T) x /\ x <> find_root T /\
                         has_size T x k) /\
    (forall tile, In tile (tiles st) <->
                  exists x, reach T (find_root T) x /\
                            has_signature T x tile).
Proof.
  intros Hwf HL Hr.
  destruct (TreeFacts.LSO_digraph G T Hwf HL) as [HT _].
  destruct (dfs_spec T (find_root T) HT Hr) as [s [Es [[Nv Cv] [Pf _]]]].
  assert (Hmem : forall x, In x (finished s) <-> reach T (find_root T) x).
  { intros x. rewrite <- Cv. split; apply Permutation_in;
      [exact Pf | apply Permutation_sym; exact Pf]. }
  assert (Nf : NoDup (finished s)).
  { eapply Permutation_NoDup; [apply Permutation_sym; exact Pf | exact Nv]. }
  assert (Hin : incl (finished s) (nodes T)).
  { intros x Hx. eapply dreach_In_nodes; [exact HT | exact Hr|].
    now apply Hmem. }
  assert (Hpar : forall x, In x (finished s) -> x <> find_root T ->
                           preds T x <> []).
  { intros x Hx Hxr. apply Hmem in Hx.
    inversion Hx as [E|b c Hb Hc E]; [congruence|]. subst.
    apply (wf_sym T HT) in Hc. intros E. now rewrite E in Hc. }
  destruct (alg2_loop_spec T (find_root T) HT (finished s) Nf Hin Hpar
              (mk_alg2 T [] []) (same_shape_refl T)
              (NoDup_nil _) (NoDup_nil _))
    as [st [E [_ [NL [NT [LB [TL _]]]]]]].
  exists st. split; [|split; [exact NL|split; [exact NT|split]]].
  - unfold alg2_run. rewrite HL. cbn [bind]. unfold dfs_postorder_nodes.
    rewrite Es. cbn [bind]. exact E.
  - intros k. rewrite LB. cbn [labels]. split.
    + intros [[]|[x [Hx [Hxr <-]]]]. exists x.
      split; [now apply Hmem|]. split; [assumption|].
      apply size_of_spec; [assumption | now apply Hin].
    + intros [x [Hx [Hxr Hk]]]. apply Hmem in Hx. right. exists x.
      split; [assumption|]. split; [assumption|].
      apply (has_size_unique T x); [|assumption].
      apply size_of_spec; [assumption | now apply Hin].
  - intros tile. rewrite TL. cbn [tiles]. split.
    + intros [[]|[x [Hx <-]]]. exists x. split; [now apply Hmem|].
      apply sig_of_spec; [assumption | now apply Hin].
    + intros [x [Hx Hk]]. apply Hmem in Hx. right. exists x.
      split; [assumption|].
      apply (has_signature_unique T x); [|assumption].
      apply sig_of_spec; [assumption | now apply Hin].
Qed.

(** Without a root among the nodes the search of [alg2] raises. *)
Lemma alg2_no_root G T :
  LSO G = Ok T -> ~ In (find_root T) (nodes T) -> alg2 G = Raise KeyError.
Proof.
  intros HL Hr. unfold alg2, alg2_run. rewrite HL. cbn [bind].
  unfold dfs_postorder_nodes, dfs. apply mem_false in Hr. now rewrite Hr.
Qed.

(** *** Sizes and tiles *)

Section Sizes.

Variable T : t.
Hypothesis HT : wf T.

Lemma size_pos x k : has_size T x k -> 1 <= k.
Proof.
  intros [c [[_ C] <-]]. destruct c as [|a c]; [|cbn [length]; lia].
  exfalso. apply (C x). constructor.
Qed.

Lemma size_le x y k k' :
  reach T x y -> has_size T x k -> has_size T y k' -> k' <= k.
Proof.
  intros Hxy [c [[N C] <-]] [c' [[N' C'] <-]].
  apply NoDup_incl_length; [exact N'|]. intros z Hz. apply C.
  apply C' in Hz. eapply dreach_trans; eassumption.
Qed.

Lemma size_lt_root r x k kr :
  in_degree T r = 0 -> reach T r x -> x <> r ->
  has_size T x k -> has_size T r kr -> k < kr.
Proof.
  intros H0 Hrx Hxr [c [[N C] <-]] [cr [[Nr Cr] <-]].
  change (length (r :: c) <= length cr). apply NoDup_incl_length.
  - constructor; [|exact N]. intros Hr. apply C in Hr.
    apply Hxr. now apply (DagFacts.below_root T HT r x).
  - intros z [<- |Hz]; apply Cr; [constructor|].
    apply C in Hz. eapply dreach_trans; eassumption.
Qed.

Lemma leaf_reach x y : adj T x = [] -> reach T x y -> y = x.
Proof.
  intros Hx. induction 1 as [|b c Hb IH Hc]; [reflexivity|].
  subst b. rewrite Hx in Hc. contradiction.
Qed.

(** The largest entry of the tile of a node is the size of its subtree. *)
Lemma top_signature x k tile :
  has_size T x k -> has_signature T x tile -> top tile = k.
Proof.
  intros Hk [[Hx ->]|[Hx [c [ks [[N C] [F [_ P]]]]]]].
  - cbn. destruct Hk as [c [[N C] <-]]. symmetry.
    apply (NoDup_same_length c [x]); trivial.
    + constructor; [intros []|constructor].
    + intros y. rewrite C. split.
      * intros H. left. symmetry. now apply leaf_reach.
      * intros [<- |[]]. constructor.
  - unfold top.
    destruct (Alg3Facts.fold_max_spec tile 1) as [Hall [H1 Hin]].
    apply Nat.le_antisymm.
    + destruct Hin as [-> |Hin]; [now apply (size_pos x)|].
      apply (Permutation_in _ P) in Hin.
      destruct (TreeFacts.Forall2_In_r _ _ _ _ F Hin) as [y [Hy Hs]].
      apply C in Hy. exact (size_le x y _ _ Hy Hk Hs).
    + apply Hall. apply (Permutation_in _ (Permutation_sym P)).
      destruct (TreeFacts.Forall2_In_l _ _ _ x F) as [k' [Hk' Hs]];
        [apply C; constructor|].
      now rewrite (has_size_unique T x k k' Hk Hs).
Qed.

(** With a root of in-degree 0, the sizes of the nodes below the root
    and the tiles of the nodes it reaches: one more tile than sizes, and
    no more tiles than nodes. *)
Lemma tiles_and_labels r (ls : list nat) (ts : list (list nat)) :
  In r (nodes T) -> in_degree T r = 0 ->
  NoDup ls -> NoDup ts ->
  (forall k, In k ls <->
             exists x, reach T r x /\ x <> r /\ has_size T x k) ->
  (forall tile, In tile ts <->
                exists x, reach T r x /\ has_signature T x tile) ->
  S (length ls) <= length ts /\ length ts <= length (nodes T).
Proof.
  intros Hr H0 NL NT LB TL. split.
  - rewrite <- (length_map top ts).
    change (length (size_of T r :: ls) <= length (map top ts)).
    destruct (size_of_spec T r HT Hr) as [_ Hkr].
    apply NoDup_incl_length.
    + constructor; [|exact NL]. intros Hin. apply LB in Hin.
      destruct Hin as [x [Hx [Hxr Hk]]].
      pose proof (size_lt_root r x _ _ H0 Hx Hxr Hk Hkr). lia.
    + assert (K : forall x, reach T r x ->
                            In (size_of T x) (map top ts)).
      { intros x Hx.
        assert (Hxn : In x (nodes T))
          by (eapply dreach_In_nodes; eassumption).
        destruct (size_of_spec T x HT Hxn) as [_ Hk].
        destruct (sig_of_spec T x HT Hxn) as [_ Hs].
        apply in_map_iff. exists (sig_of T x).
        split; [now apply (top_signature x)|].
        apply TL. now exists x. }
      intros k [<- |Hk]; [apply K; constructor|].
      apply LB in Hk. destruct Hk as [x [Hx [_ Hk]]].
      assert (Hxn : In x (nodes T))
        by (eapply dreach_In_nodes; eassumption).
      destruct (size_of_spec T x HT Hxn) as [_ Hk'].
      rewrite (has_size_unique T x k _ Hk Hk'). now apply K.
  - rewrite <- (length_map (sig_of T) (nodes T)).
    apply NoDup_incl_length; [exact NT|]. intros tile Ht.
    apply TL in Ht. destruct Ht as [x [Hx Hs]].
    assert (Hxn : In x (nodes T))
      by (eapply dreach_In_nodes; eassumption).
    destruct (sig_of_spec T x HT Hxn) as [_ Hs'].
    rewrite (has_signature_unique T x tile _ Hs Hs').
    now apply in_map.
Qed.

End Sizes.

(** *** [alg3] *)

Lemma wf_no_nodes T : wf T -> nodes T = [] -> T = empty.
Proof.
  intros HT Hn. pose proof (wf_keys T HT) as Hk. rewrite Hn in Hk.
  destruct T as [s p]. unfold nodes in Hn. cbn [succ pred] in *.
  apply map_eq_nil in Hn, Hk. now subst.
Qed.

Lemma alg3_run_total
  (is_isomorphic : t -> t -> bool) (set_list : list node -> list node)
  G T :
  GraphSpec.wf G -> LSO G = Ok T -> acyclic T ->
  (forall l, incl (set_list l) l) ->
  exists st, alg3_run is_isomorphic set_list G = Ok st /\ 1 <= j st.
Proof.
  intros Hwf HL Hac Hset.
  destruct (TreeFacts.LSO_digraph G T Hwf HL) as [HT _].
  destruct (nodes T) as [|x0 l0] eqn:En.
  - rewrite (wf_no_nodes T HT En) in HL.
    exists (mk_alg3 empty 1 []). split; [|cbn; lia].
    unfold alg3_run. rewrite HL. reflexivity.
  - assert (Hne : nodes T <> []) by (rewrite En; discriminate).
    destruct (DagFacts.dag_longest_path_length_total T HT Hac) as [h Eh].
    destruct (DagFacts.find_root_source T HT Hac Hne) as [Hr _].
    destruct (Alg3Facts.label_leaves_spec T HT (nodes T) (wf_nodes T HT)
                (fun x H => H) T (same_shape_refl T))
      as [T1 [E1 [HS1 _]]].
    destruct (Alg3Facts.alg3_levels_spec is_isomorphic set_list T
                (find_root T) HT Hr Hset (levels h)
                (Alg3Facts.levels_positive h)
                (mk_alg3 T1 1 []) HS1)
      as [st [E2 [_ J]]].
    exists st. split; [|exact J].
    unfold alg3_run. rewrite HL. cbn [bind]. rewrite Eh. cbn [bind].
    rewrite E1. cbn [bind]. exact E2.
Qed.

(** A node that is its own predecessor never gets ready. *)
Lemma topological_sort_self_loop T u fuel :
  In u (preds T u) ->
  forall todo done,
    In u todo -> ~ In u done ->
    topological_sort_from fuel T todo done = Raise NetworkXUnfeasible.
Proof.
  intros Hu. induction fuel as [|fuel IH]; intros todo done Ht Hd.
  - destruct todo; [contradiction | reflexivity].
  - destruct todo as [|x todo]; [contradiction|].
    change (match filter (ready T done) (x :: todo) with
            | [] => Raise NetworkXUnfeasible
            | g :: gen =>
                topological_sort_from fuel T
                  (filter (fun z => negb (ready T done z)) (x :: todo))
                  (done ++ g :: gen)
            end = Raise NetworkXUnfeasible).
    assert (Hr : ready T done u = false).
    { unfold ready. destruct (forallb _ (preds T u)) eqn:E; [|reflexivity].
      exfalso. apply Hd. apply mem_In.
      exact (proj1 (forallb_forall _ _) E u Hu). }
    destruct (filter (ready T done) (x :: todo)) as [|g gen] eqn:Eg;
      [reflexivity|].
    apply IH.
    + apply filter_In. split; [assumption|]. now rewrite Hr.
    + intros H. apply in_app_or in H. destruct H as [H|H]; [contradiction|].
      rewrite <- Eg in H. apply filter_In in H. destruct H as [_ H].
      congruence.
Qed.

End TotalFacts.

(** ** Every edge of the orientation of a tree points to the smaller side *)

Module SideFacts.
Import Graph GraphSpec GraphFacts WalkFacts Invariants.

Section Tree.

Variable G : t.
Variable ds : list (node * node).
Variable T : DiGraph.t.
Hypothesis HT : tree G.
Hypothesis Hds : Forall2 (oriented G) (edges G) ds.
Hypothesis HA : forall a b, In b (DiGraph.adj T a) <-> In (a, b) ds.

Let Hwf : wf G := tree_wf G HT.

(** The descendants of the head of an edge lie on its side of the edge. *)
Lemma below_side p c x :
  In (p, c) ds -> DiGraphSpec.reach T c x -> reach_without G p c c x.
Proof.
  intros Hpc. destruct (TreeFacts.emitted_sides G ds HT Hds p c Hpc) as [Hn _].
  induction 1 as [|y z Hy IH Hz]; [constructor|].
  apply HA in Hz.
  destruct (TreeFacts.emitted_sides G ds HT Hds y z Hz) as [Hyz _].
  eapply rw_step; [exact IH | exact Hyz | |].
  - intros [-> _]. apply (tree_acyclic G HT p c Hn). now apply rw_sym.
  - intros [-> ->]. exact (TreeFacts.emitted_once G ds HT Hds p c Hpc Hz).
Qed.

Lemma sides_disjoint p c lp lc :
  In c (neighbors G p) -> side G p c p lp -> side G p c c lc ->
  length lp + length lc <= length (nodes G).
Proof.
  intros Hn [Np Cp] [Nc Cc]. rewrite <- length_app.
  assert (Hp : In p (nodes G)) by (eapply neighbors_In_nodes; eassumption).
  assert (Hc : In c (nodes G)) by (eapply wf_closed; eassumption).
  apply NoDup_incl_length.
  - apply NoDup_app; trivial. intros w H1 H2. apply Cp in H1. apply Cc in H2.
    apply (tree_acyclic G HT p c Hn). eapply rw_trans; [exact H1|].
    now apply rw_sym.
  - intros w Hw. apply in_app_or in Hw. destruct Hw as [Hw|Hw].
    + apply Cp in Hw. exact (rw_In_nodes G p c p w Hwf Hp Hw).
    + apply Cc in Hw. exact (rw_In_nodes G p c c w Hwf Hc Hw).
Qed.

Lemma head_is_smaller p c k :
  In (p, c) ds -> DiGraphSpec.has_size T c k -> 2 * k <= length (nodes G).
Proof.
  intros Hpc [sub [[N C] <-]].
  destruct (TreeFacts.emitted_sides G ds HT Hds p c Hpc)
    as [Hn [lp [lc [Sp [Sc Hle]]]]].
  pose proof (sides_disjoint p c lp lc Hn Sp Sc) as Hsum.
  assert (Hsub : length sub <= length lc).
  { apply NoDup_incl_length; [exact N|]. intros w Hw.
    apply (proj2 Sc). apply below_side; [exact Hpc|]. now apply C. }
  lia.
Qed.

End Tree.

End SideFacts.

(** ** [alg2] does not depend on the order of the adjacency *)

Module InvarianceFacts.
Import DiGraph DiGraphSpec DiGraphFacts DfsFacts SizeTileFacts Invariants.

Lemma NoDup_equal_length {A : Type} (l1 l2 : list A) :
  NoDup l1 -> NoDup l2 -> (forall x, In x l1 <-> In x l2) ->
  length l1 = length l2.
Proof.
  intros H1 H2 H. apply Permutation_length. now apply NoDup_Permutation.
Qed.

Section SameEdges.

Variables T T2 : t.
Hypothesis HT : wf T.
Hypothesis HT2 : wf T2.
Hypothesis HN : nodes T2 = nodes T.
Hypothesis HA : forall a b, In b (adj T2 a) <-> In b (adj T a).

Lemma same_edges_reach a b : reach T2 a b <-> reach T a b.
Proof.
  split; induction 1 as [|y z Hy IH Hz]; try constructor;
    (eapply reach_step; [exact IH|]); now apply HA.
Qed.

Lemma same_edges_size x k : has_size T2 x k <-> has_size T x k.
Proof.
  split; intros [c [[N C] L]]; exists c; (split; [split|]; trivial);
    intros y; rewrite C; [|symmetry]; apply same_edges_reach.
Qed.

Lemma same_edges_leaf x : adj T2 x = [] <-> adj T x = [].
Proof.
  split; intros E.
  - destruct (adj T x) as [|y l] eqn:E1; [reflexivity|].
    assert (H : In y (adj T2 x)) by (apply HA; rewrite E1; now left).
    rewrite E in H. contradiction.
  - destruct (adj T2 x) as [|y l] eqn:E1; [reflexivity|].
    assert (H : In y (adj T x)) by (apply HA; rewrite E1; now left).
    rewrite E in H. contradiction.
Qed.

Lemma same_edges_signature x tile :
  has_signature T2 x tile <-> has_signature T x tile.
Proof.
  split.
  - intros [[E ->]|[E [c [ks [[N C] [F [S P]]]]]]].
    + left. split; [now apply same_edges_leaf | reflexivity].
    + right. split; [now rewrite <- same_edges_leaf|].
      exists c, ks. split; [split; [exact N|]|split; [|now split]].
      * intros y. rewrite C. apply same_edges_reach.
      * eapply Forall2_impl; [|exact F]. intros a b. apply same_edges_size.
  - intros [[E ->]|[E [c [ks [[N C] [F [S P]]]]]]].
    + left. split; [now apply same_edges_leaf | reflexivity].
    + right. split; [now rewrite same_edges_leaf|].
      exists c, ks. split; [split; [exact N|]|split; [|now split]].
      * intros y. rewrite C. symmetry. apply same_edges_reach.
      * eapply Forall2_impl; [|exact F]. intros a b. apply same_edges_size.
Qed.

Lemma same_edges_in_degree x : in_degree T2 x = in_degree T x.
Proof.
  unfold in_degree. apply NoDup_same_length.
  - apply (wf_preds T2 HT2).
  - apply (wf_preds T HT).
  - intros p. rewrite <- (wf_sym T2 HT2), <- (wf_sym T HT). apply HA.
Qed.

Lemma same_edges_find_root : find_root T2 = find_root T.
Proof.
  rewrite !Alg2Facts.find_root_last, HN. f_equal. apply filter_ext.
  intros x. now rewrite same_edges_in_degree.
Qed.

End SameEdges.

Lemma alg2_same_graph G G2 :
  GraphSpec.wf G -> GraphSpec.wf G2 -> GraphSpec.same_graph G G2 ->
  alg2 G2 = alg2 G.
Proof.
  intros H1 H2 HS.
  destruct (LSOFacts.LSO_run_spec G H1) as [G' [ds [Hrun _]]].
  assert (HL : LSO G = Ok (emit (LSO_init G) ds)).
  { unfold LSO. now rewrite Hrun. }
  remember (emit (LSO_init G) ds) as T eqn:ET. clear ET Hrun.
  destruct (OrderFacts.LSO_same_graph G G2 T H1 H2 HS HL)
    as [T2 [HL2 [HT2 [HN HA]]]].
  destruct (TreeFacts.LSO_digraph G T H1 HL) as [HT _].
  pose proof (same_edges_find_root T T2 HT HT2 HN HA) as Hroot.
  destruct (in_dec Z.eq_dec (find_root T) (nodes T)) as [Hr|Hr].
  - assert (Hr2 : In (find_root T2) (nodes T2)) by now rewrite Hroot, HN.
    destruct (TotalFacts.alg2_reach_spec G T H1 HL Hr)
      as [st [E [NL [NT [LB TL]]]]].
    destruct (TotalFacts.alg2_reach_spec G2 T2 H2 HL2 Hr2)
      as [st2 [E2 [NL2 [NT2 [LB2 TL2]]]]].
    unfold alg2. rewrite E, E2. cbn [bind]. f_equal. f_equal.
    + apply NoDup_equal_length; trivial. intros k. rewrite LB, LB2, Hroot.
      split; intros [x [Hx [Hxr Hk]]]; exists x;
        (split; [|split; [exact Hxr|]]).
      * now apply (same_edges_reach T T2 HA).
      * now apply (same_edges_size T T2 HA).
      * now apply (same_edges_reach T T2 HA).
      * now apply (same_edges_size T T2 HA).
    + apply NoDup_equal_length; trivial. intros tile.
      rewrite TL, TL2, Hroot.
      split; intros [x [Hx Hk]]; exists x; split.
      * now apply (same_edges_reach T T2 HA).
      * now apply (same_edges_signature T T2 HA).
      * now apply (same_edges_reach T T2 HA).
      * now apply (same_edges_signature T T2 HA).
  - rewrite (TotalFacts.alg2_no_root G T HL Hr).
    apply (TotalFacts.alg2_no_root G2 T2 HL2). now rewrite Hroot, HN.
Qed.

End InvarianceFacts.

(** ** Graphs without edges *)

Module EdgelessFacts.
Import DiGraph DiGraphSpec DiGraphFacts DfsFacts SizeTileFacts Invariants.




Section Edgeless.

Variable T : t.
Hypothesis HT : wf T.
Hypothesis Hadj : forall v, adj T v = [].




End Edgeless.



End EdgelessFacts.

(** ** A bound on the labels of [alg3] *)

Module BoundFacts.
Import DiGraph DiGraphSpec DiGraphFacts DfsFacts SizeTileFacts LabelFacts.
Import Invariants.

Section Bound.

Variable is_isomorphic : t -> t -> bool.
Variable set_list : list node -> list node.
Variable T : t.
Variable r : node.
Hypothesis HR : rooted_tree T r.
Hypothesis Hset : forall l, NoDup (set_list l) /\ incl (set_list l) l.

Let HT : wf T := rt_wf T r HR.

Lemma reach_depth x : reach T r x -> exists d, at_depth T r d x.
Proof.
  induction 1 as [|b c Hb [d IH] Hc].
  - exists 0. constructor.
  - exists (S d). econstructor; eassumption.
Qed.

Lemma depth_parent d y :
  at_depth T r (S d) y -> In y (nodes T) /\ preds T y <> [].
Proof.
  inversion 1 as [|d' b c Hb Hc]. subst. split.
  - apply (wf_closed T HT b y Hc).
  - apply (wf_sym T HT) in Hc. intros E. now rewrite E in Hc.
Qed.

(** One level of the loop of [alg3]: the counter grows by no more than
    the number of nodes of the level. *)
Lemma level_bound st i :
  1 <= i -> same_shape T (tree3 st) ->
  exists st' level,
    (forall y, In y level <-> at_depth T r i y) /\
    alg3_level is_isomorphic set_list r st i = Ok st' /\
    same_shape T (tree3 st') /\
    j st <= j st' <= j st + length (set_list level).
Proof.
  intros Hi HS.
  destruct (Alg3Facts.descendants_at_depth T r HR i) as [level [El Hl]].
  assert (Hd : forall y, In y (set_list level) ->
                         In y (nodes T) /\ preds T y <> []).
  { intros y Hy. apply (proj2 (Hset level)) in Hy. apply Hl in Hy.
    destruct i as [|i]; [lia|]. now apply (depth_parent i). }
  destruct (Alg3Facts.alg3_nodes_spec is_isomorphic T HT (set_list level)
              (fun y Hy => proj1 (Hd y Hy)) (fun y Hy => proj2 (Hd y Hy))
              st HS) as [st' [E [HS' [_ J]]]].
  exists st', level. split; [exact Hl|]. split; [|now split].
  unfold alg3_level.
  rewrite (Alg3Facts.descendants_at_distance_shape T (tree3 st) r i HS).
  rewrite El. cbn [bind]. exact E.
Qed.

Lemma levels_bound lv :
  NoDup lv -> (forall i, In i lv -> 1 <= i) ->
  forall st,
    same_shape T (tree3 st) ->
    exists st' L,
      foldM (alg3_level is_isomorphic set_list r) lv st = Ok st' /\
      same_shape T (tree3 st') /\
      j st <= j st' <= j st + length L /\
      NoDup L /\
      forall y, In y L -> exists i, In i lv /\ at_depth T r i y.
Proof.
  induction lv as [|i lv IH]; intros Hnd Hpos st HS.
  - exists st, []. cbn [foldM length]. split; [reflexivity|].
    split; [exact HS|]. split; [lia|]. split; [constructor|].
    intros y [].
  - inversion Hnd as [|? ? Hi Hlv]. subst.
    destruct (level_bound st i (Hpos i (or_introl eq_refl)) HS)
      as [st1 [level [Hl [E1 [HS1 J1]]]]].
    destruct (IH Hlv (fun k Hk => Hpos k (or_intror Hk)) st1 HS1)
      as [st' [L [E [HS' [J [NL HL]]]]]].
    exists st', (set_list level ++ L). cbn [foldM]. rewrite E1. cbn [bind].
    split; [exact E|]. split; [exact HS'|]. rewrite length_app.
    split; [lia|]. split.
    + apply NoDup_app; [apply (Hset level) | exact NL|].
      intros y Hy HyL. apply (proj2 (Hset level)) in Hy. apply Hl in Hy.
      destruct (HL y HyL) as [k [Hk Hky]].
      rewrite (Alg3Facts.depth_unique T r HR i y Hy k Hky) in Hi.
      contradiction.
    + intros y Hy. apply in_app_or in Hy. destruct Hy as [Hy|Hy].
      * exists i. split; [now left|]. apply Hl.
        now apply (proj2 (Hset level)).
      * destruct (HL y Hy) as [k [Hk Hky]]. exists k.
        split; [now right | exact Hky].
Qed.

Lemma levels_range h i : In i (levels h) <-> 1 <= i /\ i + 1 <= h.
Proof.
  unfold levels. rewrite <- in_rev, in_seq. lia.
Qed.

Lemma alg3_run_bound G :
  LSO G = Ok T -> 2 <= length (nodes T) ->
  exists st,
    alg3_run is_isomorphic set_list G = Ok st /\
    1 <= j st /\ j st + 1 <= length (nodes T).
Proof.
  intros HL Hn.
  destruct (Alg3Facts.dag_longest_path_length_ok T r HR) as [h Eh].
  destruct (Alg3Facts.dag_longest_path_length_height T r HR h Eh)
    as [[xh Hxh] Hmax].
  destruct (Alg3Facts.label_leaves_spec T HT (nodes T) (wf_nodes T HT)
              (fun x H => H) T (same_shape_refl T))
    as [T1 [E1 [HS1 _]]].
  destruct (levels_bound (levels h)) with (st := mk_alg3 T1 1 [])
    as [st [L [E [_ [J [NL HLv]]]]]].
  - unfold levels. apply NoDup_rev. apply seq_NoDup.
  - intros i Hi. now apply levels_range in Hi.
  - exact HS1.
  - exists st. split; [|split; [cbn [j] in J; lia|]].
    + unfold alg3_run. rewrite HL. cbn [bind]. rewrite Eh. cbn [bind].
      rewrite E1. cbn [bind].
      now rewrite (Alg2Facts.find_root_rooted T r HR).
    + assert (Hh : 1 <= h).
      { destruct (nodes T) as [|a [|b l]] eqn:En;
          [cbn in Hn; lia | cbn in Hn; lia|].
        assert (Hab : a <> b).
        { pose proof (wf_nodes T HT) as Hnd. rewrite En in Hnd.
          inversion Hnd as [|? ? Ha _]. intros ->. apply Ha. now left. }
        assert (Hx : exists x, In x (nodes T) /\ x <> r).
        { destruct (Z.eq_dec a r) as [-> |Ha].
          - exists b. split; [rewrite En; right; now left|].
            intros E'. now symmetry in E'.
          - exists a. split; [rewrite En; now left | exact Ha]. }
        destruct Hx as [x [Hx Hxr]].
        destruct (reach_depth x (rt_reach T r HR x Hx)) as [d Hd].
        destruct d as [|d]; [inversion Hd; congruence|].
        pose proof (Hmax _ _ Hd). lia. }
      assert (Hxhn : In xh (nodes T)).
      { destruct h as [|h']; [lia|]. now apply (depth_parent h'). }
      assert (K : length (r :: xh :: L) <= length (nodes T)).
      { apply NoDup_incl_length.
        - constructor; [|constructor; [|exact NL]].
          + intros [E'|Hr].
            * subst xh.
              pose proof (Alg3Facts.depth_unique T r HR h r Hxh 0
                            (depth_O T r)). lia.
            * destruct (HLv r Hr) as [i [Hi Hd]]. apply levels_range in Hi.
              pose proof (Alg3Facts.depth_unique T r HR i r Hd 0
                            (depth_O T r)). lia.
          + intros Hx. destruct (HLv xh Hx) as [i [Hi Hd]].
            apply levels_range in Hi.
            pose proof (Alg3Facts.depth_unique T r HR i xh Hd h Hxh). lia.
        - intros y [<- |[<- |Hy]];
            [exact (rt_root T r HR) | exact Hxhn|].
          destruct (HLv y Hy) as [i [Hi Hd]]. apply levels_range in Hi.
          destruct i as [|i]; [lia|]. now apply (depth_parent i). }
      cbn [length j] in *. lia.
Qed.

End Bound.

End BoundFacts.

(** ** The size of a subtree, from the sizes below it *)

Module RecurrenceFacts.
Import DiGraph DiGraphSpec DiGraphFacts DfsFacts SizeTileFacts Invariants.

Section Rooted.

Variable T : t.
Variable r : node.
Hypothesis HR : rooted_tree T r.

Let HT : wf T := rt_wf T r HR.

(** Of two nodes that reach the same node, one reaches the other. *)
Lemma ancestors_chain a b y :
  reach T a y -> reach T b y -> reach T a b \/ reach T b a.
Proof.
  induction 1 as [|y' y Hy' IH Hy]; intros Hb; [now right|].
  inversion Hb as [E|b' c Hb' Hc E]; subst.
  - left. eapply reach_step; eassumption.
  - rewrite (RootedFacts.pred_unique T r HR y y' b' Hy Hc) in IH.
    now apply IH.
Qed.

Lemma child_not_above x c : In c (adj T x) -> ~ reach T c x.
Proof.
  intros Hc Hcx. apply (RootedFacts.no_cycle T r HR c).
  - apply (rt_reach T r HR). apply (wf_closed T HT x c Hc).
  - exists x. now split.
Qed.

Lemma child_above_child x c1 c2 :
  In c1 (adj T x) -> In c2 (adj T x) -> reach T c1 c2 -> c1 = c2.
Proof.
  intros H1 H2 H. inversion H as [E|b c Hb Hc E]; [reflexivity|]. subst.
  rewrite (RootedFacts.pred_unique T r HR c2 b x Hc H2) in Hb.
  exfalso. exact (child_not_above x c1 H1 Hb).
Qed.

(** The subtrees of two children of a node have no node in common. *)
Lemma children_disjoint x c1 c2 y :
  In c1 (adj T x) -> In c2 (adj T x) ->
  reach T c1 y -> reach T c2 y -> c1 = c2.
Proof.
  intros H1 H2 R1 R2. destruct (ancestors_chain c1 c2 y R1 R2) as [H|H].
  - now apply (child_above_child x).
  - symmetry. now apply (child_above_child x).
Qed.

Lemma first_step x y :
  reach T x y -> y = x \/ exists c, In c (adj T x) /\ reach T c y.
Proof.
  induction 1 as [|b c Hb IH Hc]; [now left|]. right.
  destruct IH as [-> |[c0 [H0 Hr]]].
  - exists c. split; [exact Hc | constructor].
  - exists c0. split; [exact H0|]. eapply reach_step; eassumption.
Qed.

Lemma children_subtrees x cs :
  incl cs (adj T x) -> NoDup cs ->
  forall ks,
    Forall2 (has_size T) cs ks ->
    exists L,
      NoDup L /\ length L = list_sum ks /\
      forall y, In y L <-> exists c, In c cs /\ reach T c y.
Proof.
  intros Hin Hnd ks F. induction F as [|c k cs ks Hk F IH].
  - exists []. split; [constructor|]. split; [reflexivity|].
    intros y. split; [intros [] | intros [c [[] _]]].
  - inversion Hnd as [|? ? Hc Hcs]. subst.
    destruct IH as [L [NL [LL HL]]];
      [intros z Hz; apply Hin; now right | exact Hcs|].
    destruct Hk as [sub [[Ns Cs] Ls]].
    exists (sub ++ L). split; [|split].
    + apply NoDup_app; trivial. intros y Hy HyL. apply Cs in Hy.
      apply HL in HyL. destruct HyL as [c' [Hc' Hr']].
      apply Hc.
      rewrite (children_disjoint x c c' y (Hin c (or_introl eq_refl))
                 (Hin c' (or_intror Hc')) Hy Hr').
      exact Hc'.
    + rewrite length_app, Ls, LL. reflexivity.
    + intros y. rewrite in_app_iff, Cs, HL. split.
      * intros [H|[c' [Hc' H]]]; [exists c | exists c']; split; trivial;
          [now left | now right].
      * intros [c' [[<- |Hc'] H]]; [now left|]. right. now exists c'.
Qed.

(** The subtree of a node has one node more than the subtrees of its
    successors together. *)
Lemma size_recurrence x ks :
  Forall2 (has_size T) (adj T x) ks -> has_size T x (1 + list_sum ks).
Proof.
  intros F.
  destruct (children_subtrees x (adj T x) (incl_refl _) (wf_adj T HT x) ks F)
    as [L [NL [LL HL]]].
  exists (x :: L). split; [split|].
  - constructor; [|exact NL]. intros Hx. apply HL in Hx.
    destruct Hx as [c [Hc Hcx]]. exact (child_not_above x c Hc Hcx).
  - intros y. split.
    + intros [<- |Hy]; [constructor|]. apply HL in Hy.
      destruct Hy as [c [Hc Hcy]]. eapply reach_first; eassumption.
    + intros Hy. destruct (first_step x y Hy) as [-> |H]; [now left|].
      right. now apply HL.
  - cbn [length]. now rewrite LL.
Qed.

Lemma subtree_size_recurrence x :
  In x (nodes T) ->
  exists k ks,
    subtree_size T x = Ok k /\
    mapM (subtree_size T) (adj T x) = Ok ks /\
    k = 1 + list_sum ks.
Proof.
  intros Hx. destruct (subtree_size_spec T x HT Hx) as [k [Ek Hk]].
  destruct (mapM_subtree_size T (adj T x) HT) as [ks [Eks F]].
  { intros c Hc. apply (wf_closed T HT x c Hc). }
  exists k, ks. split; [exact Ek|]. split; [exact Eks|].
  exact (has_size_unique T x _ _ Hk (size_recurrence x ks F)).
Qed.

End Rooted.

End RecurrenceFacts.

(** ** The labels of [alg3] are used once *)

Module FreshFacts.
Import DiGraph DiGraphSpec DiGraphFacts DfsFacts SizeTileFacts LabelFacts.
Import Invariants.

Lemma edge_data_adj T a b d : edge_data T a b = Ok d -> In b (adj T a).
Proof.
  unfold edge_data, adj.
  destruct (lookup (succ T) a) as [sl|]; [|discriminate].
  destruct (lookup sl b) eqn:E; [|discriminate]. intros _.
  eapply lookup_Some_keys. eassumption.
Qed.

Lemma lookup_set_succ sl v b :
  lookup (set_succ sl v) b
  = match lookup sl b with
    | Some d => Some d
    | None => if Z.eqb v b then Some None else None
    end.
Proof.
  induction sl as [|[w d] r IH]; cbn [set_succ lookup]; [reflexivity|].
  destruct (Z.eqb w v) eqn:E; cbn [lookup].
  - destruct (Z.eqb w b) eqn:E1; [reflexivity|].
    apply Z.eqb_eq in E. subst w. rewrite E1.
    now destruct (lookup r b).
  - destruct (Z.eqb w b); [reflexivity | exact IH].
Qed.

Lemma no_labels_add_node T u : no_labels T -> no_labels (add_node T u).
Proof.
  intros H. unfold add_node. destruct (mem u (nodes T)); [exact H|].
  intros a b d. unfold edge_data. cbn [succ]. rewrite lookup_app_new.
  destruct (lookup (succ T) a) as [sl|] eqn:E.
  - intros Hd. apply (H a b). unfold edge_data. now rewrite E.
  - destruct (Z.eqb u a); discriminate.
Qed.

Lemma no_labels_add_edge T u v : no_labels T -> no_labels (add_edge T u v).
Proof.
  intros H.
  assert (H2 : no_labels (add_node (add_node T u) v))
    by now apply no_labels_add_node, no_labels_add_node.
  intros a b d. unfold add_edge, edge_data. cbn [succ].
  rewrite lookup_update. destruct (Z.eqb a u) eqn:E.
  - apply Z.eqb_eq in E. subst a.
    destruct (lookup (succ (add_node (add_node T u) v)) u) as [sl|] eqn:El;
      cbn [option_map]; [|discriminate].
    rewrite lookup_set_succ. destruct (lookup sl b) as [d'|] eqn:Eb.
    + intros [= <-]. apply (H2 u b). unfold edge_data. now rewrite El, Eb.
    + destruct (Z.eqb v b); [now intros [= <-] | discriminate].
  - intros Hd. apply (H2 a b). exact Hd.
Qed.

Lemma no_labels_emit T ds : no_labels T -> no_labels (emit T ds).
Proof.
  revert T. induction ds as [|[u v] ds IH]; intros T H; [exact H|].
  apply IH. now apply no_labels_add_edge.
Qed.

Lemma LSO_no_labels G T : GraphSpec.wf G -> LSO G = Ok T -> no_labels T.
Proof.
  intros Hwf HL.
  destruct (LSOFacts.LSO_run_spec G Hwf) as [G' [ds [Hrun _]]].
  unfold LSO in HL. rewrite Hrun in HL. cbn [bind] in HL.
  injection HL as <-. apply no_labels_emit. unfold LSO_init, add_nodes_from.
  assert (K : forall ns T0, no_labels T0 ->
                            no_labels (fold_left add_node ns T0)).
  { induction ns as [|n ns IH]; intros T0 H0; [exact H0|].
    apply IH. now apply no_labels_add_node. }
  apply K. intros a b d. discriminate.
Qed.

Section Fresh.

Variable is_isomorphic : t -> t -> bool.
Variable set_list : list node -> list node.
Variable T : t.
Variable r : node.
Hypothesis HR : rooted_tree T r.
Hypothesis Hset : forall l, incl (set_list l) l.

Let HT : wf T := rt_wf T r HR.

Lemma single_pred x : In x (nodes T) -> x <> r -> exists p, preds T x = [p].
Proof.
  intros Hx Hxr. pose proof (rt_degree T r HR x Hx Hxr) as H.
  unfold in_degree in H. destruct (preds T x) as [|p [|q l]]; try discriminate.
  now exists p.
Qed.

Lemma edge_into Tc a l p d :
  same_shape T Tc -> preds T l = [p] -> edge_data Tc a l = Ok d -> a = p.
Proof.
  intros [_ [HA _]] Hp Hd. apply edge_data_adj in Hd. rewrite HA in Hd.
  apply (wf_sym T HT) in Hd. rewrite Hp in Hd.
  destruct Hd as [<- |[]]. reflexivity.
Qed.

Lemma body_fresh st l :
  same_shape T (tree3 st) -> In l (nodes T) -> l <> r ->
  labels_ok (tree3 st) (j st) ->
  exists st',
    alg3_body is_isomorphic st l = Ok st' /\
    same_shape T (tree3 st') /\ labels_ok (tree3 st') (j st') /\
    j st <= j st' /\
    forall a b k, edge_data (tree3 st) a b = Ok (Some k) ->
                  edge_data (tree3 st') a b = Ok (Some k).
Proof.
  intros HS Hl Hlr [I1 I2]. destruct (single_pred l Hl Hlr) as [p Hp].
  destruct (Alg3Facts.alg3_body_spec is_isomorphic T HT st l p [] HS Hl Hp)
    as [sub [d [_ [Ed [T' [E [HS' [Hother Hcond]]]]]]]].
  eexists. split; [exact E|]. cbn [tree3 j]. split; [exact HS'|].
  destruct (negb (existsb (is_isomorphic sub) (subgraphs st))
            && match d with None => true | Some _ => false end) eqn:C.
  - apply andb_prop in C. destruct C as [_ C].
    destruct d as [k0|]; [discriminate|].
    assert (Hnew : forall a k, edge_data T' a l = Ok (Some k) ->
                               k = j st + 1).
    { intros a k Hk. rewrite (edge_into T' a l p _ HS' Hp Hk) in Hk.
      rewrite Hcond in Hk. now injection Hk. }
    assert (Hold : forall a b k, b <> l -> edge_data T' a b = Ok (Some k) ->
                                 1 <= k <= j st).
    { intros a b k Hb Hk. rewrite (Hother a b Hb) in Hk.
      exact (I1 a b k Hk). }
    split; [split|split; [lia|]].
    + intros a b k Hk. destruct (Z.eq_dec b l) as [-> |Hb].
      * rewrite (Hnew a k Hk). lia.
      * pose proof (Hold a b k Hb Hk). lia.
    + intros a b a' b' k Hk2 Hk Hk'.
      destruct (Z.eq_dec b l) as [-> |Hb], (Z.eq_dec b' l) as [-> |Hb'].
      * reflexivity.
      * pose proof (Hnew a k Hk). pose proof (Hold a' b' k Hb' Hk'). lia.
      * pose proof (Hnew a' k Hk'). pose proof (Hold a b k Hb Hk). lia.
      * rewrite (Hother a b Hb) in Hk. rewrite (Hother a' b' Hb') in Hk'.
        exact (I2 a b a' b' k Hk2 Hk Hk').
    + intros a b k Hk. destruct (Z.eq_dec b l) as [-> |Hb].
      * rewrite (edge_into (tree3 st) a l p _ HS Hp Hk) in Hk.
        rewrite Ed in Hk. discriminate.
      * now rewrite (Hother a b Hb).
  - subst T'. split; [now split|]. split; [lia|]. auto.
Qed.

Lemma nodes_fresh ls :
  (forall l, In l ls -> In l (nodes T) /\ l <> r) ->
  forall st,
    same_shape T (tree3 st) -> labels_ok (tree3 st) (j st) ->
    exists st',
      foldM (alg3_body is_isomorphic) ls st = Ok st' /\
      same_shape T (tree3 st') /\ labels_ok (tree3 st') (j st') /\
      j st <= j st' /\
      forall a b k, edge_data (tree3 st) a b = Ok (Some k) ->
                    edge_data (tree3 st') a b = Ok (Some k).
Proof.
  induction ls as [|l ls IH]; intros Hls st HS HI.
  - exists st. cbn [foldM]. split; [reflexivity|]. split; [exact HS|].
    split; [exact HI|]. split; [lia | auto].
  - destruct (Hls l (or_introl eq_refl)) as [Hl Hlr].
    destruct (body_fresh st l HS Hl Hlr HI) as [st1 [E1 [HS1 [HI1 [J1 P1]]]]].
    destruct (IH (fun x Hx => Hls x (or_intror Hx)) st1 HS1 HI1)
      as [st' [E [HS' [HI' [J P]]]]].
    exists st'. cbn [foldM]. rewrite E1. cbn [bind].
    split; [exact E|]. split; [exact HS'|]. split; [exact HI'|].
    split; [lia|]. intros a b k Hk. apply P. now apply P1.
Qed.

Lemma levels_fresh lv :
  (forall i, In i lv -> 1 <= i) ->
  forall st,
    same_shape T (tree3 st) -> labels_ok (tree3 st) (j st) ->
    exists st',
      foldM (alg3_level is_isomorphic set_list r) lv st = Ok st' /\
      same_shape T (tree3 st') /\ labels_ok (tree3 st') (j st') /\
      j st <= j st' /\
      forall a b k, edge_data (tree3 st) a b = Ok (Some k) ->
                    edge_data (tree3 st') a b = Ok (Some k).
Proof.
  induction lv as [|i lv IH]; intros Hlv st HS HI.
  - exists st. cbn [foldM]. split; [reflexivity|]. split; [exact HS|].
    split; [exact HI|]. split; [lia | auto].
  - destruct (Alg3Facts.descendants_at_depth T r HR i) as [level [El _]].
    pose proof (Alg3Facts.descendants_have_parents T r i level
                  (Hlv i (or_introl eq_refl)) El) as Hpar.
    destruct (nodes_fresh (set_list level)) with (st := st)
      as [st1 [E1 [HS1 [HI1 [J1 P1]]]]]; trivial.
    { intros y Hy. apply Hset in Hy. destruct (Hpar y Hy) as [b Hb]. split.
      - apply (wf_closed T HT b y Hb).
      - intros ->. exact (Alg3Facts.root_no_pred T r HR b Hb). }
    destruct (IH (fun k Hk => Hlv k (or_intror Hk)) st1 HS1 HI1)
      as [st' [E [HS' [HI' [J P]]]]].
    exists st'. cbn [foldM]. unfold alg3_level at 1.
    rewrite (Alg3Facts.descendants_at_distance_shape T (tree3 st) r i HS), El.
    cbn [bind]. rewrite E1. cbn [bind].
    split; [exact E|]. split; [exact HS'|]. split; [exact HI'|].
    split; [lia|]. intros a b k Hk. apply P. now apply P1.
Qed.

Lemma alg3_run_fresh G :
  LSO G = Ok T -> no_labels T ->
  exists st,
    alg3_run is_isomorphic set_list G = Ok st /\
    same_shape T (tree3 st) /\ labels_ok (tree3 st) (j st) /\
    forall x p, In x (nodes T) -> out_degree T x = 0 ->
                In p (preds T x) ->
                edge_data (tree3 st) p x = Ok (Some 1).
Proof.
  intros HL Hno.
  destruct (Alg3Facts.dag_longest_path_length_ok T r HR) as [h Eh].
  destruct (Alg3Facts.label_leaves_spec T HT (nodes T) (wf_nodes T HT)
              (fun x H => H) T (same_shape_refl T))
    as [T1 [E1 [HS1 [L1 L2]]]].
  assert (Hleaf : forall x p, In x (nodes T) -> out_degree T x = 0 ->
                              In p (preds T x) -> leafb T x = true).
  { intros x p Hx H0 Hp. unfold leafb. rewrite H0. cbn [Nat.eqb andb].
    apply Nat.eqb_eq. apply (rt_degree T r HR x Hx). intros ->.
    apply (wf_sym T HT) in Hp. exact (Alg3Facts.root_no_pred T r HR p Hp). }
  assert (K : forall a b k, edge_data T1 a b = Ok (Some k) -> k = 1).
  { intros a b k Hk.
    assert (Hab : In b (adj T a)).
    { apply edge_data_adj in Hk. destruct HS1 as [_ [HA _]].
      now rewrite HA in Hk. }
    destruct (leafb T b) eqn:Eb.
    - rewrite (L1 b a) in Hk; trivial.
      + now injection Hk.
      + apply (wf_closed T HT a b Hab).
      + now apply (wf_sym T HT).
    - rewrite L2 in Hk; [|intros [_ H]; congruence].
      apply Hno in Hk. discriminate. }
  assert (HI1 : labels_ok T1 1).
  { split.
    - intros a b k Hk. rewrite (K a b k Hk). lia.
    - intros a b a' b' k Hk2 Hk _. rewrite (K a b k Hk) in Hk2. lia. }
  destruct (levels_fresh (levels h) (Alg3Facts.levels_positive h)
              (mk_alg3 T1 1 []) HS1 HI1)
    as [st [E [HS [HI [_ P]]]]].
  exists st. split; [|split; [exact HS|split; [exact HI|]]].
  - unfold alg3_run. rewrite HL. cbn [bind]. rewrite Eh. cbn [bind].
    rewrite E1. cbn [bind].
    now rewrite (Alg2Facts.find_root_rooted T r HR).
  - intros x p Hx H0 Hp. apply P. cbn [tree3].
    apply L1; trivial. now apply (Hleaf x p).
Qed.

End Fresh.

End FreshFacts.

(** ** The program on its examples *)

(** The counts that the program prints for its own graph. *)
Example alg2_G_main : alg2 G_main = Ok (4, 6).
Proof. vm_compute. reflexivity. Qed.

Example alg3_G_main : alg3 is_isomorphic_tree in_order G_main = Ok (5, 6).
Proof. vm_compute. reflexivity. Qed.

(** The orienter puts every edge back without its attributes, and at the
    end of the adjacency of both ends. *)
Example LSO_drops_edge_attributes :
  LSO_run G_weighted
  = Ok ([(1%Z, [(2%Z, [])]); (2%Z, [(1%Z, [])])],
        emit (LSO_init G_weighted) [(1, 2)]%Z).
Proof. vm_compute. reflexivity. Qed.

(** On the path graphs of 2 to 6 nodes, [alg2] returns n/2 labels and
    n/2 + 1 tiles. *)
Example alg2_paths :
  alg2 G_path2 = Ok (1, 2) /\ alg2 G_path3 = Ok (1, 2) /\
  alg2 G_path4 = Ok (2, 3) /\ alg2 G_path5 = Ok (2, 3) /\
  alg2 G_path6 = Ok (3, 4).
Proof. repeat split; vm_compute; reflexivity. Qed.

(** Without a node of in-degree 0 the root is the default 0: on the empty
    graph [alg2] raises the [KeyError] of the search from a node that is
    not in the graph, and [alg3], whose loops are empty, returns (1, 2). *)
Example no_root_empty_graph :
  LSO [] = Ok DiGraph.empty /\ find_root DiGraph.empty = 0%Z /\
  alg2 [] = Raise KeyError /\
  alg3 is_isomorphic_tree in_order [] = Ok (1, 2).
Proof. repeat split. Qed.

(** The example graph is a tree, and its orientation is a rooted tree
    with root 5. *)
Lemma G_main_tree : GraphSpec.tree G_main.
Proof. apply TreeCheckFacts.treeb_tree. vm_compute. reflexivity. Qed.

Lemma LSO_G_main : LSO G_main = Ok T_main.
Proof. vm_compute. reflexivity. Qed.

Lemma T_main_rooted : DiGraphSpec.rooted_tree T_main 5%Z.
Proof.
  destruct (TreeFacts.LSO_tree G_main G_main_tree) as [T [r [HL [_ HR]]]].
  rewrite LSO_G_main in HL. injection HL as <-.
  replace 5%Z with r; [exact HR|].
  rewrite <- (Alg2Facts.find_root_rooted T_main r HR).
  vm_compute. reflexivity.
Qed.

(** * The claims *)

Import GraphSpec.

(** C1. For every edge [(u, v)] of the input graph, in the order of
    [G.edges], the orienter measures the components of [u] and of [v] in
    the graph without that edge and emits [(v, u)] if [l2 > l1] and [(u, v)]
    otherwise: the directed graph returned is the result of emitting, in
    order, one directed edge per input edge, each given by the rule, and
    has these edges and no other; and when the two sizes are equal the edge
    emitted is [(u, v)]. *)
Theorem LSO_orients_every_edge (G : Graph.t) :
  wf G ->
  exists G' ds,
    LSO_run G = Ok (G', emit (LSO_init G) ds) /\
    (forall a b, In b (DiGraph.adj (emit (LSO_init G) ds) a) <-> In (a, b) ds) /\
    Forall2 (oriented G) (Graph.edges G) ds /\
    Forall2 (fun e d =>
               forall G1 c1 c2,
                 minus_edge G G1 (fst (fst e)) (snd (fst e)) ->
                 is_component G1 (fst (fst e)) c1 ->
                 is_component G1 (snd (fst e)) c2 ->
                 (length c1 < length c2 -> d = (snd (fst e), fst (fst e))) /\
                 (length c2 < length c1 -> d = fst e) /\
                 (length c1 = length c2 -> d = fst e))
            (Graph.edges G) ds.
Proof.
  intros Hwf.
  destruct (LSOFacts.LSO_run_spec G Hwf) as [G' [ds [Hrun [Hds _]]]].
  exists G', ds. split; [exact Hrun|]. split.
  { intros a b. rewrite DiGraphFacts.In_adj_emit.
    destruct (DiGraphFacts.LSO_init_spec G (wf_nodes G Hwf)) as [_ [_ [A _]]].
    rewrite A. simpl. tauto. }
  split; [exact Hds|].
  clear Hrun. induction Hds as [|[[u v] a] d es ds Hd Hds IH]; constructor.
  - cbn [fst snd]. intros G1 c1 c2 M C1 C2.
    rewrite (SizeFacts.oriented_unique G u v a d G1 c1 c2 Hd M C1 C2).
    repeat split; intros H.
    + apply Nat.ltb_lt in H. now rewrite H.
    + assert (E : (length c1 <? length c2) = false) by (apply Nat.ltb_ge; lia).
      now rewrite E.
    + assert (E : (length c1 <? length c2) = false) by (apply Nat.ltb_ge; lia).
      now rewrite E.
  - exact IH.
Qed.

Lemma LSO_orients_every_edge_witness :
  wf G_main /\
  exists G' ds,
    LSO_run G_main = Ok (G', emit (LSO_init G_main) ds) /\
    (forall a b, In b (DiGraph.adj (emit (LSO_init G_main) ds) a)
                 <-> In (a, b) ds) /\
    Forall2 (oriented G_main) (Graph.edges G_main) ds /\
    Forall2 (fun e d =>
               forall G1 c1 c2,
                 minus_edge G_main G1 (fst (fst e)) (snd (fst e)) ->
                 is_component G1 (fst (fst e)) c1 ->
                 is_component G1 (snd (fst e)) c2 ->
                 (length c1 < length c2 -> d = (snd (fst e), fst (fst e))) /\
                 (length c2 < length c1 -> d = fst e) /\
                 (length c1 = length c2 -> d = fst e))
            (Graph.edges G_main) ds.
Proof.
  assert (H : wf G_main) by (apply CheckFacts.wfb_wf; vm_compute; reflexivity).
  split; [exact H | exact (LSO_orients_every_edge G_main H)].
Defined.

(** C8. The removal of an edge by the orienter is transient: every
    iteration of the loop starts in a graph with the nodes and the edges of
    the input graph, and so does the graph that [LSO] leaves behind. *)
Theorem LSO_restores_the_graph (G : Graph.t) :
  wf G ->
  length (LSO_states G) = length (Graph.edges G) /\
  Forall (fun st => same_graph G (fst st)) (LSO_states G) /\
  exists G' T, LSO_run G = Ok (G', T) /\ same_graph G G'.
Proof.
  intros Hwf.
  destruct (LSOFacts.LSO_run_spec G Hwf)
    as [G' [ds [Hrun [_ [_ [Hsame [Hlen Hst]]]]]]].
  split; [exact Hlen|]. split; [exact Hst|]. now exists G', (emit (LSO_init G) ds).
Qed.

Lemma LSO_restores_the_graph_witness :
  wf G_main /\
  length (LSO_states G_main) = length (Graph.edges G_main) /\
  Forall (fun st => same_graph G_main (fst st)) (LSO_states G_main) /\
  exists G' T, LSO_run G_main = Ok (G', T) /\ same_graph G_main G'.
Proof.
  assert (H : wf G_main) by (apply CheckFacts.wfb_wf; vm_compute; reflexivity).
  split; [exact H | exact (LSO_restores_the_graph G_main H)].
Defined.

(** C6, as the code has it.  The orienter has no check of connectedness and
    raises no error: for every graph, connected or not, it emits one
    directed edge per input edge and returns the directed graph. *)
Theorem LSO_never_rejects (G : Graph.t) :
  wf G ->
  exists ds,
    LSO G = Ok (emit (LSO_init G) ds) /\
    length ds = length (Graph.edges G).
Proof.
  intros Hwf.
  destruct (LSOFacts.LSO_run_spec G Hwf) as [G' [ds [Hrun [Hds _]]]].
  exists ds. unfold LSO. rewrite Hrun. split; [reflexivity|].
  symmetry. eapply Forall2_length; eassumption.
Qed.

Lemma LSO_never_rejects_witness :
  wf G_two_edges /\
  exists ds,
    LSO G_two_edges = Ok (emit (LSO_init G_two_edges) ds) /\
    length ds = length (Graph.edges G_two_edges).
Proof.
  assert (H : wf G_two_edges)
    by (apply CheckFacts.wfb_wf; vm_compute; reflexivity).
  split; [exact H | exact (LSO_never_rejects G_two_edges H)].
Defined.

(** C6, the claim refuted: a graph that is not connected, on which the
    orienter orients both edges and returns a directed graph. *)
Lemma LSO_accepts_disconnected :
  wf G_two_edges /\ ~ connected G_two_edges /\
  LSO G_two_edges
  = Ok (emit (LSO_init G_two_edges) [(1, 2); (3, 4)]%Z).
Proof.
  assert (H : wf G_two_edges)
    by (apply CheckFacts.wfb_wf; vm_compute; reflexivity).
  split; [exact H|]. split; [|vm_compute; reflexivity].
  intros Hc.
  assert (H1 : In 1%Z (Graph.nodes G_two_edges)) by (vm_compute; tauto).
  assert (H3 : In 3%Z (Graph.nodes G_two_edges)) by (vm_compute; tauto).
  specialize (Hc 1%Z 3%Z H1 H3).
  destruct (ComponentFacts.node_connected_component_spec G_two_edges 1%Z H H1)
    as [c [Ec [_ Hcomp]]].
  apply Hcomp in Hc. vm_compute in Ec. injection Ec as <-.
  simpl in Hc. intuition discriminate.
Qed.

(** C2, the claim refuted: the triangle is a connected simple graph, and
    in its orientation node 1 has in-degree 0 while node 3, which is another
    node, has in-degree 2. *)
Lemma LSO_triangle_in_degree_two :
  wf G_triangle /\ simple G_triangle /\ connected G_triangle /\
  exists T,
    LSO G_triangle = Ok T /\
    DiGraph.in_degree T 1%Z = 0 /\ DiGraph.in_degree T 3%Z = 2.
Proof.
  assert (H : wf G_triangle)
    by (apply CheckFacts.wfb_wf; vm_compute; reflexivity).
  split; [exact H|]. split; [|split].
  - apply TreeCheckFacts.simpleb_simple. vm_compute. reflexivity.
  - apply (TreeCheckFacts.connectedb_connected G_triangle H).
    vm_compute. reflexivity.
  - eexists. split; [vm_compute; reflexivity|]. split; reflexivity.
Qed.

(** C2, as the code has it.  For every tree with n nodes, the directed
    graph returned by the orienter has the same n nodes, exactly one node of
    in-degree 0, the root, and every other node has in-degree exactly 1;
    the root reaches every node along the directed edges. *)
Theorem LSO_of_tree_is_rooted (G : Graph.t) :
  tree G ->
  exists T r,
    LSO G = Ok T /\
    DiGraph.nodes T = Graph.nodes G /\
    In r (DiGraph.nodes T) /\
    DiGraph.in_degree T r = 0 /\
    (forall x, In x (DiGraph.nodes T) -> x <> r ->
               DiGraph.in_degree T x = 1) /\
    (forall x, In x (DiGraph.nodes T) -> DiGraphSpec.reach T r x).
Proof.
  intros HT. destruct (TreeFacts.LSO_tree G HT) as [T [r [HL [HN HR]]]].
  exists T, r. split; [exact HL|]. split; [exact HN|].
  destruct HR as [_ H1 H2 H3 H4].
  split; [exact H1|]. split; [exact H2|]. split; [exact H3 | exact H4].
Qed.

Lemma LSO_of_tree_is_rooted_witness :
  tree G_main /\
  exists T r,
    LSO G_main = Ok T /\
    DiGraph.nodes T = Graph.nodes G_main /\
    In r (DiGraph.nodes T) /\
    DiGraph.in_degree T r = 0 /\
    (forall x, In x (DiGraph.nodes T) -> x <> r ->
               DiGraph.in_degree T x = 1) /\
    (forall x, In x (DiGraph.nodes T) -> DiGraphSpec.reach T r x).
Proof.
  split; [exact G_main_tree | exact (LSO_of_tree_is_rooted G_main G_main_tree)].
Defined.

Import DiGraphSpec.

(** C3. For every input graph whose orientation is a rooted tree (of two
    nodes or more, or of one), [alg2] gives the edge into each node [x]
    other than the root the size of the subtree of [x] as its label, and
    returns the number of distinct subtree sizes of the nodes other than the
    root and the number of distinct tile signatures of all the nodes: the
    lists [labels] and [tiles] that it counts have no duplicates, [labels]
    has exactly those sizes and [tiles] exactly those signatures, tiles
    being compared as lists of numbers. *)
Theorem alg2_labels_and_counts (G : Graph.t) (T : DiGraph.t) (r : node) :
  LSO G = Ok T -> rooted_tree T r ->
  exists st,
    alg2_run G = Ok st /\
    alg2 G = Ok (length (labels st), length (tiles st)) /\
    (forall x p, In x (DiGraph.nodes T) -> x <> r ->
                 In p (DiGraph.preds T x) ->
                 exists k, has_size T x k /\
                           DiGraph.edge_data (tree2 st) p x = Ok (Some k)) /\
    NoDup (labels st) /\
    (forall k, In k (labels st) <->
               exists x, In x (DiGraph.nodes T) /\ x <> r /\ has_size T x k) /\
    NoDup (tiles st) /\
    (forall tile, In tile (tiles st) <->
                  exists x, In x (DiGraph.nodes T) /\
                            has_signature T x tile).
Proof.
  intros HL HR.
  destruct (Alg2Facts.alg2_run_spec G T r HL HR)
    as [st [E [_ [NL [NT [LB [TL [ED _]]]]]]]].
  exists st. split; [exact E|]. split; [unfold alg2; now rewrite E|].
  split; [exact ED|]. split; [exact NL|]. split; [exact LB|].
  split; [exact NT | exact TL].
Qed.

Lemma alg2_labels_and_counts_witness :
  LSO G_main = Ok T_main /\ rooted_tree T_main 5%Z /\
  exists st,
    alg2_run G_main = Ok st /\
    alg2 G_main = Ok (length (labels st), length (tiles st)) /\
    (forall x p, In x (DiGraph.nodes T_main) -> x <> 5%Z ->
                 In p (DiGraph.preds T_main x) ->
                 exists k, has_size T_main x k /\
                           DiGraph.edge_data (tree2 st) p x = Ok (Some k)) /\
    NoDup (labels st) /\
    (forall k, In k (labels st) <->
               exists x, In x (DiGraph.nodes T_main) /\ x <> 5%Z /\
                         has_size T_main x k) /\
    NoDup (tiles st) /\
    (forall tile, In tile (tiles st) <->
                  exists x, In x (DiGraph.nodes T_main) /\
                            has_signature T_main x tile).
Proof.
  split; [exact LSO_G_main|]. split; [exact T_main_rooted|].
  exact (alg2_labels_and_counts G_main T_main 5%Z LSO_G_main T_main_rooted).
Defined.

(** C10. For every connected simple input graph with two nodes or more
    whose orientation is a rooted tree, the tile count that [alg2] returns
    is at least 2: the tree has a leaf, whose empty tile is in the catalog,
    and the root has a child, so that its tile is not empty, and is in the
    catalog as well. *)
Theorem alg2_at_least_two_tiles (G : Graph.t) (T : DiGraph.t) (r : node) :
  GraphSpec.wf G -> simple G -> connected G -> 2 <= length (Graph.nodes G) ->
  LSO G = Ok T -> rooted_tree T r ->
  exists st,
    alg2_run G = Ok st /\
    alg2 G = Ok (length (labels st), length (tiles st)) /\
    (exists l, In l (DiGraph.nodes T) /\ DiGraph.adj T l = [] /\
               In [] (tiles st)) /\
    DiGraph.adj T r <> [] /\
    (exists tile, has_signature T r tile /\ tile <> [] /\
                  In tile (tiles st)) /\
    2 <= length (tiles st).
Proof.
  intros Hwf _ _ Hn HL HR.
  destruct (Alg2Facts.alg2_run_spec G T r HL HR)
    as [st [E [_ [_ [_ [_ [TL _]]]]]]].
  destruct (TreeFacts.LSO_digraph G T Hwf HL) as [_ N].
  rewrite <- N in Hn.
  destruct (RootedFacts.two_tiles T r (tiles st) HR Hn TL) as [H1 [H2 H3]].
  exists st. split; [exact E|]. split; [unfold alg2; now rewrite E|].
  split; [exact H1|].
  split; [exact (RootedFacts.root_has_child T r HR Hn)|].
  split; [exact H2 | exact H3].
Qed.

Lemma alg2_at_least_two_tiles_witness :
  GraphSpec.wf G_main /\ simple G_main /\ connected G_main /\
  2 <= length (Graph.nodes G_main) /\
  LSO G_main = Ok T_main /\ rooted_tree T_main 5%Z /\
  exists st,
    alg2_run G_main = Ok st /\
    alg2 G_main = Ok (length (labels st), length (tiles st)) /\
    (exists l, In l (DiGraph.nodes T_main) /\ DiGraph.adj T_main l = [] /\
               In [] (tiles st)) /\
    DiGraph.adj T_main 5%Z <> [] /\
    (exists tile, has_signature T_main 5%Z tile /\ tile <> [] /\
                  In tile (tiles st)) /\
    2 <= length (tiles st).
Proof.
  assert (Hn : 2 <= length (Graph.nodes G_main)) by (vm_compute; lia).
  split; [exact (tree_wf _ G_main_tree)|].
  split; [exact (tree_simple _ G_main_tree)|].
  split; [exact (tree_connected _ G_main_tree)|]. split; [exact Hn|].
  split; [exact LSO_G_main|]. split; [exact T_main_rooted|].
  exact (alg2_at_least_two_tiles G_main T_main 5%Z
           (tree_wf _ G_main_tree) (tree_simple _ G_main_tree)
           (tree_connected _ G_main_tree) Hn LSO_G_main T_main_rooted).
Defined.

(** C9, the claim refuted: on the path graph of 2 nodes, [alg2] returns 2
    tiles, not 1. *)
Lemma alg2_path2_two_tiles :
  path_graph G_path2 /\ alg2 G_path2 = Ok (1, 2).
Proof.
  split; [apply TreeCheckFacts.pathb_path_graph|]; vm_compute; reflexivity.
Qed.

(** C9, as the code has it.  For every path graph of n nodes, n >= 2,
    [alg2] returns at least 2 tiles, the empty tile of a leaf and the tile
    of the root, and at most n-1 distinct edge labels. *)
Theorem alg2_path_graph (G : Graph.t) :
  path_graph G -> 2 <= length (Graph.nodes G) ->
  exists b t,
    alg2 G = Ok (b, t) /\ 2 <= t /\ b <= length (Graph.nodes G) - 1.
Proof.
  intros [HT _] Hn.
  destruct (TreeFacts.LSO_tree G HT) as [T [r [HL [HN HR]]]].
  destruct (Alg2Facts.alg2_run_spec G T r HL HR)
    as [st [E [_ [_ [_ [_ [TL [_ LEN]]]]]]]].
  exists (length (labels st)), (length (tiles st)).
  split; [unfold alg2; now rewrite E|]. split.
  - apply (RootedFacts.two_tiles T r); trivial. now rewrite HN.
  - rewrite HN in LEN. lia.
Qed.

Lemma alg2_path_graph_witness :
  path_graph G_path4 /\ 2 <= length (Graph.nodes G_path4) /\
  exists b t,
    alg2 G_path4 = Ok (b, t) /\ 2 <= t /\
    b <= length (Graph.nodes G_path4) - 1.
Proof.
  assert (H : path_graph G_path4)
    by (apply TreeCheckFacts.pathb_path_graph; vm_compute; reflexivity).
  assert (Hn : 2 <= length (Graph.nodes G_path4)) by (vm_compute; lia).
  split; [exact H|]. split; [exact Hn|].
  exact (alg2_path_graph G_path4 H Hn).
Defined.

(** C7, the claim refuted: in the orientation of the graph of two nodes
    and no edge, both nodes have in-degree 0; [alg2] takes the second as the
    root and returns counts. *)
Lemma alg2_two_roots_counts :
  GraphSpec.wf G_two_nodes /\
  exists T,
    LSO G_two_nodes = Ok T /\
    DiGraph.in_degree T 1%Z = 0 /\ DiGraph.in_degree T 2%Z = 0 /\
    find_root T = 2%Z /\ alg2 G_two_nodes = Ok (0, 1).
Proof.
  split; [apply CheckFacts.wfb_wf; vm_compute; reflexivity|].
  eexists. split; [vm_compute; reflexivity|]. repeat split.
Qed.

(** C7, as the code has it.  The search for the root raises no error: the
    root is the last node of in-degree 0 in node order, and the default 0
    when no node has in-degree 0; whenever a node has in-degree 0 the root
    is a node of the orientation, and then [alg2] goes on and returns its
    counts. *)
Theorem root_search_never_fails (G : Graph.t) (T : DiGraph.t) :
  GraphSpec.wf G -> LSO G = Ok T ->
  find_root T
  = last (filter (fun n => DiGraph.in_degree T n =? 0) (DiGraph.nodes T)) 0%Z
  /\
  ((exists x, In x (DiGraph.nodes T) /\ DiGraph.in_degree T x = 0) ->
   In (find_root T) (DiGraph.nodes T) /\
   DiGraph.in_degree T (find_root T) = 0 /\
   exists b t, alg2 G = Ok (b, t)).
Proof.
  intros Hwf HL. split; [apply Alg2Facts.find_root_last|].
  intros [x [Hx H0]].
  assert (Hr : In (find_root T)
                  (filter (fun n => DiGraph.in_degree T n =? 0)
                          (DiGraph.nodes T))).
  { rewrite Alg2Facts.find_root_last.
    assert (Hf : In x (filter (fun n => DiGraph.in_degree T n =? 0)
                              (DiGraph.nodes T))).
    { apply filter_In. split; [assumption|]. now rewrite H0. }
    destruct (filter _ (DiGraph.nodes T)) as [|a l]; [contradiction|].
    destruct (exists_last (l := a :: l)) as [l' [z E]]; [discriminate|].
    rewrite E. rewrite last_last. apply in_or_app. right. now left. }
  apply filter_In in Hr. destruct Hr as [Hr Hd].
  split; [exact Hr|]. split; [now apply Nat.eqb_eq|].
  destruct (Alg2Facts.alg2_total G T Hwf HL Hr) as [st [_ E]].
  now exists (length (labels st)), (length (tiles st)).
Qed.

Lemma root_search_never_fails_witness :
  exists T,
    GraphSpec.wf G_two_nodes /\ LSO G_two_nodes = Ok T /\
    find_root T
    = last (filter (fun n => DiGraph.in_degree T n =? 0) (DiGraph.nodes T))
           0%Z /\
    ((exists x, In x (DiGraph.nodes T) /\ DiGraph.in_degree T x = 0) ->
     In (find_root T) (DiGraph.nodes T) /\
     DiGraph.in_degree T (find_root T) = 0 /\
     exists b t, alg2 G_two_nodes = Ok (b, t)).
Proof.
  assert (H : GraphSpec.wf G_two_nodes)
    by (apply CheckFacts.wfb_wf; vm_compute; reflexivity).
  eexists. split; [exact H|].
  assert (HL : LSO G_two_nodes
               = Ok (DiGraph.mk [(1%Z, []); (2%Z, [])] [(1%Z, []); (2%Z, [])]))
    by (vm_compute; reflexivity).
  split; [exact HL|].
  exact (root_search_never_fails G_two_nodes _ H HL).
Defined.


(** C4. In [alg3] on a rooted tree of height [h]: the first loop labels
    the edge into every leaf with 1; the levels [h-1], ..., 1 are then
    visited in this order, each as the nodes at that distance from the
    root; and for each such node [l], the shape of its subtree is appended
    to the seen shapes whatever else happens, while the counter [j] grows by
    one and labels the edge into [l] exactly when that edge has no label yet
    and no seen shape is isomorphic to the shape of [l], which includes the
    case of no seen shape at all.  The run completes when the enumeration
    of a set yields elements of the set. *)
Theorem alg3_classifies_level_by_level
  (is_isomorphic : DiGraph.t -> DiGraph.t -> bool)
  (set_list : list node -> list node)
  (G : Graph.t) (T : DiGraph.t) (r : node) :
  LSO G = Ok T -> rooted_tree T r ->
  exists h T1,
    DiGraph.dag_longest_path_length T = Ok h /\
    (exists x, at_depth T r h x) /\
    (forall d x, at_depth T r d x -> d <= h) /\
    foldM label_leaf (DiGraph.nodes T) T = Ok T1 /\ same_shape T T1 /\
    (forall x p, In x (DiGraph.nodes T) -> DiGraph.out_degree T x = 0 ->
                 In p (DiGraph.preds T x) ->
                 DiGraph.edge_data T1 p x = Ok (Some 1)) /\
    alg3_run is_isomorphic set_list G
    = foldM (alg3_level is_isomorphic set_list r) (levels h)
            (mk_alg3 T1 1 []) /\
    levels h = map (fun k => h - 1 - k) (seq 0 (h - 1)) /\
    (forall st i,
        same_shape T (tree3 st) ->
        exists level,
          DiGraph.descendants_at_distance T r i = Ok level /\
          (forall y, In y level <-> at_depth T r i y) /\
          alg3_level is_isomorphic set_list r st i
          = foldM (alg3_body is_isomorphic) (set_list level) st) /\
    (forall st l p,
        same_shape T (tree3 st) -> In l (DiGraph.nodes T) ->
        In p (DiGraph.preds T l) ->
        exists sub d st',
          DiGraph.dfs_tree T l = Ok sub /\
          DiGraph.edge_data (tree3 st) p l = Ok d /\
          alg3_body is_isomorphic st l = Ok st' /\
          same_shape T (tree3 st') /\
          subgraphs st' = subgraphs st ++ [sub] /\
          (d = None ->
           (forall s, In s (subgraphs st) -> is_isomorphic sub s = false) ->
           j st' = j st + 1 /\
           DiGraph.edge_data (tree3 st') p l = Ok (Some (j st + 1))) /\
          (d = None ->
           (exists s, In s (subgraphs st) /\ is_isomorphic sub s = true) ->
           j st' = j st /\ tree3 st' = tree3 st) /\
          (d <> None -> j st' = j st /\ tree3 st' = tree3 st)) /\
    ((forall l, incl (set_list l) l) ->
     exists st, alg3_run is_isomorphic set_list G = Ok st /\ 1 <= j st).
Proof.
  intros HL HR. pose proof (rt_wf T r HR) as HT.
  destruct (Alg3Facts.dag_longest_path_length_ok T r HR) as [h Hh].
  destruct (Alg3Facts.dag_longest_path_length_height T r HR h Hh)
    as [Hmax Hle].
  destruct (Alg3Facts.label_leaves_spec T HT (DiGraph.nodes T)
              (DiGraphSpec.wf_nodes T HT) (fun x H => H) T
              (LabelFacts.same_shape_refl T))
    as [T1 [E1 [HS1 [L1 _]]]].
  exists h, T1. split; [exact Hh|]. split; [exact Hmax|]. split; [exact Hle|].
  split; [exact E1|]. split; [exact HS1|].
  split; [|split; [|split; [|split; [|split]]]].
  - intros x p Hx Hout Hp. apply L1; trivial.
    unfold Invariants.leafb. rewrite Hout. cbn [Nat.eqb andb].
    apply Nat.eqb_eq. apply (rt_degree T r HR x Hx).
    intros ->. pose proof (rt_root_degree T r HR) as H0.
    unfold DiGraph.in_degree in H0.
    destruct (DiGraph.preds T r); [contradiction | discriminate].
  - unfold alg3_run. rewrite HL. cbn [bind]. rewrite Hh. cbn [bind].
    rewrite E1. cbn [bind]. now rewrite (Alg2Facts.find_root_rooted T r HR).
  - apply Alg3Facts.levels_descending.
  - intros st i HS.
    destruct (Alg3Facts.descendants_at_depth T r HR i) as [level [El Hl]].
    exists level. split; [exact El|]. split; [exact Hl|].
    unfold alg3_level.
    rewrite (Alg3Facts.descendants_at_distance_shape T (tree3 st) r i HS).
    now rewrite El.
  - intros st l p HS Hl Hp.
    assert (Ep : exists ps, DiGraph.preds T l = p :: ps).
    { assert (Hlr : l <> r).
      { intros ->. pose proof (rt_root_degree T r HR) as H0.
        unfold DiGraph.in_degree in H0.
        destruct (DiGraph.preds T r); [contradiction | discriminate]. }
      pose proof (rt_degree T r HR l Hl Hlr) as H1.
      unfold DiGraph.in_degree in H1.
      destruct (DiGraph.preds T l) as [|q [|q' ps]]; try discriminate.
      destruct Hp as [<- |[]]. now exists []. }
    destruct Ep as [ps Ep].
    destruct (Alg3Facts.alg3_body_spec is_isomorphic T HT st l p ps HS Hl Ep)
      as [sub [d [Esub [Ed [T' [E [HS' [_ Hd]]]]]]]].
    exists sub, d. eexists. split; [exact Esub|]. split; [exact Ed|].
    split; [exact E|]. cbn [tree3 j subgraphs].
    split; [exact HS'|]. split; [reflexivity|]. split; [|split].
    + intros -> Hnone.
      assert (Hex : existsb (is_isomorphic sub) (subgraphs st) = false).
      { destruct (existsb _ (subgraphs st)) eqn:Ex; [|reflexivity].
        apply existsb_exists in Ex. destruct Ex as [s [Hs Hi]].
        rewrite (Hnone s Hs) in Hi. discriminate. }
      rewrite Hex in Hd |- *. cbn [negb andb] in Hd |- *. now split.
    + intros -> [s [Hs Hi]].
      assert (Hex : existsb (is_isomorphic sub) (subgraphs st) = true).
      { apply existsb_exists. now exists s. }
      rewrite Hex in Hd |- *. cbn [negb andb] in Hd |- *. now split.
    + intros Hne. destruct d as [k|]; [|congruence].
      rewrite andb_false_r in Hd |- *. now split.
  - intros Hset.
    exact (Alg3Facts.alg3_run_ok is_isomorphic set_list G T r HL HR Hset).
Qed.

Lemma alg3_classifies_level_by_level_witness :
  LSO G_main = Ok T_main /\ rooted_tree T_main 5%Z /\
  exists h T1,
    DiGraph.dag_longest_path_length T_main = Ok h /\
    (exists x, at_depth T_main 5%Z h x) /\
    (forall d x, at_depth T_main 5%Z d x -> d <= h) /\
    foldM label_leaf (DiGraph.nodes T_main) T_main = Ok T1 /\
    same_shape T_main T1 /\
    (forall x p, In x (DiGraph.nodes T_main) ->
                 DiGraph.out_degree T_main x = 0 ->
                 In p (DiGraph.preds T_main x) ->
                 DiGraph.edge_data T1 p x = Ok (Some 1)) /\
    alg3_run is_isomorphic_tree in_order G_main
    = foldM (alg3_level is_isomorphic_tree in_order 5%Z) (levels h)
            (mk_alg3 T1 1 []) /\
    levels h = map (fun k => h - 1 - k) (seq 0 (h - 1)) /\
    (forall st i,
        same_shape T_main (tree3 st) ->
        exists level,
          DiGraph.descendants_at_distance T_main 5%Z i = Ok level /\
          (forall y, In y level <-> at_depth T_main 5%Z i y) /\
          alg3_level is_isomorphic_tree in_order 5%Z st i
          = foldM (alg3_body is_isomorphic_tree) (in_order level) st) /\
    (forall st l p,
        same_shape T_main (tree3 st) -> In l (DiGraph.nodes T_main) ->
        In p (DiGraph.preds T_main l) ->
        exists sub d st',
          DiGraph.dfs_tree T_main l = Ok sub /\
          DiGraph.edge_data (tree3 st) p l = Ok d /\
          alg3_body is_isomorphic_tree st l = Ok st' /\
          same_shape T_main (tree3 st') /\
          subgraphs st' = subgraphs st ++ [sub] /\
          (d = None ->
           (forall s, In s (subgraphs st) ->
                      is_isomorphic_tree sub s = false) ->
           j st' = j st + 1 /\
           DiGraph.edge_data (tree3 st') p l = Ok (Some (j st + 1))) /\
          (d = None ->
           (exists s, In s (subgraphs st) /\ is_isomorphic_tree sub s = true) ->
           j st' = j st /\ tree3 st' = tree3 st) /\
          (d <> None -> j st' = j st /\ tree3 st' = tree3 st)) /\
    ((forall l, incl (in_order l) l) ->
     exists st, alg3_run is_isomorphic_tree in_order G_main = Ok st /\
                1 <= j st).
Proof.
  split; [exact LSO_G_main|]. split; [exact T_main_rooted|].
  exact (alg3_classifies_level_by_level is_isomorphic_tree in_order
           G_main T_main 5%Z LSO_G_main T_main_rooted).
Defined.

(** C5. For every input on which [alg3] completes, the pair returned is
    (j, j+1) for the final value of the counter [j]: the tile count is the
    bond-edge-type count plus 1. *)
Theorem alg3_returns_j_and_successor
  (is_isomorphic : DiGraph.t -> DiGraph.t -> bool)
  (set_list : list node -> list node)
  (G : Graph.t) (b t : nat) :
  alg3 is_isomorphic set_list G = Ok (b, t) ->
  (exists st, alg3_run is_isomorphic set_list G = Ok st /\ b = j st) /\
  t = b + 1.
Proof.
  unfold alg3. destruct (alg3_run is_isomorphic set_list G) as [st|e];
    cbn [bind]; [|discriminate].
  intros [= <- <-]. split; [now exists st | reflexivity].
Qed.

Lemma alg3_returns_j_and_successor_witness :
  alg3 is_isomorphic_tree in_order G_main = Ok (5, 6) /\
  (exists st, alg3_run is_isomorphic_tree in_order G_main = Ok st /\
              5 = j st) /\
  6 = 5 + 1.
Proof.
  assert (H : alg3 is_isomorphic_tree in_order G_main = Ok (5, 6))
    by (vm_compute; reflexivity).
  split; [exact H|].
  exact (alg3_returns_j_and_successor is_isomorphic_tree in_order
           G_main 5 6 H).
Defined.

(** * Further properties of the program *)

(** The example graphs are well formed. *)
Lemma G_mixed_wf : GraphSpec.wf G_mixed.
Proof. apply CheckFacts.wfb_wf. vm_compute. reflexivity. Qed.

Lemma G_mixed_simple : simple G_mixed.
Proof. apply TreeCheckFacts.simpleb_simple. vm_compute. reflexivity. Qed.

Lemma G_main_rev_wf : GraphSpec.wf G_main_rev.
Proof. apply CheckFacts.wfb_wf. vm_compute. reflexivity. Qed.

Lemma G_main_rev_same : same_graph G_main G_main_rev.
Proof.
  apply OrderFacts.same_graphb_same_graph. vm_compute. reflexivity.
Qed.

(** X1. On every graph the directed graph that [LSO] returns is an
    orientation of the input: it has the nodes of the input in the same
    order, each of its edges joins two neighbours of the input, every edge
    of the input is there in one direction, and no edge between two
    different nodes is there in both. *)
Theorem LSO_output_is_an_orientation (G : Graph.t) :
  GraphSpec.wf G ->
  exists T,
    LSO G = Ok T /\
    DiGraph.nodes T = Graph.nodes G /\
    (forall a b, In b (DiGraph.adj T a) -> In b (Graph.neighbors G a)) /\
    (forall a b, In b (Graph.neighbors G a) ->
                 In b (DiGraph.adj T a) \/ In a (DiGraph.adj T b)) /\
    (forall a b, a <> b -> In b (DiGraph.adj T a) ->
                 ~ In a (DiGraph.adj T b)).
Proof.
  intros Hwf.
  destruct (LSOFacts.LSO_run_spec G Hwf) as [G' [ds0 [Hrun _]]].
  assert (HL : LSO G = Ok (emit (LSO_init G) ds0)).
  { unfold LSO. now rewrite Hrun. }
  destruct (OrderFacts.LSO_emits G _ Hwf HL) as [ds [Hds [_ [HN [HA _]]]]].
  exists (emit (LSO_init G) ds0). split; [exact HL|]. split; [exact HN|].
  split; [|split].
  - intros a b Hab. apply HA in Hab.
    exact (OrderFacts.emitted_edge G ds Hwf Hds a b Hab).
  - intros a b Hab. rewrite !HA.
    exact (OrderFacts.emitted_all G ds Hwf Hds a b Hab).
  - intros a b Hne Hab. rewrite HA in *.
    exact (OrderFacts.emitted_one_way G ds Hwf Hds a b Hne Hab).
Qed.

Lemma LSO_output_is_an_orientation_witness :
  GraphSpec.wf G_mixed /\
  exists T,
    LSO G_mixed = Ok T /\
    DiGraph.nodes T = Graph.nodes G_mixed /\
    (forall a b, In b (DiGraph.adj T a) -> In b (Graph.neighbors G_mixed a)) /\
    (forall a b, In b (Graph.neighbors G_mixed a) ->
                 In b (DiGraph.adj T a) \/ In a (DiGraph.adj T b)) /\
    (forall a b, a <> b -> In b (DiGraph.adj T a) ->
                 ~ In a (DiGraph.adj T b)).
Proof.
  split; [exact G_mixed_wf|].
  exact (LSO_output_is_an_orientation G_mixed G_mixed_wf).
Defined.

(** X2. [LSO] takes every edge out of the graph of its caller and puts it
    back without its attributes: the graph that it leaves has the nodes
    and the edges of the input, and the attribute dictionary of every edge
    is empty. *)
Theorem LSO_clears_edge_attributes (G : Graph.t) :
  GraphSpec.wf G ->
  exists G' T,
    LSO_run G = Ok (G', T) /\ same_graph G G' /\
    forall u nb v d, Graph.adj G' u = Some nb -> In (v, d) nb -> d = [].
Proof.
  intros Hwf.
  destruct (LSOFacts.LSO_run_spec G Hwf) as [G' [ds [Hrun [_ [_ [HS _]]]]]].
  exists G', (emit (LSO_init G) ds). split; [exact Hrun|].
  split; [exact HS|].
  exact (AttrFacts.LSO_run_attr G G' _ Hwf Hrun).
Qed.

Lemma LSO_clears_edge_attributes_witness :
  GraphSpec.wf G_weighted /\
  exists G' T,
    LSO_run G_weighted = Ok (G', T) /\ same_graph G_weighted G' /\
    forall u nb v d, Graph.adj G' u = Some nb -> In (v, d) nb -> d = [].
Proof.
  assert (H : GraphSpec.wf G_weighted)
    by (apply CheckFacts.wfb_wf; vm_compute; reflexivity).
  split; [exact H | exact (LSO_clears_edge_attributes G_weighted H)].
Defined.

(** X3. The directed edges that [LSO] chooses depend on the nodes, their
    order and the edges of the graph only, not on the order of the
    adjacency dictionaries: two graphs with the same nodes in the same
    order and the same edges get directed graphs with the same nodes and
    the same edges. *)
Theorem LSO_ignores_adjacency_order (G G2 : Graph.t) :
  GraphSpec.wf G -> GraphSpec.wf G2 -> same_graph G G2 ->
  exists T T2,
    LSO G = Ok T /\ LSO G2 = Ok T2 /\
    DiGraph.nodes T2 = DiGraph.nodes T /\
    forall a b, In b (DiGraph.adj T2 a) <-> In b (DiGraph.adj T a).
Proof.
  intros H1 H2 HS.
  destruct (LSOFacts.LSO_run_spec G H1) as [G' [ds [Hrun _]]].
  assert (HL : LSO G = Ok (emit (LSO_init G) ds)).
  { unfold LSO. now rewrite Hrun. }
  destruct (OrderFacts.LSO_same_graph G G2 _ H1 H2 HS HL)
    as [T2 [HL2 [_ [HN HA]]]].
  exists (emit (LSO_init G) ds), T2. now split; [|split; [|split]].
Qed.

Lemma LSO_ignores_adjacency_order_witness :
  GraphSpec.wf G_main /\ GraphSpec.wf G_main_rev /\
  same_graph G_main G_main_rev /\
  exists T T2,
    LSO G_main = Ok T /\ LSO G_main_rev = Ok T2 /\
    DiGraph.nodes T2 = DiGraph.nodes T /\
    forall a b, In b (DiGraph.adj T2 a) <-> In b (DiGraph.adj T a).
Proof.
  split; [exact (tree_wf _ G_main_tree)|]. split; [exact G_main_rev_wf|].
  split; [exact G_main_rev_same|].
  exact (LSO_ignores_adjacency_order G_main G_main_rev
           (tree_wf _ G_main_tree) G_main_rev_wf G_main_rev_same).
Defined.

(** X4. The counts of [alg2], or the exception that it raises, are the
    same for two graphs with the same nodes in the same order and the same
    edges, whatever the order of their adjacency dictionaries. *)
Theorem alg2_ignores_adjacency_order (G G2 : Graph.t) :
  GraphSpec.wf G -> GraphSpec.wf G2 -> same_graph G G2 ->
  alg2 G2 = alg2 G.
Proof. exact (InvarianceFacts.alg2_same_graph G G2). Qed.

Lemma alg2_ignores_adjacency_order_witness :
  GraphSpec.wf G_main /\ GraphSpec.wf G_main_rev /\
  same_graph G_main G_main_rev /\
  alg2 G_main_rev = alg2 G_main.
Proof.
  split; [exact (tree_wf _ G_main_tree)|]. split; [exact G_main_rev_wf|].
  split; [exact G_main_rev_same|].
  exact (alg2_ignores_adjacency_order G_main G_main_rev
           (tree_wf _ G_main_tree) G_main_rev_wf G_main_rev_same).
Defined.

(** X5. The program calls [alg2(G)] and then [alg3(G)] on the same graph
    object, which the first call has mutated.  A run of [LSO] on the graph
    that [LSO] has left gives a directed graph with the same nodes and the
    same edges as the first run, and [alg2] on that graph returns what it
    returned on the input. *)
Theorem second_run_on_the_mutated_graph (G : Graph.t) :
  GraphSpec.wf G ->
  exists G' T T',
    LSO_run G = Ok (G', T) /\ LSO G' = Ok T' /\
    DiGraph.nodes T' = DiGraph.nodes T /\
    (forall a b, In b (DiGraph.adj T' a) <-> In b (DiGraph.adj T a)) /\
    alg2 G' = alg2 G.
Proof.
  intros Hwf.
  destruct (LSOFacts.LSO_run_spec G Hwf) as [G' [ds [Hrun [_ [W [HS _]]]]]].
  assert (HL : LSO G = Ok (emit (LSO_init G) ds)).
  { unfold LSO. now rewrite Hrun. }
  destruct (OrderFacts.LSO_same_graph G G' _ Hwf W HS HL)
    as [T' [HL' [_ [HN HA]]]].
  exists G', (emit (LSO_init G) ds), T'.
  split; [exact Hrun|]. split; [exact HL'|]. split; [exact HN|].
  split; [exact HA|].
  exact (InvarianceFacts.alg2_same_graph G G' Hwf W HS).
Qed.

Lemma second_run_on_the_mutated_graph_witness :
  GraphSpec.wf G_mixed /\
  exists G' T T',
    LSO_run G_mixed = Ok (G', T) /\ LSO G' = Ok T' /\
    DiGraph.nodes T' = DiGraph.nodes T /\
    (forall a b, In b (DiGraph.adj T' a) <-> In b (DiGraph.adj T a)) /\
    alg2 G' = alg2 G_mixed.
Proof.
  split; [exact G_mixed_wf|].
  exact (second_run_on_the_mutated_graph G_mixed G_mixed_wf).
Defined.

(** X6. On a graph without self-loops the directed graph of [LSO] has no
    directed cycle: no edge leads to a node that reaches the tail of the
    edge.  Every node is then reached from a node of in-degree 0, and on a
    graph with at least one node the root that [alg2] and [alg3] look for
    is a node of in-degree 0, not the default 0. *)
Theorem LSO_of_simple_graph_is_acyclic (G : Graph.t) :
  GraphSpec.wf G -> simple G ->
  exists T,
    LSO G = Ok T /\
    (forall x y, In y (DiGraph.adj T x) -> ~ DiGraphSpec.reach T y x) /\
    (forall x, In x (DiGraph.nodes T) ->
               exists r, In r (DiGraph.nodes T) /\
                         DiGraph.in_degree T r = 0 /\
                         DiGraphSpec.reach T r x) /\
    (Graph.nodes G <> [] ->
     In (find_root T) (DiGraph.nodes T) /\
     DiGraph.in_degree T (find_root T) = 0).
Proof.
  intros Hwf Hs.
  destruct (LSOFacts.LSO_run_spec G Hwf) as [G' [ds [Hrun _]]].
  assert (HL : LSO G = Ok (emit (LSO_init G) ds)).
  { unfold LSO. now rewrite Hrun. }
  destruct (TreeFacts.LSO_digraph G _ Hwf HL) as [HT HN].
  pose proof (DagFacts.LSO_acyclic G _ Hwf Hs HL) as Hac.
  exists (emit (LSO_init G) ds). split; [exact HL|]. split; [|split].
  - intros x y Hxy Hyx. apply (Hac y). exists x. now split.
  - intros x Hx. exact (DagFacts.source_above _ HT Hac x Hx).
  - intros Hne. apply (DagFacts.find_root_source _ HT Hac).
    now rewrite HN.
Qed.

Lemma LSO_of_simple_graph_is_acyclic_witness :
  GraphSpec.wf G_mixed /\ simple G_mixed /\
  exists T,
    LSO G_mixed = Ok T /\
    (forall x y, In y (DiGraph.adj T x) -> ~ DiGraphSpec.reach T y x) /\
    (forall x, In x (DiGraph.nodes T) ->
               exists r, In r (DiGraph.nodes T) /\
                         DiGraph.in_degree T r = 0 /\
                         DiGraphSpec.reach T r x) /\
    (Graph.nodes G_mixed <> [] ->
     In (find_root T) (DiGraph.nodes T) /\
     DiGraph.in_degree T (find_root T) = 0).
Proof.
  split; [exact G_mixed_wf|]. split; [exact G_mixed_simple|].
  exact (LSO_of_simple_graph_is_acyclic G_mixed G_mixed_wf G_mixed_simple).
Defined.

(** X7. On a graph without self-loops and with at least one node [alg2]
    raises no exception, whether the graph is a tree or not.  Its counts
    are those of the part of the orientation that the root reaches: the
    labels are the subtree sizes of the nodes that the root reaches, the
    root apart, and the tiles are the signatures of the nodes that the
    root reaches; what the root does not reach is not counted. *)
Theorem alg2_on_simple_graphs (G : Graph.t) :
  GraphSpec.wf G -> simple G -> Graph.nodes G <> [] ->
  exists T st,
    LSO G = Ok T /\ alg2_run G = Ok st /\
    alg2 G = Ok (length (labels st), length (tiles st)) /\
    NoDup (labels st) /\ NoDup (tiles st) /\
    (forall k, In k (labels st) <->
               exists x, DiGraphSpec.reach T (find_root T) x /\
                         x <> find_root T /\ has_size T x k) /\
    (forall tile, In tile (tiles st) <->
                  exists x, DiGraphSpec.reach T (find_root T) x /\
                            has_signature T x tile).
Proof.
  intros Hwf Hs Hne.
  destruct (LSOFacts.LSO_run_spec G Hwf) as [G' [ds [Hrun _]]].
  assert (HL : LSO G = Ok (emit (LSO_init G) ds)).
  { unfold LSO. now rewrite Hrun. }
  destruct (TreeFacts.LSO_digraph G _ Hwf HL) as [HT HN].
  pose proof (DagFacts.LSO_acyclic G _ Hwf Hs HL) as Hac.
  destruct (DagFacts.find_root_source _ HT Hac) as [Hr _];
    [now rewrite HN|].
  destruct (TotalFacts.alg2_reach_spec G _ Hwf HL Hr)
    as [st [E [NL [NT [LB TL]]]]].
  exists (emit (LSO_init G) ds), st. split; [exact HL|].
  split; [exact E|]. split; [unfold alg2; now rewrite E|].
  now split; [|split; [|split]].
Qed.

Lemma alg2_on_simple_graphs_witness :
  GraphSpec.wf G_mixed /\ simple G_mixed /\ Graph.nodes G_mixed <> [] /\
  exists T st,
    LSO G_mixed = Ok T /\ alg2_run G_mixed = Ok st /\
    alg2 G_mixed = Ok (length (labels st), length (tiles st)) /\
    NoDup (labels st) /\ NoDup (tiles st) /\
    (forall k, In k (labels st) <->
               exists x, DiGraphSpec.reach T (find_root T) x /\
                         x <> find_root T /\ has_size T x k) /\
    (forall tile, In tile (tiles st) <->
                  exists x, DiGraphSpec.reach T (find_root T) x /\
                            has_signature T x tile).
Proof.
  assert (Hne : Graph.nodes G_mixed <> []) by (vm_compute; discriminate).
  split; [exact G_mixed_wf|]. split; [exact G_mixed_simple|].
  split; [exact Hne|].
  exact (alg2_on_simple_graphs G_mixed G_mixed_wf G_mixed_simple Hne).
Defined.

(** X8. On a graph without self-loops and with at least one node, the
    number of tiles that [alg2] returns exceeds the number of labels, and
    is not more than the number of nodes. *)
Theorem alg2_tiles_exceed_labels (G : Graph.t) :
  GraphSpec.wf G -> simple G -> Graph.nodes G <> [] ->
  exists b t,
    alg2 G = Ok (b, t) /\ b + 1 <= t /\ t <= length (Graph.nodes G).
Proof.
  intros Hwf Hs Hne.
  destruct (LSOFacts.LSO_run_spec G Hwf) as [G' [ds [Hrun _]]].
  assert (HL : LSO G = Ok (emit (LSO_init G) ds)).
  { unfold LSO. now rewrite Hrun. }
  destruct (TreeFacts.LSO_digraph G _ Hwf HL) as [HT HN].
  pose proof (DagFacts.LSO_acyclic G _ Hwf Hs HL) as Hac.
  destruct (DagFacts.find_root_source _ HT Hac) as [Hr H0];
    [now rewrite HN|].
  destruct (TotalFacts.alg2_reach_spec G _ Hwf HL Hr)
    as [st [E [NL [NT [LB TL]]]]].
  destruct (TotalFacts.tiles_and_labels _ HT _ (labels st) (tiles st)
              Hr H0 NL NT LB TL) as [B1 B2].
  exists (length (labels st)), (length (tiles st)).
  split; [unfold alg2; now rewrite E|]. rewrite <- HN. lia.
Qed.

Lemma alg2_tiles_exceed_labels_witness :
  GraphSpec.wf G_mixed /\ simple G_mixed /\ Graph.nodes G_mixed <> [] /\
  exists b t,
    alg2 G_mixed = Ok (b, t) /\ b + 1 <= t /\
    t <= length (Graph.nodes G_mixed).
Proof.
  assert (Hne : Graph.nodes G_mixed <> []) by (vm_compute; discriminate).
  split; [exact G_mixed_wf|]. split; [exact G_mixed_simple|].
  split; [exact Hne|].
  exact (alg2_tiles_exceed_labels G_mixed G_mixed_wf G_mixed_simple Hne).
Defined.

(** X9. On a graph without self-loops [alg3] raises no exception, whether
    the graph is a tree or not, whatever the isomorphism test, as long as
    the enumeration of a set yields elements of the set: the longest path
    is computed, since the orientation has no cycle, and the result is a
    pair (j, j + 1) with j at least 1. *)
Theorem alg3_on_simple_graphs
  (is_isomorphic : DiGraph.t -> DiGraph.t -> bool)
  (set_list : list node -> list node) (G : Graph.t) :
  GraphSpec.wf G -> simple G -> (forall l, incl (set_list l) l) ->
  exists T h k,
    LSO G = Ok T /\ DiGraph.dag_longest_path_length T = Ok h /\
    alg3 is_isomorphic set_list G = Ok (k, k + 1) /\ 1 <= k.
Proof.
  intros Hwf Hs Hset.
  destruct (LSOFacts.LSO_run_spec G Hwf) as [G' [ds [Hrun _]]].
  assert (HL : LSO G = Ok (emit (LSO_init G) ds)).
  { unfold LSO. now rewrite Hrun. }
  destruct (TreeFacts.LSO_digraph G _ Hwf HL) as [HT HN].
  pose proof (DagFacts.LSO_acyclic G _ Hwf Hs HL) as Hac.
  destruct (DagFacts.dag_longest_path_length_total _ HT Hac) as [h Eh].
  destruct (TotalFacts.alg3_run_total is_isomorphic set_list G _
              Hwf HL Hac Hset) as [st [E J]].
  exists (emit (LSO_init G) ds), h, (j st). split; [exact HL|].
  split; [exact Eh|]. split; [unfold alg3; now rewrite E | exact J].
Qed.

Lemma alg3_on_simple_graphs_witness :
  GraphSpec.wf G_mixed /\ simple G_mixed /\
  (forall l, incl (in_order l) l) /\
  exists T h k,
    LSO G_mixed = Ok T /\ DiGraph.dag_longest_path_length T = Ok h /\
    alg3 is_isomorphic_tree in_order G_mixed = Ok (k, k + 1) /\ 1 <= k.
Proof.
  assert (Hset : forall l, incl (in_order l) l)
    by (intros l; apply incl_refl).
  split; [exact G_mixed_wf|]. split; [exact G_mixed_simple|].
  split; [exact Hset|].
  exact (alg3_on_simple_graphs is_isomorphic_tree in_order G_mixed
           G_mixed_wf G_mixed_simple Hset).
Defined.

(** X10. On a graph with a self-loop [alg3] raises [NetworkXUnfeasible]:
    the orientation keeps the loop, and the topological sort behind
    [dag_longest_path_length] never gets to the node of the loop. *)
Theorem alg3_self_loop_raises
  (is_isomorphic : DiGraph.t -> DiGraph.t -> bool)
  (set_list : list node -> list node) (G : Graph.t) (u : node) :
  GraphSpec.wf G -> In u (Graph.neighbors G u) ->
  alg3 is_isomorphic set_list G = Raise NetworkXUnfeasible.
Proof.
  intros Hwf Hu.
  destruct (LSOFacts.LSO_run_spec G Hwf) as [G' [ds0 [Hrun _]]].
  assert (HL : LSO G = Ok (emit (LSO_init G) ds0)).
  { unfold LSO. now rewrite Hrun. }
  destruct (OrderFacts.LSO_emits G _ Hwf HL) as [ds [Hds [HT [HN [_ HP]]]]].
  assert (Hp : In u (DiGraph.preds (emit (LSO_init G) ds0) u)).
  { apply HP. destruct (OrderFacts.emitted_all G ds Hwf Hds u u Hu); trivial. }
  unfold alg3, alg3_run. rewrite HL. cbn [bind].
  unfold DiGraph.dag_longest_path_length, DiGraph.topological_sort.
  rewrite (TotalFacts.topological_sort_self_loop _ u _ Hp); [reflexivity| |].
  - rewrite HN. eapply GraphFacts.neighbors_In_nodes. eassumption.
  - intros [].
Qed.

Lemma alg3_self_loop_raises_witness :
  GraphSpec.wf G_loop /\ In 1%Z (Graph.neighbors G_loop 1%Z) /\
  alg3 is_isomorphic_tree in_order G_loop = Raise NetworkXUnfeasible.
Proof.
  assert (H : GraphSpec.wf G_loop)
    by (apply CheckFacts.wfb_wf; vm_compute; reflexivity).
  assert (Hu : In 1%Z (Graph.neighbors G_loop 1%Z)) by (vm_compute; tauto).
  split; [exact H|]. split; [exact Hu|].
  exact (alg3_self_loop_raises is_isomorphic_tree in_order G_loop 1%Z H Hu).
Defined.



(** X12. In the orientation of a tree every edge points to the smaller
    side: the subtree below the head of an edge has at most half of the
    nodes of the tree. *)
Theorem LSO_edges_point_to_the_smaller_side (G : Graph.t) :
  tree G ->
  exists T,
    LSO G = Ok T /\
    forall p c k, In c (DiGraph.adj T p) -> has_size T c k ->
                  2 * k <= length (Graph.nodes G).
Proof.
  intros HT. pose proof (tree_wf G HT) as Hwf.
  destruct (LSOFacts.LSO_run_spec G Hwf) as [G' [ds0 [Hrun _]]].
  assert (HL : LSO G = Ok (emit (LSO_init G) ds0)).
  { unfold LSO. now rewrite Hrun. }
  destruct (OrderFacts.LSO_emits G _ Hwf HL) as [ds [Hds [_ [_ [HA _]]]]].
  exists (emit (LSO_init G) ds0). split; [exact HL|].
  intros p c k Hpc Hk.
  apply (SideFacts.head_is_smaller G ds _ HT Hds HA p c k); [|exact Hk].
  now apply HA.
Qed.

Lemma LSO_edges_point_to_the_smaller_side_witness :
  tree G_main /\
  exists T,
    LSO G_main = Ok T /\
    forall p c k, In c (DiGraph.adj T p) -> has_size T c k ->
                  2 * k <= length (Graph.nodes G_main).
Proof.
  split; [exact G_main_tree|].
  exact (LSO_edges_point_to_the_smaller_side G_main G_main_tree).
Defined.

(** X13. On a tree of n nodes every label that [alg2] gives to an edge
    is at least 1 and at most n/2, so that [alg2] records at most n/2
    labels. *)
Theorem alg2_labels_at_most_half (G : Graph.t) :
  tree G ->
  exists st,
    alg2_run G = Ok st /\
    (forall k, In k (labels st) ->
               1 <= k /\ 2 * k <= length (Graph.nodes G)) /\
    2 * length (labels st) <= length (Graph.nodes G).
Proof.
  intros HT. pose proof (tree_wf G HT) as Hwf.
  destruct (TreeFacts.LSO_tree G HT) as [T [r [HL [_ HR]]]].
  destruct (OrderFacts.LSO_emits G T Hwf HL) as [ds [Hds [HW [_ [HA _]]]]].
  destruct (Alg2Facts.alg2_run_spec G T r HL HR)
    as [st [E [_ [NL [_ [LB _]]]]]].
  assert (K : forall k, In k (labels st) ->
                        1 <= k /\ 2 * k <= length (Graph.nodes G)).
  { intros k Hk. apply LB in Hk. destruct Hk as [x [Hx [Hxr Hk]]].
    split; [exact (TotalFacts.size_pos T x k Hk)|].
    pose proof (rt_degree T r HR x Hx Hxr) as Hd.
    unfold DiGraph.in_degree in Hd.
    destruct (DiGraph.preds T x) as [|p l] eqn:Ep; [discriminate|].
    assert (Hp : In x (DiGraph.adj T p)).
    { apply (DiGraphSpec.wf_sym T HW). rewrite Ep. now left. }
    apply (SideFacts.head_is_smaller G ds T HT Hds HA p x k); [|exact Hk].
    now apply HA. }
  exists st. split; [exact E|]. split; [exact K|].
  assert (Hle : length (labels st)
                <= length (seq 1 (length (Graph.nodes G) / 2))).
  { apply NoDup_incl_length; [exact NL|]. intros k Hk.
    destruct (K k Hk) as [K1 K2]. apply in_seq.
    assert (k <= length (Graph.nodes G) / 2)
      by (apply Nat.div_le_lower_bound; lia).
    lia. }
  rewrite length_seq in Hle.
  pose proof (Nat.Div0.mul_div_le (length (Graph.nodes G)) 2). lia.
Qed.

Lemma alg2_labels_at_most_half_witness :
  tree G_main /\
  exists st,
    alg2_run G_main = Ok st /\
    (forall k, In k (labels st) ->
               1 <= k /\ 2 * k <= length (Graph.nodes G_main)) /\
    2 * length (labels st) <= length (Graph.nodes G_main).
Proof.
  split; [exact G_main_tree|].
  exact (alg2_labels_at_most_half G_main G_main_tree).
Defined.

(** X14. On a tree of n nodes, n at least 2, [alg3] returns a pair
    (j, j + 1) with j between 1 and n - 1, whatever the isomorphism test,
    as long as the enumeration of a set yields each of its elements once:
    the counter grows at most once for each node that is neither the root
    nor on the deepest level. *)
Theorem alg3_labels_at_most_edges
  (is_isomorphic : DiGraph.t -> DiGraph.t -> bool)
  (set_list : list node -> list node) (G : Graph.t) :
  tree G -> 2 <= length (Graph.nodes G) ->
  (forall l, NoDup (set_list l) /\ incl (set_list l) l) ->
  exists k,
    alg3 is_isomorphic set_list G = Ok (k, k + 1) /\
    1 <= k /\ k <= length (Graph.nodes G) - 1.
Proof.
  intros HT Hn Hset.
  destruct (TreeFacts.LSO_tree G HT) as [T [r [HL [HN HR]]]].
  destruct (BoundFacts.alg3_run_bound is_isomorphic set_list T r HR Hset
              G HL) as [st [E [J1 J2]]]; [now rewrite HN|].
  exists (j st). split; [unfold alg3; now rewrite E|].
  rewrite <- HN. lia.
Qed.

Lemma alg3_labels_at_most_edges_witness :
  tree G_main /\ 2 <= length (Graph.nodes G_main) /\
  (forall l, NoDup (in_order_once l) /\ incl (in_order_once l) l) /\
  exists k,
    alg3 is_isomorphic_tree in_order_once G_main = Ok (k, k + 1) /\
    1 <= k /\ k <= length (Graph.nodes G_main) - 1.
Proof.
  assert (Hn : 2 <= length (Graph.nodes G_main)) by (vm_compute; lia).
  assert (Hset : forall l, NoDup (in_order_once l)
                           /\ incl (in_order_once l) l).
  { intros l. split; [apply NoDup_nodup|]. intros x. apply nodup_In. }
  split; [exact G_main_tree|]. split; [exact Hn|]. split; [exact Hset|].
  exact (alg3_labels_at_most_edges is_isomorphic_tree in_order_once G_main
           G_main_tree Hn Hset).
Defined.

(** X15. In the orientation of a tree, the size that [alg2] computes for
    a node, the number of nodes of [nx.dfs_tree] from it, is one more than
    the sum of the sizes that it computes for the successors of the
    node. *)
Theorem subtree_size_is_one_plus_children (G : Graph.t) :
  tree G ->
  exists T,
    LSO G = Ok T /\
    forall x, In x (DiGraph.nodes T) ->
      exists k ks,
        subtree_size T x = Ok k /\
        mapM (subtree_size T) (DiGraph.adj T x) = Ok ks /\
        k = 1 + list_sum ks.
Proof.
  intros HT. destruct (TreeFacts.LSO_tree G HT) as [T [r [HL [_ HR]]]].
  exists T. split; [exact HL|].
  exact (RecurrenceFacts.subtree_size_recurrence T r HR).
Qed.

Lemma subtree_size_is_one_plus_children_witness :
  tree G_main /\
  exists T,
    LSO G_main = Ok T /\
    forall x, In x (DiGraph.nodes T) ->
      exists k ks,
        subtree_size T x = Ok k /\
        mapM (subtree_size T) (DiGraph.adj T x) = Ok ks /\
        k = 1 + list_sum ks.
Proof.
  split; [exact G_main_tree|].
  exact (subtree_size_is_one_plus_children G_main G_main_tree).
Defined.

(** X16. An edge that lies on a cycle of the graph is a tie for [LSO],
    the two components being the same, and is directed from the end that
    comes first in the order of the nodes to the end that comes later. *)
Theorem LSO_orients_cycle_edges_by_node_order (G : Graph.t) :
  GraphSpec.wf G ->
  exists T,
    LSO G = Ok T /\
    forall a b,
      a <> b -> In b (DiGraph.adj T a) -> reach_without G a b a b ->
      Invariants.rank (Graph.nodes G) a < Invariants.rank (Graph.nodes G) b.
Proof.
  intros Hwf.
  destruct (LSOFacts.LSO_run_spec G Hwf) as [G' [ds0 [Hrun _]]].
  assert (HL : LSO G = Ok (emit (LSO_init G) ds0)).
  { unfold LSO. now rewrite Hrun. }
  destruct (OrderFacts.LSO_emits G _ Hwf HL) as [ds [Hds [_ [_ [HA _]]]]].
  exists (emit (LSO_init G) ds0). split; [exact HL|].
  intros a b Hne Hab Hrw.
  apply (OrderFacts.emitted_tie G ds Hwf Hds a b Hne); [now apply HA|].
  now apply WalkFacts.rw_sym.
Qed.

Lemma LSO_orients_cycle_edges_by_node_order_witness :
  GraphSpec.wf G_triangle /\
  exists T,
    LSO G_triangle = Ok T /\
    forall a b,
      a <> b -> In b (DiGraph.adj T a) -> reach_without G_triangle a b a b ->
      Invariants.rank (Graph.nodes G_triangle) a
      < Invariants.rank (Graph.nodes G_triangle) b.
Proof.
  assert (H : GraphSpec.wf G_triangle)
    by (apply CheckFacts.wfb_wf; vm_compute; reflexivity).
  split; [exact H|].
  exact (LSO_orients_cycle_edges_by_node_order G_triangle H).
Defined.

(** X17. On a tree, at the end of [alg3] the edge into every leaf has the
    label 1 of the first loop, every label of an edge is between 1 and the
    counter j that [alg3] returns, and a label above 1 is on one edge
    only: the loop over the levels labels an edge with a new value of the
    counter and never with a value used before. *)
Theorem alg3_labels_are_used_once
  (is_isomorphic : DiGraph.t -> DiGraph.t -> bool)
  (set_list : list node -> list node) (G : Graph.t) :
  tree G -> (forall l, incl (set_list l) l) ->
  exists T st,
    LSO G = Ok T /\ alg3_run is_isomorphic set_list G = Ok st /\
    (forall x p, In x (DiGraph.nodes T) -> DiGraph.out_degree T x = 0 ->
                 In p (DiGraph.preds T x) ->
                 DiGraph.edge_data (tree3 st) p x = Ok (Some 1)) /\
    (forall a b k, DiGraph.edge_data (tree3 st) a b = Ok (Some k) ->
                   1 <= k <= j st) /\
    (forall a b a' b' k,
        2 <= k ->
        DiGraph.edge_data (tree3 st) a b = Ok (Some k) ->
        DiGraph.edge_data (tree3 st) a' b' = Ok (Some k) ->
        a = a' /\ b = b').
Proof.
  intros HT Hset. pose proof (tree_wf G HT) as Hwf.
  destruct (TreeFacts.LSO_tree G HT) as [T [r [HL [_ HR]]]].
  destruct (FreshFacts.alg3_run_fresh is_isomorphic set_list T r HR Hset G
              HL (FreshFacts.LSO_no_labels G T Hwf HL))
    as [st [E [HS [[I1 I2] L]]]].
  exists T, st. split; [exact HL|]. split; [exact E|]. split; [exact L|].
  split; [exact I1|]. intros a b a' b' k Hk2 Hk Hk'.
  pose proof (I2 a b a' b' k Hk2 Hk Hk') as Eb. subst b'.
  split; [|reflexivity].
  apply FreshFacts.edge_data_adj in Hk, Hk'. destruct HS as [_ [HA _]].
  rewrite HA in Hk, Hk'.
  exact (RootedFacts.pred_unique T r HR b a a' Hk Hk').
Qed.

Lemma alg3_labels_are_used_once_witness :
  tree G_main /\ (forall l, incl (in_order l) l) /\
  exists T st,
    LSO G_main = Ok T /\
    alg3_run is_isomorphic_tree in_order G_main = Ok st /\
    (forall x p, In x (DiGraph.nodes T) -> DiGraph.out_degree T x = 0 ->
                 In p (DiGraph.preds T x) ->
                 DiGraph.edge_data (tree3 st) p x = Ok (Some 1)) /\
    (forall a b k, DiGraph.edge_data (tree3 st) a b = Ok (Some k) ->
                   1 <= k <= j st) /\
    (forall a b a' b' k,
        2 <= k ->
        DiGraph.edge_data (tree3 st) a b = Ok (Some k) ->
        DiGraph.edge_data (tree3 st) a' b' = Ok (Some k) ->
        a = a' /\ b = b').
Proof.
  assert (Hset : forall l, incl (in_order l) l)
    by (intros l; apply incl_refl).
  split; [exact G_main_tree|]. split; [exact Hset|].
  exact (alg3_labels_are_used_once is_isomorphic_tree in_order G_main
           G_main_tree Hset).
Defined.
